(** * Set algebra of [sympy/core/sets.py]: Interval, FiniteSet, SingletonSet,
    Union and EmptySet, their normalising constructors and their operations,
    embedded as executable functions over an error monad. *)

From stdpp Require Import gmap strings list.
From Stdlib Require Import ZArith Lia Orders OrdersTac.

#[local] Set Warnings "-clear-no-such-hyp".

Local Open Scope Z_scope.

(** ** Exceptions and results *)

(** The Python exceptions the module can raise.  [NameError] is what
    evaluating an undefined global name raises; [AttributeError],
    [IndexError] and [TypeError] come from attribute access, indexing and
    the [in] operator.  [OutOfFuel] is not a Python exception: it marks a
    recursion bound of the embedding that was reached, and
    [operations_total] shows that no operation ever produces it. *)
Inductive exn : Type :=
  | ValueError
  | NotImplementedError
  | TypeError
  | NameError
  | AttributeError
  | IndexError
  | OutOfFuel.

Inductive result (A : Type) : Type :=
  | Ok (a : A)
  | Err (e : exn).
Arguments Ok {A} a.
Arguments Err {A} e.

Global Instance result_ret : MRet result := fun A a => Ok a.
Global Instance result_bind : MBind result := fun A B f r =>
  match r with
  | Ok a => f a
  | Err e => Err e
  end.

Global Instance exn_eq_dec : EqDecision exn.
Proof. solve_decision. Defined.

(** ** The symbolic value layer *)

(** Modelled from the spec: the symbolic value layer ([sympify], [is_real],
    [is_comparable], [is_number], the ordering and structural equality) is
    not part of [sets.py].  A value is a concrete number (an integer or one
    of the two infinities) or a symbol, which carries its [real]
    assumption. *)
Inductive value : Type :=
  | Int (z : Z)
  | NegativeInfinity
  | Infinity
  | Symbol (name : string) (real : bool).

Global Instance value_eq_dec : EqDecision value.
Proof. solve_decision. Defined.

Definition value_enc (v : value) : Z + (bool + string * bool) :=
  match v with
  | Int z => inl z
  | NegativeInfinity => inr (inl false)
  | Infinity => inr (inl true)
  | Symbol n r => inr (inr (n, r))
  end.

Definition value_dec (c : Z + (bool + string * bool)) : value :=
  match c with
  | inl z => Int z
  | inr (inl false) => NegativeInfinity
  | inr (inl true) => Infinity
  | inr (inr (n, r)) => Symbol n r
  end.

Global Instance value_countable : Countable value.
Proof. apply (inj_countable' value_enc value_dec). by intros []. Defined.

(** Modelled from the spec: [is_real] holds of every number and of the
    symbols declared real. *)
Definition is_real (v : value) : bool :=
  match v with
  | Symbol _ r => r
  | _ => true
  end.

(** Modelled from the spec: a value is comparable when it is concrete, not
    purely symbolic. *)
Definition is_comparable (v : value) : bool :=
  match v with
  | Symbol _ _ => false
  | _ => true
  end.

(** Modelled from the spec: [is_number] (a concrete number) and [is_Number]
    (an instance of the number classes) agree on this value type. *)
Definition is_number (v : value) : bool := is_comparable v.
Definition is_Number (v : value) : bool := is_comparable v.

(** The order of the concrete values: [-oo < z < oo] for every integer [z].
    [rank] places a value among the three bands and [mag] orders the
    integers inside theirs. *)
Definition rank (v : value) : Z :=
  match v with
  | NegativeInfinity => -1
  | Infinity => 1
  | _ => 0
  end.

Definition mag (v : value) : Z :=
  match v with
  | Int z => z
  | _ => 0
  end.

(** [a < b] and [a <= b] on comparable values, where they are booleans. *)
Definition num_ltb (a b : value) : bool :=
  (rank a <? rank b) || ((rank a =? rank b) && (mag a <? mag b)).
Definition num_leb (a b : value) : bool := negb (num_ltb b a).

(** Modelled from the spec: the result of a comparison or of a logical
    connective is a boolean when it can be decided and a symbolic
    expression otherwise. *)
Inductive truth : Type :=
  | Bool (b : bool)
  | Symbolic.

Global Instance truth_eq_dec : EqDecision truth.
Proof. solve_decision. Defined.

Definition both_comparable (a b : value) : bool :=
  is_comparable a && is_comparable b.

Definition lt (a b : value) : truth :=
  if both_comparable a b then Bool (num_ltb a b) else Symbolic.
Definition le (a b : value) : truth :=
  if both_comparable a b then Bool (num_leb a b) else Symbolic.
Definition gt (a b : value) : truth := lt b a.
Definition ge (a b : value) : truth := le b a.

(** Modelled from the spec: the conjunction and disjunction builders of the
    logic layer; a decided operand absorbs or disappears. *)
Definition And (p q : truth) : truth :=
  match p, q with
  | Bool false, _ | _, Bool false => Bool false
  | Bool true, r | r, Bool true => r
  | Symbolic, Symbolic => Symbolic
  end.

Definition Or2 (p q : truth) : truth :=
  match p, q with
  | Bool true, _ | _, Bool true => Bool true
  | Bool false, r | r, Bool false => r
  | Symbolic, Symbolic => Symbolic
  end.

Definition Or (ps : list truth) : truth := foldr Or2 (Bool false) ps.

(** [end - start == 0]: the difference of two integers is zero when they are
    equal, a difference with an infinity never is, and a symbol minus itself
    cancels. *)
Definition diff_is_zero (e s : value) : bool :=
  match e, s with
  | Int a, Int b => bool_decide (a = b)
  | Symbol _ _, Symbol _ _ => bool_decide (e = s)
  | _, _ => false
  end.

(** ** Sets *)

(** The four arguments of an Interval object. *)
Record interval : Type := mkInterval {
  start : value;
  end_ : value;
  left_open : bool;
  right_open : bool
}.

Global Instance interval_eq_dec : EqDecision interval.
Proof. solve_decision. Defined.

Local Unset Elimination Schemes.

(** The objects of the Set hierarchy, by class.  [Interval] is an instance of
    class Interval proper and [FiniteSet] one of class FiniteSet proper;
    [SingletonSet] inherits from both.  [AbstractSet] is an instance of the
    base classes Set or DiscreteSet, whose hooks are the abstract
    defaults. *)
Inductive SetV : Type :=
  | EmptySet
  | Interval (i : interval)
  | FiniteSet (elements : gset value)
  | SingletonSet (val : value)
  | Union (args : list SetV)
  | AbstractSet.

(** What a caller can pass to the variadic constructors: a Set, an iterable
    that is not a Set, or any other object. *)
Inductive pyobj : Type :=
  | PSet (s : SetV)
  | PIter (items : list pyobj)
  | PObj.

Local Set Elimination Schemes.

(** [isinstance(s, Interval)], with the attributes [start], [end],
    [left_open] and [right_open] the object then has; SingletonSet stores
    [(val, val, False, False)]. *)
Definition as_interval (s : SetV) : option interval :=
  match s with
  | Interval i => Some i
  | SingletonSet v => Some (mkInterval v v false false)
  | _ => None
  end.

(** [isinstance(s, FiniteSet)], with the [elements] field. *)
Definition as_finite (s : SetV) : option (gset value) :=
  match s with
  | FiniteSet X => Some X
  | SingletonSet v => Some {[ v ]}
  | _ => None
  end.

(** Attribute access on an object that may lack the interval attributes. *)
Definition interval_attrs (s : SetV) : result interval :=
  match as_interval s with
  | Some i => Ok i
  | None => Err AttributeError
  end.

(** ** Constructors *)

(** [SingletonSet.__new__] only stores its value. *)
Definition SingletonSet_new (val : value) : SetV := SingletonSet val.

(** [FiniteSet.__new__], on the argument list after the single-iterable
    form has been unwrapped and the arguments sympified. *)
Definition FiniteSet_new (args : list value) : SetV :=
  match args with
  | [a] => if is_number a then SingletonSet_new a
           else FiniteSet (list_to_set args)
  | [] => EmptySet
  | _ => FiniteSet (list_to_set args)
  end.

(** [Interval.__new__]. *)
Definition Interval_new (start end_ : value) (left_open right_open : bool)
  : result SetV :=
  if negb (is_real start) || negb (is_real end_) then Err ValueError
  else if is_comparable end_ && is_comparable start && num_ltb end_ start
  then Ok EmptySet
  else if bool_decide (end_ = start) && (left_open || right_open)
  then Ok EmptySet
  else if bool_decide (end_ = start) && negb (left_open || right_open)
  then Ok (SingletonSet_new end_)
  else
    let left_open :=
      if bool_decide (start = NegativeInfinity) then true else left_open in
    let right_open :=
      if bool_decide (end_ = Infinity) then true else right_open in
    Ok (Interval (mkInterval start end_ left_open right_open)).

(** ** Containment *)

(** [Interval._contains]. *)
Definition Interval_contains (i : interval) (other : value) : truth :=
  let expr := if left_open i then gt other (start i)
              else ge other (start i) in
  if right_open i then And expr (lt other (end_ i))
  else And expr (le other (end_ i)).

(** [Set.contains], dispatching on the class of [s]: [FiniteSet._contains]
    for both finite classes, [Union._contains], [EmptySet._contains], and
    the abstract default. *)
Fixpoint contains (s : SetV) (other : value) : result truth :=
  match s with
  | EmptySet => Ok (Bool false)
  | Interval i => Ok (Interval_contains i other)
  | FiniteSet X => Ok (Bool (bool_decide (other ∈ X)))
  | SingletonSet v => Ok (Bool (bool_decide (other ∈ ({[ v ]} : gset value))))
  | Union args =>
      or_args ← mapM (fun the_set => contains the_set other) args;
      Ok (Or or_args)
  | AbstractSet => Err NotImplementedError
  end.

(** [Set.__contains__], the [in] operator. *)
Definition contains_op (s : SetV) (other : value) : result bool :=
  r ← contains s other;
  match r with
  | Bool b => Ok b
  | Symbolic => Err TypeError
  end.

(** ** Equality *)

(** The [==] operator on sets.  [FiniteSet.__eq__] compares element
    collections when both sides are finite sets and is false otherwise; the
    other classes use the structural equality of [Basic], which compares the
    class and then the arguments pairwise with [==]. *)
Fixpoint set_eqb (a b : SetV) : bool :=
  match a, b with
  | EmptySet, EmptySet => true
  | Interval i, Interval j => bool_decide (i = j)
  | (FiniteSet _ | SingletonSet _), (FiniteSet _ | SingletonSet _) =>
      bool_decide (as_finite a = as_finite b)
  | Union xs, Union ys =>
      (fix go (xs ys : list SetV) : bool :=
         match xs, ys with
         | [], [] => true
         | x :: xs', y :: ys' => set_eqb x y && go xs' ys'
         | _, _ => false
         end) xs ys
  | AbstractSet, AbstractSet => true
  | _, _ => false
  end.

(** ** Sizes, used to bound the recursion of the dispatching operations *)

Fixpoint SetV_size (s : SetV) : nat :=
  match s with
  | Union args => S (foldr (fun c n => (SetV_size c + n)%nat) 0%nat args)
  | _ => 1%nat
  end.

Fixpoint pyobj_size (o : pyobj) : nat :=
  match o with
  | PSet s => SetV_size s
  | PIter items => S (foldr (fun c n => (pyobj_size c + n)%nat) 0%nat items)
  | PObj => 1%nat
  end.

Definition queue_size (q : list pyobj) : nat :=
  foldr (fun c n => (pyobj_size c + n)%nat) 0%nat q.

(** ** Sorting *)

(** Modelled from the spec: [list.sort] and [sorted] are Python built-ins; a
    stable sort, which places each element after the ones already placed
    that it is not smaller than. *)
Section sorting.
Context {A : Type} (less : A → A → bool).

Fixpoint insert_sorted (x : A) (l : list A) : list A :=
  match l with
  | [] => [x]
  | y :: l' => if less x y then x :: l else y :: insert_sorted x l'
  end.

Definition stable_sort (l : list A) : list A :=
  foldl (fun acc x => insert_sorted x acc) [] l.
End sorting.

(** Filtering by a test that may raise, in iteration order. *)
Fixpoint filterM {A : Type} (p : A → result bool) (l : list A)
  : result (list A) :=
  match l with
  | [] => Ok []
  | x :: l' =>
      b ← p x;
      r ← filterM p l';
      Ok (if b : bool then x :: r else r)
  end.

(** [any(el in i for i in intervals)], which stops at the first hit. *)
Fixpoint any_contains (el : value) (sets : list SetV) : result bool :=
  match sets with
  | [] => Ok false
  | i :: rest =>
      b ← contains_op i el;
      if b : bool then Ok true else any_contains el rest
  end.

(** Iterating a finite set, [FiniteSet.__iter__]; other objects are not
    iterable. *)
Definition iter_elements (s : SetV) : result (list value) :=
  match as_finite s with
  | Some X => Ok (elements X)
  | None => Err TypeError
  end.

(** [len(s)], defined by [EmptySet.__len__] and [FiniteSet.__len__]. *)
Definition set_len (s : SetV) : result nat :=
  match s with
  | EmptySet => Ok 0%nat
  | FiniteSet X => Ok (size X)
  | SingletonSet v => Ok 1%nat
  | _ => Err TypeError
  end.

(** ** The Union constructor *)

(** The three lists [Union.__new__] sorts its arguments into.  Only
    instances of class Interval proper reach [intervals]: the finite classes
    are tested first. *)
Record buckets : Type := mkBuckets {
  intervals : list interval;
  finite_sets : list SetV;
  other_sets : list SetV
}.

(** The first loop of [Union.__new__].  The loop walks [args] while
    appending to it, so the arguments still to visit form a queue: [fuel]
    bounds the number of visits. *)
Fixpoint classify (fuel : nat) (args : list pyobj) (b : buckets)
  : result buckets :=
  match args with
  | [] => Ok b
  | arg :: rest =>
      match fuel with
      | O => Err OutOfFuel
      | S fuel =>
          match arg with
          | PSet EmptySet => classify fuel rest b
          | PSet (Union args') =>
              classify fuel (rest ++ (PSet <$> args')) b
          | PSet (FiniteSet _ as s) | PSet (SingletonSet _ as s) =>
              classify fuel rest
                (mkBuckets (intervals b) (finite_sets b ++ [s]) (other_sets b))
          | PSet (Interval i) =>
              classify fuel rest
                (mkBuckets (intervals b ++ [i]) (finite_sets b) (other_sets b))
          | PSet (AbstractSet as s) =>
              classify fuel rest
                (mkBuckets (intervals b) (finite_sets b) (other_sets b ++ [s]))
          | PIter items => classify fuel (rest ++ items) b
          | PObj => Err ValueError
          end
      end
  end.

(** [Interval._is_comparable]. *)
Definition Interval_is_comparable (self other : interval) : bool :=
  is_comparable (start self) && is_comparable (end_ self)
  && is_comparable (start other) && is_comparable (end_ other).

(** The test of the merge loop: whether [cur] and [next] are merged. *)
Definition should_merge (cur next : interval) : bool :=
  if Interval_is_comparable cur next then
    if num_ltb (start next) (end_ cur) then true
    else if bool_decide (start next = end_ cur)
    then negb (left_open next && right_open cur)
    else false
  else false.

(** The flags and the end of the merged interval. *)
Definition merged_left_open (cur next : interval) : bool :=
  if bool_decide (start cur = start next)
  then left_open cur && left_open next
  else left_open cur.

Definition merged_right (cur next : interval) : bool * value :=
  if num_ltb (end_ cur) (end_ next) then (right_open next, end_ next)
  else if num_ltb (end_ next) (end_ cur) then (right_open cur, end_ cur)
  else (right_open cur && right_open next, end_ cur).

Definition merge_pair (cur next : interval) : result SetV :=
  let '(right_open', end') := merged_right cur next in
  Interval_new (start cur) end' (merged_left_open cur next) right_open'.

(** The merge loop, from position [i] on: [cur] is [intervals[i]] and [rest]
    what follows it.  A merge replaces [cur] and stays; otherwise the loop
    moves on to [next]. *)
Fixpoint merge_from (cur : SetV) (rest : list interval)
  : result (list SetV) :=
  match rest with
  | [] => Ok [cur]
  | next :: rest' =>
      c ← interval_attrs cur;
      if should_merge c next then
        m ← merge_pair c next;
        merge_from m rest'
      else
        tl ← merge_from (Interval next) rest';
        Ok (cur :: tl)
  end.

Definition merge_intervals (l : list interval) : result (list SetV) :=
  match l with
  | [] => Ok []
  | i :: rest => merge_from (Interval i) rest
  end.

(** The body of the loop that closes open boundaries found in
    [finite_set]; the result is what [intervals[num]] holds afterwards. *)
Definition close_boundaries (finite_set : SetV) (s : SetV) : result SetV :=
  i ← interval_attrs s;
  closeLeft ← (if left_open i then contains_op finite_set (start i)
               else Ok false);
  closeRight ← (if right_open i then contains_op finite_set (end_ i)
                else Ok false);
  if (closeLeft && left_open i) || (closeRight && right_open i)
  then Interval_new (start i) (end_ i) (negb closeLeft) (negb closeRight)
  else Ok s.

(** The test of the generator that builds [finite_complement]. *)
Definition not_covered (ivs : list SetV) (el : value) : result bool :=
  if negb (is_number el) then Ok true
  else b ← any_contains el ivs; Ok (negb b).

(** A fixed choice for the undecided sort comparisons, for running the
    functions on concrete inputs. *)
Definition unordered : value → value → bool := fun _ _ => false.

(** The interval object with integer end points [a] and [b]. *)
Definition iv (a b : Z) (lo ro : bool) : interval :=
  mkInterval (Int a) (Int b) lo ro.

Section Sets.

(** The truth value Python gives to an undecided comparison of two sort
    keys; the value layer fixes it and [sets.py] does not depend on which
    way it falls. *)
Variable sym_lt : value → value → bool.

Definition key_lt (a b : value) : bool :=
  match lt a b with
  | Bool t => t
  | Symbolic => sym_lt a b
  end.

(** [intervals.sort(key=lambda i: i.start)]. *)
Definition sort_intervals (l : list interval) : list interval :=
  stable_sort (fun i j => key_lt (start i) (start j)) l.

(** [Set.union] and [FiniteSet.union], over a given Union constructor. *)
Definition union_with (mk_union : list pyobj → result SetV)
  (self other : SetV) : result SetV :=
  match as_finite self, as_finite other with
  | Some X, Some Y => Ok (FiniteSet_new (elements (X ∪ Y)))
  | _, _ => mk_union [PSet self; PSet other]
  end.

(** [sum(finite_sets[1:], finite_sets[0])]. *)
Fixpoint sum_sets (add : SetV → SetV → result SetV) (l : list SetV)
  (acc : SetV) : result SetV :=
  match l with
  | [] => Ok acc
  | s :: l' => acc' ← add acc s; sum_sets add l' acc'
  end.

(** The block of [Union.__new__] that runs when there are finite sets: it
    merges them, closes the open boundaries they contain and appends what
    no interval covers to [other_sets].  The result is the pair of
    [intervals] and [other_sets] after the block. *)
Definition absorb_finite (add : SetV → SetV → result SetV)
  (ivs : list SetV) (b : buckets) : result (list SetV * list SetV) :=
  match finite_sets b with
  | [] => Ok (ivs, other_sets b)
  | first :: more =>
      finite_set ← sum_sets add more first;
      ivs ← mapM (close_boundaries finite_set) ivs;
      els ← iter_elements finite_set;
      kept ← filterM (not_covered ivs) els;
      let finite_complement := FiniteSet_new kept in
      n ← set_len finite_complement;
      Ok (ivs, if (0 <? n)%nat
               then other_sets b ++ [finite_complement]
               else other_sets b)
  end.

(** The end of [Union.__new__]: a single set left over is returned as it
    is. *)
Definition collapse (ivs others : list SetV) : SetV :=
  match ivs, others with
  | [i], [] => i
  | [], [o] => o
  | _, _ => Union (ivs ++ others)
  end.

(** [Union.__new__] from the sort on. *)
Definition Union_normalise (add : SetV → SetV → result SetV) (b : buckets)
  : result SetV :=
  ivs ← merge_intervals (sort_intervals (intervals b));
  r ← absorb_finite add ivs b;
  Ok (collapse r.1 r.2).

(** [Union.__new__] after the first loop, over a given [+] on sets. *)
Definition Union_build (add : SetV → SetV → result SetV) (b : buckets)
  : result SetV :=
  match intervals b, other_sets b, finite_sets b with
  | [], [], [] => Ok EmptySet
  | _, _, _ => Union_normalise add b
  end.

(** [Union.__new__].  The only call back into the constructor is the [+] of
    the finite sets when the left operand is not a finite set, which is one
    level deep; [n] bounds it. *)
Fixpoint Union_fuel (n : nat) (args : list pyobj) : result SetV :=
  match n with
  | O => Err OutOfFuel
  | S n =>
      b ← classify (S (queue_size args)) args (mkBuckets [] [] []);
      Union_build (union_with (Union_fuel n)) b
  end.

Definition Union_new (args : list pyobj) : result SetV := Union_fuel 2 args.

(** [Set.union], [FiniteSet.union] and the [+] operator. *)
Definition union (self other : SetV) : result SetV :=
  union_with Union_new self other.

(** ** Intersection *)

(** [FiniteSet._intersect], which SingletonSet inherits. *)
Definition FiniteSet_intersect (self : gset value) (other : SetV)
  : result SetV :=
  match as_finite other with
  | Some Y => Ok (FiniteSet_new (elements (self ∩ Y)))
  | None =>
      kept ← filterM (contains_op other) (elements self);
      Ok (FiniteSet_new kept)
  end.

(** The bounds [Interval._intersect] computes for two overlapping
    intervals. *)
Definition intersect_left (self other : interval) : value * bool :=
  if num_ltb (start self) (start other) then (start other, left_open other)
  else if num_ltb (start other) (start self)
  then (start self, left_open self)
  else (start self, left_open self || left_open other).

Definition intersect_right (self other : interval) : value * bool :=
  if num_ltb (end_ self) (end_ other) then (end_ self, right_open self)
  else if num_ltb (end_ other) (end_ self)
  then (end_ other, right_open other)
  else (end_ self, right_open self || right_open other).

(** [Interval._intersect]; [intersect] is the dispatching [Set.intersect]
    it calls back. *)
Definition Interval_intersect (intersect : SetV → SetV → result SetV)
  (self : interval) (other : SetV) : result SetV :=
  match as_interval other with
  | None => intersect other (Interval self)
  | Some o =>
      if negb (Interval_is_comparable self o) then Err NotImplementedError
      else if num_leb (start self) (end_ o) && num_leb (start o) (end_ self)
      then
        let '(start', left_open') := intersect_left self o in
        let '(end', right_open') := intersect_right self o in
        if diff_is_zero end' start' && (left_open' || right_open')
        then Ok EmptySet
        else Interval_new start' end' left_open' right_open'
      else Ok EmptySet
  end.

(** [Union._intersect]. *)
Definition Union_intersect (intersect : SetV → SetV → result SetV)
  (args : list SetV) (other : SetV) : result SetV :=
  match as_interval other with
  | Some _ =>
      intersections ← mapM (fun interval => intersect interval other) args;
      Union_new (PSet <$> intersections)
  | None =>
      match other with
      | FiniteSet Y => FiniteSet_intersect Y (Union args)
      | Union args' =>
          intersections ← mapM (fun s => intersect (Union args) s) args';
          Union_new (PSet <$> intersections)
      | _ => intersect other (Union args)
      end
  end.

(** [Set.intersect], dispatching on the class of [self]. *)
Fixpoint intersect_fuel (n : nat) (self other : SetV) : result SetV :=
  match n with
  | O => Err OutOfFuel
  | S n =>
      match self with
      | EmptySet => Ok EmptySet
      | Interval i => Interval_intersect (intersect_fuel n) i other
      | FiniteSet X => FiniteSet_intersect X other
      | SingletonSet v => FiniteSet_intersect {[ v ]} other
      | Union args => Union_intersect (intersect_fuel n) args other
      | AbstractSet => Err NotImplementedError
      end
  end.

(** The weight of a call: a call on an Interval may hand over to the other
    operand, and a call on a Union to a component or to the other operand. *)
Definition dispatch_weight (s : SetV) : nat :=
  match s with
  | Interval _ => 2%nat
  | Union _ => 1%nat
  | _ => 0%nat
  end.

Definition intersect_measure (self other : SetV) : nat :=
  (3 * (SetV_size self + SetV_size other) + dispatch_weight self)%nat.

Definition intersect (self other : SetV) : result SetV :=
  intersect_fuel (S (intersect_measure self other)) self other.

(** ** Complement *)

(** [sorted(list(self.elements))]. *)
Definition sort_values (l : list value) : list value :=
  stable_sort key_lt l.

(** [zip(l[0:-1], l[1:])]: the consecutive pairs. *)
Fixpoint consecutive {A : Type} (l : list A) : list (A * A) :=
  match l with
  | a :: (b :: _) as l' => (a, b) :: consecutive l'
  | _ => []
  end.

(** [FiniteSet._complement], on the iteration order of the elements.  The
    name raised when an element is not a Number is not bound to anything. *)
Definition FiniteSet_complement (els : list value) : result SetV :=
  if negb (forallb is_Number els) then Err NameError
  else
    let sorted_elements := sort_values els in
    match sorted_elements with
    | [] => Err IndexError
    | first :: _ =>
        i0 ← Interval_new NegativeInfinity first true true;
        mids ← mapM (fun ab => Interval_new (fst ab) (snd ab) true true)
                 (consecutive sorted_elements);
        i1 ← Interval_new (List.last sorted_elements first) Infinity
               true true;
        Union_new (PSet <$> i0 :: mids ++ [i1])
    end.

(** [Interval._complement]. *)
Definition Interval_complement (self : interval) : result SetV :=
  a ← Interval_new NegativeInfinity (start self) true (negb (left_open self));
  b ← Interval_new (end_ self) Infinity (negb (right_open self)) true;
  Union_new [PSet a; PSet b].

(** [Set.complement], with [Union._complement] folding [intersect] over the
    complements of the components. *)
Fixpoint complement (s : SetV) : result SetV :=
  match s with
  | EmptySet => Interval_new NegativeInfinity Infinity false false
  | Interval i => Interval_complement i
  | FiniteSet X => FiniteSet_complement (elements X)
  | SingletonSet v => FiniteSet_complement (elements ({[ v ]} : gset value))
  | Union args =>
      match args with
      | [] => Err IndexError
      | first :: rest =>
          c ← complement first;
          (fix fold (acc : SetV) (l : list SetV) {struct l} : result SetV :=
             match l with
             | [] => Ok acc
             | set :: l' =>
                 c' ← complement set;
                 acc' ← intersect acc c';
                 fold acc' l'
             end) c rest
      end
  | AbstractSet => Err NotImplementedError
  end.

(** ** Difference and subset *)

(** The binary [-]: [FiniteSet.__sub__] for the finite classes and
    [Set.__sub__] for the others. *)
Definition sub (self other : SetV) : result SetV :=
  match as_finite self with
  | Some X =>
      kept ← filterM (fun el => b ← contains_op other el; Ok (negb b))
               (elements X);
      Ok (FiniteSet_new kept)
  | None =>
      c ← complement other;
      intersect self c
  end.

(** [Set.subset]. *)
Definition subset (self : SetV) (other : pyobj) : result bool :=
  match other with
  | PSet o => r ← intersect self o; Ok (set_eqb r o)
  | _ => Err ValueError
  end.

End Sets.

(** ** Relational form *)

(** [as_relational(symbol)] builds its result with the relational
    builders [Lt], [Le] and [Eq] and the connectives [And] and [Or] on the
    argument it is given, so the embedding takes the argument as a value
    and returns a [truth]: a boolean where the builders decide, a symbolic
    expression otherwise.  On a number in place of the symbol the result
    is the truth value of the relation at this number. *)

(** Modelled from the spec: the equality builder [Eq] of the relational
    layer, which like the order relations is decided on two concrete
    values and stays an expression otherwise.  The name [Eq] itself
    belongs to the comparison type of the standard library. *)
Definition Eq_ (a b : value) : truth :=
  if both_comparable a b then Bool (bool_decide (a = b)) else Symbolic.

(** [Interval.is_left_unbounded] and [Interval.is_right_unbounded]. *)
Definition is_left_unbounded (i : interval) : bool :=
  bool_decide (start i = NegativeInfinity).

Definition is_right_unbounded (i : interval) : bool :=
  bool_decide (end_ i = Infinity).

(** [Interval.as_relational]; [Lt] and [Le] are the builders behind [<]
    and [<=]. *)
Definition Interval_as_relational (i : interval) (symbol : value) : truth :=
  let left := if left_open i then lt (start i) symbol
              else le (start i) symbol in
  let right := if right_open i then lt symbol (end_ i)
               else le symbol (end_ i) in
  if is_left_unbounded i && is_right_unbounded i then Bool true
  else if is_left_unbounded i then right
  else if is_right_unbounded i then left
  else And left right.

(** [FiniteSet.as_relational], which SingletonSet inherits. *)
Definition FiniteSet_as_relational (X : gset value) (symbol : value)
  : truth :=
  Or ((λ elem, Eq_ symbol elem) <$> elements X).

(** [as_relational], dispatching on the class of [s]; the abstract base
    class does not define the method. *)
Fixpoint as_relational (s : SetV) (symbol : value) : result truth :=
  match s with
  | EmptySet => Ok (Bool false)
  | Interval i => Ok (Interval_as_relational i symbol)
  | FiniteSet X => Ok (FiniteSet_as_relational X symbol)
  | SingletonSet v => Ok (FiniteSet_as_relational {[ v ]} symbol)
  | Union args =>
      rels ← mapM (fun set => as_relational set symbol) args;
      Ok (Or rels)
  | AbstractSet => Err AttributeError
  end.

(** ** Measure *)

(** Modelled from the spec: the result of arithmetic on values, which is
    not part of [sets.py]: an integer, an infinity, the undefined number
    [nan] that opposite infinities give, or an expression that stays
    symbolic. *)
Inductive quantity : Type :=
  | Number (z : Z)
  | PosInf
  | NegInf
  | NaN
  | Expression.

Global Instance quantity_eq_dec : EqDecision quantity.
Proof. solve_decision. Defined.

(** Modelled from the spec: [a - b] on values; a symbol minus itself
    cancels. *)
Definition value_sub (a b : value) : quantity :=
  match a, b with
  | Int x, Int y => Number (x - y)
  | Int _, NegativeInfinity => PosInf
  | Int _, Infinity => NegInf
  | Infinity, Infinity => NaN
  | Infinity, (Int _ | NegativeInfinity) => PosInf
  | NegativeInfinity, NegativeInfinity => NaN
  | NegativeInfinity, (Int _ | Infinity) => NegInf
  | _, _ => if bool_decide (a = b) then Number 0 else Expression
  end.

(** Modelled from the spec: [p + q]; [nan] absorbs, and opposite
    infinities give [nan]. *)
Definition quantity_add (p q : quantity) : quantity :=
  match p, q with
  | NaN, _ | _, NaN => NaN
  | Expression, _ | _, Expression => Expression
  | Number x, Number y => Number (x + y)
  | PosInf, NegInf | NegInf, PosInf => NaN
  | PosInf, _ | _, PosInf => PosInf
  | NegInf, _ | _, NegInf => NegInf
  end.

(** [Set.measure], dispatching on the class of [s]: [Interval._measure],
    [Union._measure], which adds the measures of the components to 0 in
    their order, [EmptySet._measure], [DiscreteSet._measure] for the finite
    classes (for a SingletonSet it comes before [Interval._measure] in the
    method resolution order), and the abstract default. *)
Fixpoint measure (s : SetV) : result quantity :=
  match s with
  | EmptySet => Ok (Number 0)
  | Interval i => Ok (value_sub (end_ i) (start i))
  | FiniteSet _ | SingletonSet _ => Ok (Number 0)
  | Union args =>
      ms ← mapM measure args;
      Ok (foldl quantity_add (Number 0) ms)
  | AbstractSet => Err NotImplementedError
  end.

(** ** Membership and the shape of the objects, as propositions *)

(** [x in s] evaluates to [True]. *)
Definition mem (x : value) (s : SetV) : Prop := contains_op s x = Ok true.

(** The objects the Interval constructor returns as they are: instances of
    class Interval proper with distinct, ordered, real end points and open
    infinite ends. *)
Definition wf_interval (i : interval) : Prop :=
  Interval_new (start i) (end_ i) (left_open i) (right_open i)
  = Ok (Interval i).

(** The points of an interval, as a proposition on the order. *)
Definition inside (i : interval) (x : value) : Prop :=
  is_comparable x = true ∧ is_comparable (start i) = true
  ∧ is_comparable (end_ i) = true
  ∧ (if left_open i then num_ltb (start i) x else num_leb (start i) x) = true
  ∧ (if right_open i then num_ltb x (end_ i) else num_leb x (end_ i)) = true.

(** An interval with concrete end points is proper when its start is below
    its end; the Interval constructor returns no other. *)
Definition proper (i : interval) : Prop :=
  is_comparable (start i) = true → is_comparable (end_ i) = true →
  num_ltb (start i) (end_ i) = true.

Definition proper_interval (i : interval) : bool :=
  negb (is_comparable (start i) && is_comparable (end_ i))
  || num_ltb (start i) (end_ i).

Fixpoint proper_set (s : SetV) : bool :=
  match s with
  | Interval i => proper_interval i
  | Union args => forallb proper_set args
  | _ => true
  end.

Fixpoint proper_obj (o : pyobj) : bool :=
  match o with
  | PSet s => proper_set s
  | PIter items => forallb proper_obj items
  | PObj => true
  end.

(** A set without abstract components: the ones whose [contains] does not
    raise. *)
Fixpoint is_pure (s : SetV) : bool :=
  match s with
  | Union args => forallb is_pure args
  | AbstractSet => false
  | _ => true
  end.

(** The sets the first loop of the Union constructor finds in an argument,
    in any order: what is left once Unions and iterables are opened and
    empty sets dropped. *)
Fixpoint leaves (s : SetV) : list SetV :=
  match s with
  | EmptySet => []
  | Union args => mjoin (leaves <$> args)
  | _ => [s]
  end.

Fixpoint obj_leaves (o : pyobj) : list SetV :=
  match o with
  | PSet s => leaves s
  | PIter items => mjoin (obj_leaves <$> items)
  | PObj => []
  end.

(** Everything the three lists hold. *)
Definition members (b : buckets) : list SetV :=
  (Interval <$> intervals b) ++ finite_sets b ++ other_sets b.

Definition is_finite_set (s : SetV) : Prop := is_Some (as_finite s).

(** What the first loop has done when it turns the lists [b] into [b'] on
    the queue [q]. *)
Definition classified (q : list pyobj) (b b' : buckets) : Prop :=
  (∀ s, s ∈ members b' ↔ s ∈ members b ∨ s ∈ mjoin (obj_leaves <$> q))
  ∧ (Forall is_finite_set (finite_sets b) →
     Forall is_finite_set (finite_sets b'))
  ∧ (Forall (λ s, s = AbstractSet) (other_sets b) →
     Forall (λ s, s = AbstractSet) (other_sets b')).

(** [x] belongs to an argument of the Union constructor. *)
Definition obj_mem (x : value) (o : pyobj) : Prop :=
  match o with
  | PSet s => mem x s
  | _ => ∃ l, l ∈ obj_leaves o ∧ mem x l
  end.

(** The test of the merge loop, on comparable intervals. *)
Definition touching (cur next : interval) : Prop :=
  num_ltb (start next) (end_ cur) = true
  ∨ (start next = end_ cur ∧ left_open next && right_open cur = false).

(** What the closing loop does to an interval [i], giving [j], when the
    combined finite set has the elements [X]: the end points stay; an open
    finite boundary found in [X] is closed; an infinite boundary stays
    open; and of two open boundaries, one that is not in [X] stays open. *)
Definition closed_by (X : gset value) (i j : interval) : Prop :=
  start j = start i ∧ end_ j = end_ i
  ∧ (left_open i = true → start i ∈ X → start i ≠ NegativeInfinity →
     left_open j = false)
  ∧ (right_open i = true → end_ i ∈ X → end_ i ≠ Infinity →
     right_open j = false)
  ∧ (start i = NegativeInfinity → left_open j = true)
  ∧ (end_ i = Infinity → right_open j = true)
  ∧ (left_open i = true → right_open i = true →
     (start i ∉ X → left_open j = true)
     ∧ (end_ i ∉ X → right_open j = true)).

(** A result that is not the mark of a recursion bound reached. *)
Definition safe {A : Type} (r : result A) : Prop := r ≠ Err OutOfFuel.

(** The values the sum of the finite sets passes through: finite sets, and
    what is left of finite sets without elements. *)
Definition sum_value (a : SetV) : Prop :=
  is_finite_set a ∨ a = EmptySet ∨ a = Union [].

(** [isinstance(s, Union)]. *)
Definition is_Union (s : SetV) : bool :=
  match s with
  | Union _ => true
  | _ => false
  end.

(** ** Shapes of arguments and of sorted lists, as propositions *)

(** An interval whose end points are concrete numbers. *)
Definition concrete (i : interval) : bool :=
  is_comparable (start i) && is_comparable (end_ i).

(** [c] starts no later than every interval of [l]. *)
Definition below (c : interval) (l : list interval) : Prop :=
  Forall (λ i, num_ltb (start i) (start c) = false) l.

(** A list of intervals in the order of their starts. *)
Fixpoint ascending (l : list interval) : Prop :=
  match l with
  | [] => True
  | i :: l' => below i l' ∧ ascending l'
  end.

(** The Interval objects among the arguments, in their order. *)
Definition interval_args (l : list SetV) : list interval :=
  omap (λ s, match s with Interval i => Some i | _ => None end) l.

(** An argument that is the empty set or an Interval object with concrete
    end points. *)
Definition interval_arg (s : SetV) : Prop :=
  s = EmptySet ∨ ∃ i, s = Interval i ∧ wf_interval i ∧ concrete i = true.

(** A list of values in strictly increasing order. *)
Fixpoint increasing (l : list value) : Prop :=
  match l with
  | [] => True
  | a :: l' => Forall (λ b, num_ltb a b = true) l' ∧ increasing l'
  end.

(** The end points of the open intervals [FiniteSet._complement] builds
    from the sorted elements [l], with [lo] for the lower end of the first
    one. *)
Definition gaps (lo : value) (l : list value) : list (value * value) :=
  consecutive (lo :: l) ++ [(List.last (lo :: l) lo, Infinity)].

(** The sets without an abstract component whose finite components hold
    numbers only. *)
Fixpoint numeric (s : SetV) : bool :=
  match s with
  | FiniteSet X => forallb is_number (elements X)
  | SingletonSet v => is_number v
  | Union args => forallb numeric args
  | AbstractSet => false
  | _ => true
  end.

(** [p <= q] on the quantities that are numbers. *)
Definition quantity_leb (p q : quantity) : bool :=
  match p, q with
  | Number x, Number y => x <=? y
  | NegInf, (Number _ | PosInf | NegInf) => true
  | (Number _ | PosInf), PosInf => true
  | _, _ => false
  end.

(** An argument that is a finite set with an element. *)
Definition finite_arg (s : SetV) : Prop :=
  ∃ X, as_finite s = Some X ∧ X ≠ ∅.

(** The interval [b] lies within the interval [a], by their end points and
    flags. *)
Definition within (b a : interval) : bool :=
  (num_ltb (start a) (start b)
   || bool_decide (start a = start b) && implb (left_open a) (left_open b))
  && (num_ltb (end_ b) (end_ a)
      || bool_decide (end_ b = end_ a)
         && implb (right_open a) (right_open b)).

(** The finite sets among the arguments, in their order. *)
Definition finite_args (l : list SetV) : list SetV :=
  omap (λ s, match s with
             | FiniteSet _ | SingletonSet _ => Some s
             | _ => None
             end) l.

(** An argument that is the empty set, an Interval object with concrete
    end points or a finite set with an element. *)
Definition plain_arg (s : SetV) : Prop := interval_arg s ∨ finite_arg s.

(** No element of a finite set among the arguments is an end point of an
    interval among them. *)
Definition off_boundaries (l : list SetV) : Prop :=
  ∀ i f X, Interval i ∈ l → f ∈ l → as_finite f = Some X →
    (start i ∉ X) ∧ (end_ i ∉ X).

(** The complement of an interval with concrete end points, as
    [Interval._complement] returns it: the part below the interval and the
    part above it, where they exist. *)
Definition complement_parts (b : interval) : SetV :=
  let below := mkInterval NegativeInfinity (start b) true
                 (negb (left_open b)) in
  let above := mkInterval (end_ b) Infinity (negb (right_open b)) true in
  match bool_decide (start b = NegativeInfinity),
        bool_decide (end_ b = Infinity) with
  | true, true => EmptySet
  | true, false => Interval above
  | false, true => Interval below
  | false, false => Union [Interval below; Interval above]
  end.

(** A set returned by the intersection of two intervals has its end
    points, or its element, between [lo] and [hi]. *)
Definition bounded_by (lo hi : value) (r : SetV) : Prop :=
  match r with
  | EmptySet => True
  | SingletonSet v => num_leb lo v = true ∧ num_leb v hi = true
  | Interval j => num_leb lo (start j) = true ∧ num_leb (end_ j) hi = true
  | _ => False
  end.

(** * Properties *)

(** ** Basic facts *)

Lemma bind_Ok {A B : Type} (m : result A) (f : A → result B) (b : B) :
  m ≫= f = Ok b ↔ ∃ a, m = Ok a ∧ f a = Ok b.
Proof.
  destruct m as [a|e]; unfold mbind, result_bind; split.
  - eauto.
  - by intros (a' & [= ->] & ?).
  - discriminate.
  - by intros (a' & ? & ?).
Qed.

Lemma bind_Err {A B : Type} (m : result A) (f : A → result B) (e : exn) :
  m ≫= f = Err e ↔ m = Err e ∨ ∃ a, m = Ok a ∧ f a = Err e.
Proof.
  destruct m as [a|e']; unfold mbind, result_bind; split.
  - eauto.
  - by intros [?|(a' & [= ->] & ?)].
  - intros [= ->]; eauto.
  - intros [[= ->]|(a' & ? & ?)]; [reflexivity|discriminate].
Qed.

(** Inversion of a successful chain of binds in a hypothesis. *)
Ltac inv_ok :=
  repeat match goal with
  | H : _ ≫= _ = Ok _ |- _ =>
      let a := fresh "a" in
      let Ha := fresh "Ha" in
      apply bind_Ok in H as (a & Ha & H)
  | H : mret _ = Ok _ |- _ => unfold mret, result_ret in H
  | H : Ok _ = Ok _ |- _ => injection H as H; try subst
  | H : Err _ = Ok _ |- _ => discriminate H
  | H : Ok _ = Err _ |- _ => discriminate H
  end.

Lemma SetV_ind (P : SetV → Prop) :
  P EmptySet →
  (∀ i, P (Interval i)) →
  (∀ X, P (FiniteSet X)) →
  (∀ v, P (SingletonSet v)) →
  (∀ args, Forall P args → P (Union args)) →
  P AbstractSet →
  ∀ s, P s.
Proof.
  intros HE HI HF HS HU HA.
  fix IH 1. intros s. destruct s as [ | i | X | v | args | ].
  - exact HE.
  - apply HI.
  - apply HF.
  - apply HS.
  - apply HU. induction args as [|c args IHargs]; constructor.
    + apply IH.
    + exact IHargs.
  - exact HA.
Qed.

Lemma mapM_Ok_Forall2 {A B : Type} (f : A → result B) (l : list A)
  (k : list B) :
  mapM f l = Ok k ↔ Forall2 (fun x y => f x = Ok y) l k.
Proof.
  revert k. induction l as [|x l IH]; intros k; simpl.
  - split.
    + intros [= <-]. constructor.
    + intros H. by inversion H.
  - split.
    + intros H. inv_ok. constructor; [done|]. by apply IH.
    + intros H. inversion H as [|? y ? k' Hxy Hlk]; subst.
      rewrite Hxy. simpl. apply IH in Hlk. rewrite Hlk. done.
Qed.

Lemma filterM_Ok {A : Type} (p : A → result bool) (l k : list A) :
  filterM p l = Ok k →
  Forall (fun x => ∃ b, p x = Ok b) l
  ∧ ∀ x, x ∈ k ↔ x ∈ l ∧ p x = Ok true.
Proof.
  revert k. induction l as [|y l IH]; intros k; simpl.
  - intros [= <-]. split; [constructor|]. set_solver.
  - intros H. inv_ok. destruct (IH _ Ha0) as [Hall Hmem]. split.
    + constructor; eauto.
    + intros x. destruct a.
      * rewrite elem_of_cons, Hmem, elem_of_cons. naive_solver.
      * rewrite Hmem, elem_of_cons. split; [naive_solver|].
        intros [[->|?] Hp]; [congruence|done].
Qed.

Lemma pyobj_ind (P : pyobj → Prop) :
  (∀ s, P (PSet s)) →
  (∀ items, Forall P items → P (PIter items)) →
  P PObj →
  ∀ o, P o.
Proof.
  intros HS HI HO. fix IH 1. intros o. destruct o as [s|items|].
  - apply HS.
  - apply HI. induction items as [|c items IHitems]; constructor.
    + apply IH.
    + exact IHitems.
  - exact HO.
Qed.

Lemma filterM_Err {A : Type} (p : A → result bool) (l : list A) e :
  (∀ x, x ∈ l → (∃ b, p x = Ok b) ∨ p x = Err e) →
  (∃ x, x ∈ l ∧ p x = Err e) →
  filterM p l = Err e.
Proof.
  induction l as [|y l IH]; intros Hall (x & Hx & Hpx).
  - by apply elem_of_nil in Hx.
  - simpl. destruct (Hall y) as [[b Hb]|Hy]; [left|..].
    + rewrite Hb. simpl.
      apply elem_of_cons in Hx as [->|Hx]; [congruence|].
      rewrite IH; [done| |eauto].
      intros z Hz. apply Hall. by right.
    + by rewrite Hy.
Qed.

Lemma filterM_Err_inv {A} (p : A → result bool) l e :
  filterM p l = Err e → ∃ x, x ∈ l ∧ p x = Err e.
Proof.
  induction l as [|y l IH]; simpl; [discriminate|].
  intros [H|(b & Hb & H)]%bind_Err.
  - exists y. split; [left|done].
  - apply bind_Err in H as [H|(k & Hk & H)]; [|discriminate].
    destruct (IH H) as (x & ? & ?). exists x. split; [by right|done].
Qed.

Lemma filterM_fails {A} (p : A → result bool) l :
  (∃ x e, x ∈ l ∧ p x = Err e) → ∃ e, filterM p l = Err e.
Proof.
  induction l as [|y l IH]; intros (x & e & Hx & Hp).
  - by apply elem_of_nil in Hx.
  - simpl. destruct (p y) as [b|e'] eqn:Hy; [|by exists e'].
    apply elem_of_cons in Hx as [->|Hx]; [congruence|].
    destruct IH as [e' He']; [eauto|]. rewrite He'. by exists e'.
Qed.

Lemma forallb_elem_of {A} (f : A → bool) (l : list A) :
  forallb f l = true ↔ ∀ x, x ∈ l → f x = true.
Proof.
  rewrite forallb_forall. by setoid_rewrite list_elem_of_In.
Qed.

Lemma Forall2_elem_of_l {A B} (P : A → B → Prop) l k x :
  Forall2 P l k → x ∈ l → ∃ y, y ∈ k ∧ P x y.
Proof.
  induction 1 as [|a b l k Hab _ IH]; intros Hx.
  - by apply elem_of_nil in Hx.
  - apply elem_of_cons in Hx as [->|Hx].
    + exists b. split; [left|done].
    + destruct (IH Hx) as (y & ? & ?). exists y. split; [by right|done].
Qed.

Lemma Forall2_elem_of_r {A B} (P : A → B → Prop) l k y :
  Forall2 P l k → y ∈ k → ∃ x, x ∈ l ∧ P x y.
Proof.
  induction 1 as [|a b l k Hab _ IH]; intros Hy.
  - by apply elem_of_nil in Hy.
  - apply elem_of_cons in Hy as [->|Hy].
    + exists a. split; [left|done].
    + destruct (IH Hy) as (x & ? & ?). exists x. split; [by right|done].
Qed.

Lemma Forall2_total_l {A B} (P : A → B → Prop) l :
  (∀ x, x ∈ l → ∃ y, P x y) → ∃ k, Forall2 P l k.
Proof.
  induction l as [|a l IH]; intros H.
  - exists []. constructor.
  - destruct (H a) as [b Hb]; [left|].
    destruct IH as [k Hk]; [intros; apply H; by right|].
    exists (b :: k). by constructor.
Qed.

(** ** The order of the concrete values *)

Lemma num_ltb_true a b :
  num_ltb a b = true ↔ rank a < rank b ∨ (rank a = rank b ∧ mag a < mag b).
Proof. unfold num_ltb. rewrite orb_true_iff, andb_true_iff. lia. Qed.

Lemma comparable_eq a b :
  is_comparable a = true → is_comparable b = true →
  a = b ↔ rank a = rank b ∧ mag a = mag b.
Proof.
  destruct a, b; simpl; try discriminate; intros _ _;
    (split; [intros [= ->] || intros [= ] || intros _; lia
            | intros [? ?]; try lia; try reflexivity; f_equal; lia]).
Qed.

(** The values as a total order, for the [order] tactic: [eq] identifies
    the values of equal rank and magnitude, which for comparable values is
    equality. *)
Module ValueOrder.
Definition t : Type := value.
Definition eq (a b : value) : Prop := rank a = rank b ∧ mag a = mag b.
Definition lt (a b : value) : Prop :=
  rank a < rank b ∨ (rank a = rank b ∧ mag a < mag b).
Definition le (a b : value) : Prop := lt a b ∨ eq a b.

Global Instance eq_equiv : Equivalence eq.
Proof.
  unfold eq. split.
  - intros a. lia.
  - intros a b. lia.
  - intros a b c. lia.
Qed.

Global Instance lt_strorder : StrictOrder lt.
Proof.
  split.
  - intros a H. unfold lt in H. lia.
  - intros a b c. unfold lt. lia.
Qed.

Global Instance lt_compat : Proper (eq ==> eq ==> iff) lt.
Proof. unfold eq, lt. intros a a' Ha b b' Hb. lia. Qed.

Lemma le_lteq a b : le a b ↔ lt a b ∨ eq a b.
Proof. done. Qed.

Lemma lt_total a b : lt a b ∨ eq a b ∨ lt b a.
Proof. unfold lt, eq. lia. Qed.
End ValueOrder.

Module ValueOrderTac := !MakeOrderTac ValueOrder ValueOrder.

Lemma num_ltb_lt a b : num_ltb a b = true ↔ ValueOrder.lt a b.
Proof. apply num_ltb_true. Qed.

Lemma num_ltb_ge a b : num_ltb a b = false ↔ ValueOrder.le b a.
Proof.
  rewrite <- not_true_iff_false, num_ltb_true.
  unfold ValueOrder.le, ValueOrder.lt, ValueOrder.eq. lia.
Qed.

Lemma value_eq_order a b :
  is_comparable a = true → is_comparable b = true →
  a = b ↔ ValueOrder.eq a b.
Proof. apply comparable_eq. Qed.

Lemma value_eq_order_1 (a b : value) : a = b → ValueOrder.eq a b.
Proof. by intros ->. Qed.

Lemma And_true p q : And p q = Bool true ↔ p = Bool true ∧ q = Bool true.
Proof. destruct p as [[]|], q as [[]|]; simpl; naive_solver. Qed.

Lemma lt_true a b :
  lt a b = Bool true
  ↔ is_comparable a = true ∧ is_comparable b = true ∧ num_ltb a b = true.
Proof.
  unfold lt, both_comparable.
  destruct (is_comparable a), (is_comparable b); simpl;
    (split; [intros [= ?] | intros (? & ? & ?)]; first [done | congruence]).
Qed.

Lemma le_true a b :
  le a b = Bool true
  ↔ is_comparable a = true ∧ is_comparable b = true ∧ num_leb a b = true.
Proof.
  unfold le, both_comparable.
  destruct (is_comparable a), (is_comparable b); simpl;
    (split; [intros [= ?] | intros (? & ? & ?)]; first [done | congruence]).
Qed.

Lemma Interval_contains_true i x :
  Interval_contains i x = Bool true ↔ inside i x.
Proof.
  unfold Interval_contains, inside, gt, ge.
  destruct (left_open i), (right_open i);
    rewrite And_true, ?lt_true, ?le_true; naive_solver.
Qed.

(** Turns the boolean facts on values into facts of the order and closes
    the goal by [order]. *)
Ltac num_hyps :=
  unfold num_leb in *;
  repeat match goal with
  | H : negb _ = true |- _ => apply negb_true_iff in H
  | H : negb _ = false |- _ => apply negb_false_iff in H
  | H : _ && _ = true |- _ => apply andb_true_iff in H as [? ?]
  | H : _ || _ = false |- _ => apply orb_false_iff in H as [? ?]
  | H : bool_decide _ = true |- _ => apply bool_decide_eq_true in H
  | H : bool_decide _ = false |- _ => apply bool_decide_eq_false in H
  | H : num_ltb _ _ = true |- _ => apply num_ltb_lt in H
  | H : num_ltb _ _ = false |- _ => apply num_ltb_ge in H
  | H : @eq value ?a ?b |- _ =>
      first [ subst a | subst b | apply value_eq_order_1 in H ]
  | H : ¬ @eq value ?a ?b |- _ =>
      rewrite (value_eq_order a b) in H by assumption
  end.

Ltac num_goal :=
  repeat match goal with
  | |- negb _ = true => apply negb_true_iff
  | |- negb _ = false => apply negb_false_iff
  | |- num_ltb _ _ = true => apply num_ltb_lt
  | |- num_ltb _ _ = false => apply num_ltb_ge
  | |- @eq value ?a ?b => apply (value_eq_order a b); [assumption..|]
  | |- ¬ @eq value ?a ?b =>
      rewrite (value_eq_order a b) by assumption
  end.

Ltac num_solve := num_hyps; num_goal; ValueOrderTac.order.

Lemma num_ltb_irrefl a : num_ltb a a = false.
Proof.
  unfold num_ltb. rewrite Z.ltb_irrefl, Z.ltb_irrefl, andb_false_r. done.
Qed.

Lemma Interval_new_not_real s e lo ro :
  is_real s = false ∨ is_real e = false →
  Interval_new s e lo ro = Err ValueError.
Proof. unfold Interval_new. intros [-> | ->]; by rewrite ?orb_true_r. Qed.

(** ** Membership in each class *)

Lemma mem_Interval i x : mem x (Interval i) ↔ inside i x.
Proof.
  rewrite <- Interval_contains_true. unfold mem, contains_op. simpl.
  destruct (Interval_contains i x) as [[]|]; naive_solver.
Qed.

Lemma mem_EmptySet x : ¬ mem x EmptySet.
Proof. unfold mem, contains_op. simpl. discriminate. Qed.

Lemma mem_AbstractSet x : ¬ mem x AbstractSet.
Proof. unfold mem, contains_op. simpl. discriminate. Qed.

Lemma mem_finite s X x : as_finite s = Some X → mem x s ↔ x ∈ X.
Proof.
  unfold mem, contains_op.
  destruct s; simpl; try discriminate; intros [= <-];
    case_bool_decide; naive_solver.
Qed.

Lemma mem_FiniteSet_new l x : mem x (FiniteSet_new l) ↔ x ∈ l.
Proof.
  unfold FiniteSet_new, SingletonSet_new.
  destruct l as [|a [|b l]].
  - split; [intros []%mem_EmptySet | intros []%elem_of_nil].
  - destruct (is_number a).
    + rewrite (mem_finite _ {[a]}) by done. set_solver.
    + rewrite (mem_finite _ (list_to_set [a])) by done. set_solver.
  - rewrite (mem_finite _ (list_to_set (a :: b :: l))) by done.
    by rewrite elem_of_list_to_set.
Qed.

Lemma mem_as_interval s o x :
  as_interval s = Some o → inside o x → mem x s.
Proof.
  destruct s; simpl; try discriminate; intros [= <-].
  - by rewrite mem_Interval.
  - intros (Hx & Hv & _ & H1 & H2). simpl in *.
    rewrite (mem_finite _ {[val]}) by done.
    apply elem_of_singleton. num_solve.
Qed.

(** ** What the Interval constructor returns *)

Lemma Interval_new_mem s e lo ro r x :
  Interval_new s e lo ro = Ok r → mem x r →
  (x = e ∧ e = s ∧ lo = false ∧ ro = false) ∨ inside (mkInterval s e lo ro) x.
Proof.
  unfold Interval_new, SingletonSet_new.
  destruct (negb (is_real s) || negb (is_real e)); [discriminate|].
  destruct (is_comparable e && is_comparable s && num_ltb e s);
    [intros [= <-]; by intros []%mem_EmptySet|].
  destruct (bool_decide (e = s) && (lo || ro)) eqn:H1;
    [intros [= <-]; by intros []%mem_EmptySet|].
  destruct (bool_decide (e = s) && negb (lo || ro)) eqn:H2; intros [= <-].
  - rewrite (mem_finite _ {[e]}) by done. rewrite elem_of_singleton.
    intros ->. left. num_hyps.
    destruct lo, ro; simpl in *; try discriminate. naive_solver.
  - rewrite mem_Interval. unfold inside. simpl. intros (? & ? & ? & Hl & Hr).
    right. repeat split; try done.
    + destruct (bool_decide (s = NegativeInfinity)) eqn:Hs; [|done].
      destruct lo; [done|]. clear -Hl. num_solve.
    + destruct (bool_decide (e = Infinity)) eqn:He; [|done].
      destruct ro; [done|]. clear -Hr. num_solve.
Qed.

(** ** Meet, merge and closure of intervals *)

Lemma Interval_is_comparable_true a b :
  Interval_is_comparable a b = true ↔
  is_comparable (start a) = true ∧ is_comparable (end_ a) = true
  ∧ is_comparable (start b) = true ∧ is_comparable (end_ b) = true.
Proof. unfold Interval_is_comparable. rewrite !andb_true_iff. tauto. Qed.

(** Splits the flags of the intervals at hand and settles each case in the
    order of the values. *)
Ltac flag_split :=
  unfold inside in *; simpl in *;
  repeat match goal with
  | H : _ ∧ _ |- _ => destruct H
  | H : @eq value ?a _ |- _ => is_var a; subst a
  | H : @eq bool ?a _ |- _ => is_var a; subst a
  end;
  repeat match goal with
  | H : context [if ?b then _ else _] |- _ => destruct b eqn:?; simpl in *
  | |- context [if ?b then _ else _] => destruct b eqn:?; simpl in *
  end;
  try discriminate.

Ltac inside_close :=
  repeat split; try assumption; try discriminate; num_solve.

Ltac inside_solve := flag_split; inside_close.

Lemma Interval_intersect_sound rec self other o r x :
  as_interval other = Some o →
  Interval_intersect rec self other = Ok r → mem x r →
  inside self x ∧ inside o x.
Proof.
  intros Ho. unfold Interval_intersect. rewrite Ho.
  destruct (Interval_is_comparable self o) eqn:Hc; simpl; [|discriminate].
  apply Interval_is_comparable_true in Hc as (? & ? & ? & ?).
  destruct (num_leb (start self) (end_ o) && num_leb (start o) (end_ self))
    eqn:Hov; [|intros [= <-]; by intros []%mem_EmptySet].
  unfold intersect_left, intersect_right.
  destruct (num_ltb (start self) (start o)) eqn:?;
    [|destruct (num_ltb (start o) (start self)) eqn:?];
    (destruct (num_ltb (end_ self) (end_ o)) eqn:?;
    [|destruct (num_ltb (end_ o) (end_ self)) eqn:?]);
    (match goal with
     | |- (if ?c then _ else _) = _ → _ =>
         destruct c eqn:Hz; [intros [= <-]; by intros []%mem_EmptySet|]
     end);
    intros Hnew Hmem;
    destruct (Interval_new_mem _ _ _ _ _ _ Hnew Hmem)
      as [(-> & ? & ? & ?)|Hin];
    clear Hnew Hmem Hz.
  all: inside_solve.
Qed.

Lemma merge_pair_sound c next m x :
  proper c → proper next →
  should_merge c next = true → merge_pair c next = Ok m → mem x m →
  inside c x ∨ inside next x.
Proof.
  unfold should_merge, merge_pair, merged_right, merged_left_open.
  intros Hpc Hpn.
  destruct (Interval_is_comparable c next) eqn:Hc; [|discriminate].
  apply Interval_is_comparable_true in Hc as (? & ? & ? & ?).
  specialize (Hpc ltac:(assumption) ltac:(assumption)).
  specialize (Hpn ltac:(assumption) ltac:(assumption)).
  intros Hm.
  destruct (num_ltb (end_ c) (end_ next)) eqn:?;
    [|destruct (num_ltb (end_ next) (end_ c)) eqn:?];
    intros Hnew Hmem;
    destruct (Interval_new_mem _ _ _ _ _ _ Hnew Hmem)
      as [(Hx & ? & ? & ?)|Hin];
    clear Hnew Hmem.
  all: destruct (num_ltb (start next) (end_ c)) eqn:?;
    [|destruct (bool_decide (start next = end_ c)) eqn:?; [|discriminate]].
  all: destruct (num_ltb x (end_ c)) eqn:?;
    destruct (num_ltb (end_ c) x) eqn:?;
    destruct (num_ltb (start c) x) eqn:?.
  all: flag_split; solve [left; inside_close | right; inside_close].
Qed.

Lemma close_boundaries_sound fs s r x :
  close_boundaries fs s = Ok r → mem x r → mem x s ∨ mem x fs.
Proof.
  unfold close_boundaries. intros H.
  apply bind_Ok in H as (i & Hi & H).
  apply bind_Ok in H as (cl & Hcl & H).
  apply bind_Ok in H as (cr & Hcr & H).
  unfold interval_attrs in Hi.
  destruct (as_interval s) as [i'|] eqn:Hs; [|discriminate].
  injection Hi as ->.
  destruct (cl && left_open i || cr && right_open i) eqn:Hcond;
    [|injection H as <-; auto].
  intros Hmem.
  assert (cl = true → mem (start i) fs) as Hcl'.
  { intros ->. destruct (left_open i); [done|discriminate]. }
  assert (cr = true → mem (end_ i) fs) as Hcr'.
  { intros ->. destruct (right_open i); [done|discriminate]. }
  assert (cl = true → left_open i = true) as Hcl''.
  { intros ->. destruct (left_open i); [done|discriminate]. }
  assert (cr = true → right_open i = true) as Hcr''.
  { intros ->. destruct (right_open i); [done|discriminate]. }
  clear Hcl Hcr Hcond.
  destruct (Interval_new_mem _ _ _ _ _ _ H Hmem) as [(Hx & He & Hl & Hr)|Hin].
  - right. subst x. apply Hcr'. by destruct cr.
  - clear H Hmem.
    destruct cl, cr; try specialize (Hcl'' eq_refl);
      try specialize (Hcr'' eq_refl); try specialize (Hcl' eq_refl);
      try specialize (Hcr' eq_refl).
    all: destruct (decide (x = start i)) as [Hx1|Hn1];
      destruct (decide (x = end_ i)) as [Hx2|Hn2].
    all: first
      [ right; rewrite Hx1; assumption
      | right; rewrite Hx2; assumption
      | left; apply (mem_as_interval _ _ _ Hs); inside_solve ].
Qed.

(** ** Sets without abstract components, and the leaves of an argument *)

Lemma proper_interval_spec i :
  proper_interval i = true ↔ proper i.
Proof.
  unfold proper_interval, proper.
  destruct (is_comparable (start i)), (is_comparable (end_ i)); simpl;
    naive_solver.
Qed.

Lemma contains_pure s x :
  is_pure s = true ↔ ∃ t, contains s x = Ok t.
Proof.
  induction s as [ | i | X | v | args IH | ] using SetV_ind; simpl;
    try (split; [eauto|done]).
  - induction IH as [|c args Hc _ IHargs]; simpl.
    + split; [eauto|done].
    + rewrite andb_true_iff, Hc, IHargs. split.
      * intros [[t Ht] [ts Hts]]. rewrite Ht. simpl.
        apply bind_Ok in Hts as (k & -> & _). simpl. eauto.
      * intros [t Ht]. apply bind_Ok in Ht as (k & Hk & _).
        apply bind_Ok in Hk as (t1 & Ht1 & Hk).
        apply bind_Ok in Hk as (k1 & Hk1 & _).
        split; [eauto|]. rewrite Hk1. simpl. eauto.
  - split; [done|]. by intros [? ?].
Qed.

Lemma Or_true ts : Or ts = Bool true ↔ Bool true ∈ ts.
Proof.
  induction ts as [|t ts IH]; simpl.
  - split; [done|]. by intros ?%elem_of_nil.
  - rewrite elem_of_cons, <- IH.
    destruct t as [[]|], (Or ts) as [[]|]; simpl; naive_solver.
Qed.

Lemma mem_contains s x : mem x s ↔ contains s x = Ok (Bool true).
Proof.
  unfold mem, contains_op. destruct (contains s x) as [[[]|]|]; simpl;
    naive_solver.
Qed.

Lemma mem_Union x args :
  mem x (Union args) ↔
  forallb is_pure args = true ∧ ∃ c, c ∈ args ∧ mem x c.
Proof.
  rewrite mem_contains. simpl. split.
  - intros H. apply bind_Ok in H as (ts & Hts & H).
    injection H as H. apply Or_true in H.
    apply mapM_Ok_Forall2 in Hts. split.
    + apply forallb_elem_of. intros c Hc.
      apply (contains_pure c x).
      destruct (Forall2_elem_of_l _ _ _ _ Hts Hc) as (t & _ & Ht); eauto.
    + destruct (Forall2_elem_of_r _ _ _ _ Hts H) as (c & Hc & Ht).
      exists c. split; [done|]. by apply mem_contains.
  - intros [Hpure (c & Hc & Hmem)].
    destruct (Forall2_total_l (λ c t, contains c x = Ok t) args) as [ts Hts].
    { intros c' Hc'. apply contains_pure.
      by eapply forallb_elem_of in Hpure. }
    pose proof Hts as Hm. apply mapM_Ok_Forall2 in Hm. rewrite Hm. simpl.
    f_equal. apply Or_true.
    destruct (Forall2_elem_of_l _ _ _ _ Hts Hc) as (t & Ht & Hct).
    apply mem_contains in Hmem. congruence.
Qed.

Lemma mem_pure x s : mem x s → is_pure s = true.
Proof. rewrite mem_contains. intros H. apply (contains_pure s x). eauto. Qed.

Lemma leaves_not_union s l :
  l ∈ leaves s → l ≠ EmptySet ∧ ∀ args, l ≠ Union args.
Proof.
  induction s as [ | i | X | v | args IH | ] using SetV_ind; simpl;
    try (intros ->%list_elem_of_singleton; done).
  - by intros ?%elem_of_nil.
  - intros (ls & Hl & Hls)%list_elem_of_join.
    apply list_elem_of_fmap in Hls as (c & -> & Hc).
    rewrite Forall_forall in IH. by apply (IH c).
Qed.

Lemma leaf_mem_up x s l :
  is_pure s = true → l ∈ leaves s → mem x l → mem x s.
Proof.
  induction s as [ | i | X | v | args IH | ] using SetV_ind; simpl;
    try (intros _ ->%list_elem_of_singleton; done).
  - by intros _ ?%elem_of_nil.
  - intros Hpure (ls & Hl & Hls)%list_elem_of_join Hmem.
    apply list_elem_of_fmap in Hls as (c & -> & Hc).
    apply mem_Union. split; [done|]. exists c. split; [done|].
    rewrite Forall_forall in IH. apply IH; try done.
    by eapply forallb_elem_of in Hpure.
Qed.

Lemma pure_leaves s :
  is_pure s = true ↔ AbstractSet ∉ leaves s.
Proof.
  induction s as [ | i | X | v | args IH | ] using SetV_ind; simpl;
    try (split; [intros _ ?%list_elem_of_singleton; done|done]).
  - split; [intros _ ?%elem_of_nil; done|done].
  - rewrite forallb_elem_of, Forall_forall in *. split.
    + intros Hp (ls & Hl & Hls)%list_elem_of_join.
      apply list_elem_of_fmap in Hls as (c & -> & Hc).
      destruct (IH c Hc) as [H1 _]. apply H1; [by apply Hp|done].
    + intros Hn c Hc. apply IH; [done|]. intros Hl. apply Hn.
      apply list_elem_of_join. exists (leaves c). split; [done|].
      apply list_elem_of_fmap. eauto.
  - split; [done|]. intros H. exfalso. apply H. by left.
Qed.

Lemma proper_leaves s l :
  proper_set s = true → l ∈ leaves s → proper_set l = true.
Proof.
  induction s as [ | i | X | v | args IH | ] using SetV_ind; simpl;
    try (intros ? ->%list_elem_of_singleton; done).
  - by intros _ ?%elem_of_nil.
  - intros Hp (ls & Hl & Hls)%list_elem_of_join.
    apply list_elem_of_fmap in Hls as (c & -> & Hc).
    rewrite Forall_forall in IH. apply (IH c); try done.
    by eapply forallb_elem_of in Hp.
Qed.

Lemma contains_Ok_indep s x y t :
  contains s x = Ok t → ∃ t', contains s y = Ok t'.
Proof.
  revert t. induction s as [ | i | X | v | args IH | ] using SetV_ind;
    intros t; simpl; eauto; try discriminate.
  intros H. inv_ok.
  enough (∃ k, mapM (λ the_set, contains the_set y) args = Ok k) as [k ->]
    by (simpl; eauto).
  revert a Ha. induction IH as [|c args Hc _ IHargs]; intros a; simpl.
  - eauto.
  - intros H. inv_ok.
    edestruct Hc as [t' ->]; [eassumption|].
    edestruct IHargs as [k ->]; [eassumption|].
    simpl. eauto.
Qed.

(** ** The first loop *)

Lemma classified_refl b : classified [] b b.
Proof.
  split; [|done]. intros s. simpl. rewrite elem_of_nil. tauto.
Qed.

Lemma classified_step q q' b b1 b' :
  classified q' b1 b' →
  (∀ s, s ∈ members b1 ∨ s ∈ mjoin (obj_leaves <$> q')
        ↔ s ∈ members b ∨ s ∈ mjoin (obj_leaves <$> q)) →
  (Forall is_finite_set (finite_sets b) →
   Forall is_finite_set (finite_sets b1)) →
  (Forall (λ s, s = AbstractSet) (other_sets b) →
   Forall (λ s, s = AbstractSet) (other_sets b1)) →
  classified q b b'.
Proof.
  intros (Hm & Hf & Ho) Hm1 Hf1 Ho1. split; [|split]; auto.
  intros s. by rewrite Hm, Hm1.
Qed.

Lemma classify_classified fuel q b b' :
  classify fuel q b = Ok b' → classified q b b'.
Proof.
  revert q b. induction fuel as [|fuel IH]; intros q b.
  - destruct q as [|arg rest]; simpl; [|discriminate].
    intros [= <-]. apply classified_refl.
  - destruct q as [|arg rest]; simpl.
    { intros [= <-]. apply classified_refl. }
    destruct arg as [[ | i | X | v | args | ]|items|]; try discriminate;
      intros H; apply IH in H; eapply classified_step; try exact H;
      simpl; try done.
    all: try (intros Hall; apply Forall_app; split; [done|];
              repeat constructor; by eexists).
    all: intros s; unfold members; simpl;
      repeat first
        [ rewrite fmap_app | rewrite join_app | rewrite elem_of_app
        | rewrite elem_of_cons | rewrite list_elem_of_singleton
        | rewrite elem_of_nil | rewrite <- list_fmap_compose
        | progress csimpl ];
      tauto.
Qed.

(** ** Sorting *)

Lemma insert_sorted_perm {A} (less : A → A → bool) x l :
  insert_sorted less x l ≡ₚ x :: l.
Proof.
  induction l as [|y l IH]; simpl; [done|].
  destruct (less x y); [done|]. rewrite IH. apply Permutation_swap.
Qed.

Lemma stable_sort_perm {A} (less : A → A → bool) l :
  stable_sort less l ≡ₚ l.
Proof.
  unfold stable_sort.
  enough (∀ acc, foldl (λ acc x, insert_sorted less x acc) acc l ≡ₚ acc ++ l)
    as H by apply (H []).
  induction l as [|x l IH]; intros acc; simpl.
  - by rewrite app_nil_r.
  - rewrite IH, insert_sorted_perm. simpl. apply Permutation_middle.
Qed.

(** ** The constructor returns proper intervals *)

Lemma comparable_real v : is_comparable v = true → is_real v = true.
Proof. by destruct v. Qed.

Lemma Interval_new_proper s e lo ro r :
  Interval_new s e lo ro = Ok r → proper_set r = true.
Proof.
  unfold Interval_new, SingletonSet_new.
  destruct (negb (is_real s) || negb (is_real e)); [discriminate|].
  destruct (is_comparable e && is_comparable s && num_ltb e s) eqn:H0;
    [by intros [= <-]|].
  destruct (bool_decide (e = s) && (lo || ro)) eqn:H1; [by intros [= <-]|].
  destruct (bool_decide (e = s) && negb (lo || ro)) eqn:H2;
    intros [= <-]; [done|].
  simpl. unfold proper_interval. simpl.
  destruct (is_comparable s) eqn:Hs, (is_comparable e) eqn:He; simpl;
    try done.
  simpl in H0.
  destruct (bool_decide (e = s)) eqn:Heq.
  - simpl in *. destruct (lo || ro); simpl in *; discriminate.
  - num_solve.
Qed.

Lemma Interval_new_Interval s e lo ro :
  is_comparable s = true → is_comparable e = true → num_ltb s e = true →
  ∃ j, Interval_new s e lo ro = Ok (Interval j) ∧ proper_interval j = true.
Proof.
  intros Hs He Hlt.
  destruct (Interval_new s e lo ro) as [r|err] eqn:Hnew.
  - pose proof (Interval_new_proper _ _ _ _ _ Hnew) as Hp.
    revert Hnew. unfold Interval_new, SingletonSet_new.
    rewrite (comparable_real _ Hs), (comparable_real _ He), Hs, He. simpl.
    destruct (num_ltb e s) eqn:H0; [num_solve|].
    assert (bool_decide (e = s) = false) as ->.
    { apply bool_decide_eq_false. intros ->. num_solve. }
    simpl. intros [= <-]. eauto.
  - revert Hnew. unfold Interval_new, SingletonSet_new.
    rewrite (comparable_real _ Hs), (comparable_real _ He), Hs, He. simpl.
    repeat case_match; discriminate.
Qed.

Lemma merge_pair_Interval c next :
  proper_interval c = true → proper_interval next = true →
  should_merge c next = true →
  ∃ j, merge_pair c next = Ok (Interval j) ∧ proper_interval j = true.
Proof.
  intros Hc Hn. unfold should_merge.
  destruct (Interval_is_comparable c next) eqn:Hcmp; [|discriminate].
  apply Interval_is_comparable_true in Hcmp as (? & ? & ? & ?).
  apply proper_interval_spec in Hc, Hn.
  specialize (Hc ltac:(assumption) ltac:(assumption)).
  specialize (Hn ltac:(assumption) ltac:(assumption)).
  intros _. unfold merge_pair, merged_right.
  destruct (num_ltb (end_ c) (end_ next)) eqn:?;
    [|destruct (num_ltb (end_ next) (end_ c)) eqn:?];
    apply Interval_new_Interval; try done; num_solve.
Qed.

(** ** The Union constructor adds no element *)

Lemma merge_from_sound cur c rest ivs x :
  cur = Interval c → proper_interval c = true →
  forallb proper_interval rest = true →
  merge_from cur rest = Ok ivs →
  forallb proper_set ivs = true
  ∧ ∀ s, s ∈ ivs → mem x s →
      mem x cur ∨ ∃ i, i ∈ rest ∧ mem x (Interval i).
Proof.
  revert cur c ivs. induction rest as [|next rest IH]; intros cur c ivs.
  - intros -> Hc _ [= <-]. split; [simpl; by rewrite Hc|].
    intros s ->%list_elem_of_singleton. auto.
  - intros -> Hc Hrest. simpl in Hrest.
    apply andb_true_iff in Hrest as [Hn Hrest]. simpl.
    destruct (should_merge c next) eqn:Hm.
    + destruct (merge_pair_Interval c next Hc Hn Hm) as (j & Hj & Hpj).
      rewrite Hj. simpl. intros H.
      destruct (IH _ _ _ eq_refl Hpj Hrest H) as [Hp Hs].
      split; [done|]. intros s Hin Hmem.
      destruct (Hs s Hin Hmem) as [Hmj|(i & Hi & Hmi)].
      * apply proper_interval_spec in Hc, Hn.
        destruct (merge_pair_sound c next _ x Hc Hn Hm Hj Hmj) as [H1|H1].
        -- left. by apply mem_Interval.
        -- right. exists next. split; [left|]. by apply mem_Interval.
      * right. exists i. split; [by right|done].
    + intros H. apply bind_Ok in H as (tl & Htl & [= <-]).
      destruct (IH _ _ _ eq_refl Hn Hrest Htl) as [Hp Hs].
      split; [simpl; by rewrite Hc|].
      intros s [->|Hin]%elem_of_cons Hmem; [by left|].
      destruct (Hs s Hin Hmem) as [Hmj|(i & Hi & Hmi)].
      * right. exists next. split; [left|done].
      * right. exists i. split; [by right|done].
Qed.

Lemma merge_intervals_sound l ivs x :
  forallb proper_interval l = true →
  merge_intervals l = Ok ivs →
  forallb proper_set ivs = true
  ∧ ∀ s, s ∈ ivs → mem x s → ∃ i, i ∈ l ∧ mem x (Interval i).
Proof.
  destruct l as [|i rest]; simpl.
  - intros _ [= <-]. split; [done|]. by intros s ?%elem_of_nil.
  - intros [Hi Hrest]%andb_true_iff H.
    destruct (merge_from_sound _ _ _ _ x eq_refl Hi Hrest H) as [Hp Hs].
    split; [done|]. intros s Hin Hmem.
    destruct (Hs s Hin Hmem) as [?|(j & ? & ?)].
    + exists i. split; [left|done].
    + exists j. split; [by right|done].
Qed.

Lemma FiniteSet_new_proper l : proper_set (FiniteSet_new l) = true.
Proof.
  unfold FiniteSet_new. destruct l as [|a [|b l]]; try done.
  by destruct (is_number a).
Qed.

Lemma sum_sets_sound add l acc fs x :
  (∀ a s r, proper_set a = true → s ∈ l → add a s = Ok r →
     proper_set r = true ∧ (mem x r → mem x a ∨ mem x s)) →
  proper_set acc = true →
  sum_sets add l acc = Ok fs →
  proper_set fs = true ∧ (mem x fs → mem x acc ∨ ∃ s, s ∈ l ∧ mem x s).
Proof.
  revert acc. induction l as [|s l IH]; intros acc Hadd Hacc; simpl.
  - intros [= <-]. auto.
  - intros H. apply bind_Ok in H as (acc' & Hacc' & H).
    destruct (Hadd acc s acc' Hacc ltac:(left) Hacc') as [Hp Hm].
    destruct (IH acc') as [Hp' Hm']; try done.
    { intros a s' r ? ? ?. apply Hadd; try done. by right. }
    split; [done|]. intros Hfs.
    destruct (Hm' Hfs) as [Ha|(s' & ? & ?)].
    + destruct (Hm Ha) as [?|?]; [by left|].
      right. exists s. split; [left|done].
    + right. exists s'. split; [by right|done].
Qed.

Lemma union_with_sound (U : list pyobj → result SetV) a s r x :
  (∀ args r, forallb proper_obj args = true → U args = Ok r →
     proper_set r = true ∧ (mem x r → ∃ o, o ∈ args ∧ obj_mem x o)) →
  proper_set a = true → proper_set s = true →
  union_with U a s = Ok r →
  proper_set r = true ∧ (mem x r → mem x a ∨ mem x s).
Proof.
  intros HU Ha Hs. unfold union_with.
  destruct (as_finite a) as [X|] eqn:HX.
  - destruct (as_finite s) as [Y|] eqn:HY.
    + intros [= <-]. split; [apply FiniteSet_new_proper|].
      rewrite mem_FiniteSet_new, elem_of_elements, elem_of_union.
      rewrite (mem_finite a X), (mem_finite s Y) by done. tauto.
    + intros H. apply HU in H as [Hp Hm]; [|simpl; by rewrite Ha, Hs].
      split; [done|]. intros Hr.
      destruct (Hm Hr) as (o & Ho & Hmo).
      apply elem_of_cons in Ho as [->|Ho]; [by left|].
      apply list_elem_of_singleton in Ho as ->. by right.
  - intros H. apply HU in H as [Hp Hm]; [|simpl; by rewrite Ha, Hs].
    split; [done|]. intros Hr.
    destruct (Hm Hr) as (o & Ho & Hmo).
    apply elem_of_cons in Ho as [->|Ho]; [by left|].
    apply list_elem_of_singleton in Ho as ->. by right.
Qed.

Lemma finite_proper s : is_finite_set s → proper_set s = true.
Proof. destruct s; simpl; try done; by intros [? ?]. Qed.

Lemma mapM_close_sound fs ivs ivs' x :
  forallb proper_set ivs = true →
  mapM (close_boundaries fs) ivs = Ok ivs' →
  forallb proper_set ivs' = true
  ∧ ∀ s, s ∈ ivs' → mem x s → (∃ s0, s0 ∈ ivs ∧ mem x s0) ∨ mem x fs.
Proof.
  intros Hp H. apply mapM_Ok_Forall2 in H.
  split.
  - apply forallb_elem_of. intros s Hs.
    destruct (Forall2_elem_of_r _ _ _ _ H Hs) as (s0 & Hs0 & Hc).
    unfold close_boundaries in Hc.
    apply bind_Ok in Hc as (i & Hi & Hc).
    apply bind_Ok in Hc as (cl & Hcl & Hc).
    apply bind_Ok in Hc as (cr & Hcr & Hc).
    destruct (cl && left_open i || cr && right_open i).
    + by eapply Interval_new_proper.
    + injection Hc as <-. by eapply forallb_elem_of in Hp.
  - intros s Hs Hmem.
    destruct (Forall2_elem_of_r _ _ _ _ H Hs) as (s0 & Hs0 & Hc).
    destruct (close_boundaries_sound _ _ _ _ Hc Hmem); eauto.
Qed.

Lemma absorb_finite_sound add ivs b r x :
  (∀ a s r, proper_set a = true → s ∈ finite_sets b → add a s = Ok r →
     proper_set r = true ∧ (mem x r → mem x a ∨ mem x s)) →
  forallb proper_set ivs = true →
  Forall is_finite_set (finite_sets b) →
  absorb_finite add ivs b = Ok r →
  forallb proper_set r.1 = true
  ∧ (∀ s, s ∈ other_sets b → s ∈ r.2)
  ∧ (∀ s, s ∈ r.2 → s ∈ other_sets b
       ∨ (proper_set s = true
          ∧ (mem x s → ∃ f, f ∈ finite_sets b ∧ mem x f)))
  ∧ (∀ s, s ∈ r.1 → mem x s →
       (∃ s0, s0 ∈ ivs ∧ mem x s0) ∨ ∃ f, f ∈ finite_sets b ∧ mem x f).
Proof.
  intros Hadd Hp Hfin. unfold absorb_finite.
  destruct (finite_sets b) as [|first more] eqn:Hfs.
  - intros [= <-]. simpl. repeat split; eauto.
  - intros H.
    apply bind_Ok in H as (fs & Hsum & H).
    apply bind_Ok in H as (ivs' & Hclose & H).
    apply bind_Ok in H as (els & Hels & H).
    apply bind_Ok in H as (kept & Hkept & H).
    apply bind_Ok in H as (n & Hn & [= <-]). simpl.
    apply Forall_cons in Hfin as [Hfirst Hmore].
    destruct (sum_sets_sound add more first fs x) as [Hpfs Hmfs]; try done.
    { intros a s r' ? ? ?. apply Hadd; try done. by right. }
    { by apply finite_proper. }
    assert (mem x fs → ∃ f, f ∈ first :: more ∧ mem x f) as Hfs'.
    { intros Hm. destruct (Hmfs Hm) as [?|(s & ? & ?)].
      - exists first. split; [left|done].
      - exists s. split; [by right|done]. }
    destruct (mapM_close_sound _ _ _ x Hp Hclose) as [Hp' Hm'].
    split; [done|]. split; [|split].
    + intros s Hs. destruct (0 <? n)%nat; [|done].
      apply elem_of_app. by left.
    + intros s Hs. destruct (0 <? n)%nat; [|by left].
      apply elem_of_app in Hs as [?|Hs]; [by left|].
      apply list_elem_of_singleton in Hs as ->.
      right. split; [apply FiniteSet_new_proper|].
      rewrite mem_FiniteSet_new. intros Hx.
      apply filterM_Ok in Hkept as [_ Hk]. apply Hk in Hx as [Hx _].
      apply Hfs'. unfold iter_elements in Hels.
      destruct (as_finite fs) as [X|] eqn:HX; [|discriminate].
      injection Hels as <-. apply elem_of_elements in Hx.
      by apply (mem_finite fs X).
    + intros s Hs Hmem. destruct (Hm' s Hs Hmem) as [?|?]; [by left|].
      right. by apply Hfs'.
Qed.

Lemma collapse_cases ivs others :
  (∃ s, collapse ivs others = s ∧ ivs ++ others = [s])
  ∨ collapse ivs others = Union (ivs ++ others).
Proof.
  destruct ivs as [|i [|j ivs]], others as [|o [|p others]]; simpl; eauto.
Qed.

Lemma collapse_mem x ivs others :
  mem x (collapse ivs others) → ∃ s, s ∈ ivs ++ others ∧ mem x s.
Proof.
  destruct (collapse_cases ivs others) as [(s & -> & ->)| ->].
  - intros H. exists s. split; [left|done].
  - by intros [_ H]%mem_Union.
Qed.

Lemma collapse_pure ivs others s :
  is_pure (collapse ivs others) = true → s ∈ ivs ++ others →
  is_pure s = true.
Proof.
  destruct (collapse_cases ivs others) as [(s' & -> & ->)| ->].
  - by intros H ->%list_elem_of_singleton.
  - simpl. intros H Hs. by eapply forallb_elem_of in H.
Qed.

Lemma collapse_proper ivs others :
  forallb proper_set (ivs ++ others) = true →
  proper_set (collapse ivs others) = true.
Proof.
  destruct (collapse_cases ivs others) as [(s' & -> & ->)| ->].
  - simpl. by rewrite andb_true_r.
  - done.
Qed.

Lemma obj_proper_leaves o l :
  proper_obj o = true → l ∈ obj_leaves o → proper_set l = true.
Proof.
  induction o as [s|items IH|] using pyobj_ind; simpl.
  - apply proper_leaves.
  - intros Hp (ls & Hl & Hls)%list_elem_of_join.
    apply list_elem_of_fmap in Hls as (c & -> & Hc).
    rewrite Forall_forall in IH. apply (IH c); try done.
    by eapply forallb_elem_of in Hp.
  - by intros _ ?%elem_of_nil.
Qed.

Section Union.
Variable sym_lt : value → value → bool.

Lemma Union_normalise_sound add b r x :
  (∀ a s r, proper_set a = true → s ∈ finite_sets b → add a s = Ok r →
     proper_set r = true ∧ (mem x r → mem x a ∨ mem x s)) →
  forallb proper_interval (intervals b) = true →
  Forall is_finite_set (finite_sets b) →
  Forall (λ s, s = AbstractSet) (other_sets b) →
  Union_normalise sym_lt add b = Ok r →
  proper_set r = true
  ∧ (is_pure r = true → other_sets b = [])
  ∧ (mem x r → ∃ s, s ∈ members b ∧ mem x s).
Proof.
  intros Hadd Hiv Hfin Hoth. unfold Union_normalise. intros H.
  apply bind_Ok in H as (ivs0 & Hmerge & H).
  apply bind_Ok in H as ([ivs others] & Habs & [= <-]). simpl.
  assert (∀ i, i ∈ sort_intervals sym_lt (intervals b) ↔ i ∈ intervals b)
    as Hsort.
  { intros i. unfold sort_intervals. by rewrite stable_sort_perm. }
  assert (forallb proper_interval (sort_intervals sym_lt (intervals b))
          = true) as Hps.
  { apply forallb_elem_of. intros i Hi%Hsort.
    by eapply forallb_elem_of in Hiv. }
  destruct (merge_intervals_sound _ _ x Hps Hmerge) as [Hp0 Hm0].
  destruct (absorb_finite_sound add ivs0 b _ x Hadd Hp0 Hfin Habs)
    as (Hp1 & Hsub & Hoth' & Hm1). simpl in *.
  split; [|split].
  - apply collapse_proper, forallb_elem_of.
    intros s [Hs|Hs]%elem_of_app.
    + by eapply forallb_elem_of in Hp1.
    + destruct (Hoth' s Hs) as [Ho|[? _]]; [|done].
      rewrite Forall_forall in Hoth. by rewrite (Hoth s Ho).
  - intros Hpure. destruct (other_sets b) as [|o os] eqn:Ho; [done|].
    apply Forall_cons in Hoth as [-> _].
    assert (is_pure AbstractSet = true) as Habs'; [|done].
    apply (collapse_pure ivs others); [done|].
    apply elem_of_app. right. apply Hsub. left.
  - intros Hmem. apply collapse_mem in Hmem as (s & Hs & Hmem).
    unfold members. apply elem_of_app in Hs as [Hs|Hs].
    + destruct (Hm1 s Hs Hmem) as [(s0 & Hs0 & Hmem0)|(f & Hf & Hmf)].
      * destruct (Hm0 s0 Hs0 Hmem0) as (i & Hi%Hsort & Hmi).
        exists (Interval i). split; [|done].
        apply elem_of_app. left. by apply list_elem_of_fmap_2.
      * exists f. split; [|done]. rewrite !elem_of_app. auto.
    + destruct (Hoth' s Hs) as [Ho|[_ Hf]].
      * exists s. split; [|done]. rewrite !elem_of_app. auto.
      * destruct (Hf Hmem) as (f & Hf' & Hmf).
        exists f. split; [|done]. rewrite !elem_of_app. auto.
Qed.

Lemma Union_build_cases add b :
  (Union_build sym_lt add b = Ok EmptySet ∧ other_sets b = [])
  ∨ Union_build sym_lt add b = Union_normalise sym_lt add b.
Proof.
  unfold Union_build.
  destruct (intervals b), (other_sets b), (finite_sets b); auto.
Qed.

Lemma Union_build_sound add b r x :
  (∀ a s r, proper_set a = true → s ∈ finite_sets b → add a s = Ok r →
     proper_set r = true ∧ (mem x r → mem x a ∨ mem x s)) →
  forallb proper_interval (intervals b) = true →
  Forall is_finite_set (finite_sets b) →
  Forall (λ s, s = AbstractSet) (other_sets b) →
  Union_build sym_lt add b = Ok r →
  proper_set r = true
  ∧ (is_pure r = true → other_sets b = [])
  ∧ (mem x r → ∃ s, s ∈ members b ∧ mem x s).
Proof.
  intros Hadd Hiv Hfin Hoth.
  destruct (Union_build_cases add b) as [[-> Ho]| ->].
  - intros [= <-]. split; [done|]. split; [done|].
    by intros []%mem_EmptySet.
  - by apply Union_normalise_sound.
Qed.

Lemma Union_fuel_sound n args r x :
  forallb proper_obj args = true →
  Union_fuel sym_lt n args = Ok r →
  proper_set r = true ∧ (mem x r → ∃ o, o ∈ args ∧ obj_mem x o).
Proof.
  revert args r. induction n as [|n IH]; intros args r Hargs;
    [discriminate|].
  change (Union_fuel sym_lt (S n) args) with
    (classify (S (queue_size args)) args (mkBuckets [] [] [])
     ≫= Union_build sym_lt (union_with (Union_fuel sym_lt n))).
  intros H. apply bind_Ok in H as (b & Hb & H).
  apply classify_classified in Hb as (Hmem & Hfin & Hoth).
  simpl in *. specialize (Hfin ltac:(constructor)).
  specialize (Hoth ltac:(constructor)).
  assert (∀ s, s ∈ members b →
            ∃ o, o ∈ args ∧ s ∈ obj_leaves o) as Hsrc.
  { intros s Hs. apply Hmem in Hs as [Hs|Hs].
    - unfold members in Hs. simpl in Hs. by apply elem_of_nil in Hs.
    - apply list_elem_of_join in Hs as (ls & Hl & Hls).
      apply list_elem_of_fmap in Hls as (o & -> & Ho). eauto. }
  assert (forallb proper_interval (intervals b) = true) as Hiv.
  { apply forallb_elem_of. intros i Hi.
    destruct (Hsrc (Interval i)) as (o & Ho & Hl).
    { unfold members. apply elem_of_app. left.
      by apply list_elem_of_fmap_2. }
    change (proper_set (Interval i) = true).
    eapply obj_proper_leaves; [|done].
    by eapply forallb_elem_of in Hargs. }
  assert (∀ a s r', proper_set a = true → s ∈ finite_sets b →
            union_with (Union_fuel sym_lt n) a s = Ok r' →
            proper_set r' = true ∧ (mem x r' → mem x a ∨ mem x s)) as Hadd.
  { intros a s r' Ha Hs Hu.
    eapply union_with_sound; [|exact Ha| |exact Hu].
    - intros args' r'' ? ?. by apply IH.
    - rewrite Forall_forall in Hfin. by apply finite_proper, Hfin. }
  destruct (Union_build_sound _ b r x Hadd Hiv Hfin Hoth H)
    as (Hp & Hpure & Hm).
  - split; [done|]. intros Hr.
    destruct (Hm Hr) as (s & Hs & Hms).
    destruct (Hsrc s Hs) as (o & Ho & Hl).
    exists o. split; [done|].
    destruct o as [t|items|]; simpl; [|eauto|eauto].
    apply (leaf_mem_up x t s); try done.
    apply pure_leaves. intros Habs.
    assert (AbstractSet ∈ members b) as Hin.
    { apply Hmem. right. apply list_elem_of_join.
      exists (obj_leaves (PSet t)). split; [done|].
      by apply list_elem_of_fmap_2. }
    unfold members in Hin.
    rewrite (Hpure (mem_pure _ _ Hr)), app_nil_r in Hin.
    apply elem_of_app in Hin as [Hin|Hin].
    + apply list_elem_of_fmap in Hin as (i & [=] & _).
    + rewrite Forall_forall in Hfin. by destruct (Hfin _ Hin).
Qed.

Lemma Union_new_sound args r x :
  forallb proper_obj args = true →
  Union_new sym_lt args = Ok r →
  proper_set r = true ∧ (mem x r → ∃ o, o ∈ args ∧ obj_mem x o).
Proof. apply Union_fuel_sound. Qed.

Lemma Union_new_sets_sound l r x :
  forallb proper_set l = true →
  Union_new sym_lt (PSet <$> l) = Ok r →
  proper_set r = true ∧ (mem x r → ∃ s, s ∈ l ∧ mem x s).
Proof.
  intros Hl H.
  assert (forallb proper_obj (PSet <$> l) = true) as Hl'.
  { apply forallb_elem_of. intros o (s & -> & Hs)%list_elem_of_fmap.
    simpl. by eapply forallb_elem_of in Hl. }
  destruct (Union_new_sound _ r x Hl' H) as [Hp Hm].
  split; [done|]. intros Hr. destruct (Hm Hr) as (o & Ho & Hmo).
  apply list_elem_of_fmap in Ho as (s & -> & Hs). eauto.
Qed.

End Union.

(** ** Intersection adds no element *)

Lemma Interval_intersect_proper rec self other o r :
  as_interval other = Some o →
  Interval_intersect rec self other = Ok r → proper_set r = true.
Proof.
  intros Ho. unfold Interval_intersect. rewrite Ho.
  destruct (negb (Interval_is_comparable self o)); [discriminate|].
  destruct (num_leb (start self) (end_ o) && num_leb (start o) (end_ self));
    [|by intros [= <-]].
  destruct (intersect_left self o) as [s lo].
  destruct (intersect_right self o) as [e ro].
  destruct (diff_is_zero e s && (lo || ro)); [by intros [= <-]|].
  apply Interval_new_proper.
Qed.

Lemma FiniteSet_intersect_sound X other r x :
  FiniteSet_intersect X other = Ok r →
  proper_set r = true ∧ (mem x r → x ∈ X ∧ mem x other).
Proof.
  unfold FiniteSet_intersect.
  destruct (as_finite other) as [Y|] eqn:HY.
  - intros [= <-]. split; [apply FiniteSet_new_proper|].
    rewrite mem_FiniteSet_new, elem_of_elements, elem_of_intersection.
    by rewrite (mem_finite other Y).
  - intros H. apply bind_Ok in H as (kept & Hkept & [= <-]).
    split; [apply FiniteSet_new_proper|].
    rewrite mem_FiniteSet_new. apply filterM_Ok in Hkept as [_ Hk].
    rewrite Hk, elem_of_elements. tauto.
Qed.

Section Intersect.
Variable sym_lt : value → value → bool.

Lemma intersect_fuel_S n a b :
  intersect_fuel sym_lt (S n) a b =
  match a with
  | EmptySet => Ok EmptySet
  | Interval i => Interval_intersect (intersect_fuel sym_lt n) i b
  | FiniteSet X => FiniteSet_intersect X b
  | SingletonSet v => FiniteSet_intersect {[ v ]} b
  | Union args => Union_intersect sym_lt (intersect_fuel sym_lt n) args b
  | AbstractSet => Err NotImplementedError
  end.
Proof. done. Qed.

(** A call with an interval as the other operand succeeds only on sets
    without abstract components. *)
Lemma intersect_fuel_pure_self n s o k :
  is_Some (as_interval o) →
  intersect_fuel sym_lt n s o = Ok k → is_pure s = true.
Proof.
  intros [i Hi]. revert s k. induction n as [|n IH]; intros s k;
    [discriminate|].
  rewrite intersect_fuel_S. destruct s as [ | j | X | v | args | ]; try done.
  unfold Union_intersect. rewrite Hi. intros H.
  apply bind_Ok in H as (ints & Hints & _).
  apply mapM_Ok_Forall2 in Hints. simpl.
  apply forallb_elem_of. intros c Hc.
  destruct (Forall2_elem_of_l _ _ _ _ Hints Hc) as (k' & _ & Hk').
  by eapply IH.
Qed.

(** A call on a Union succeeds only with an other operand without abstract
    components. *)
Lemma intersect_fuel_pure_other n args o k :
  intersect_fuel sym_lt n (Union args) o = Ok k → is_pure o = true.
Proof.
  revert o k. induction n as [|n IH]; intros o k; [discriminate|].
  rewrite intersect_fuel_S. unfold Union_intersect.
  destruct o as [ | j | Y | v | bs | ]; simpl; try done.
  - intros H. apply bind_Ok in H as (ints & Hints & _).
    apply mapM_Ok_Forall2 in Hints.
    apply forallb_elem_of. intros c Hc.
    destruct (Forall2_elem_of_l _ _ _ _ Hints Hc) as (k' & _ & Hk').
    by eapply IH.
  - destruct n; discriminate.
Qed.

Lemma intersect_fuel_sound n a b r x :
  intersect_fuel sym_lt n a b = Ok r →
  proper_set r = true ∧ (mem x r → mem x a ∧ mem x b).
Proof.
  revert a b r. induction n as [|n IH]; intros a b r; [discriminate|].
  rewrite intersect_fuel_S. destruct a as [ | i | X | v | args | ].
  - intros [= <-]. split; [done|]. by intros []%mem_EmptySet.
  - destruct (as_interval b) as [o|] eqn:Ho.
    + intros H. split; [by eapply Interval_intersect_proper|].
      intros Hr.
      destruct (Interval_intersect_sound _ _ _ _ _ x Ho H Hr) as [H1 H2].
      split; [by apply mem_Interval|by eapply mem_as_interval].
    + unfold Interval_intersect. rewrite Ho. intros H.
      apply IH in H as [Hp Hm]. split; [done|]. intros Hr.
      by destruct (Hm Hr).
  - intros H. apply (FiniteSet_intersect_sound _ _ _ x) in H as [Hp Hm].
    split; [done|]. intros Hr. destruct (Hm Hr).
    split; [|done]. by apply (mem_finite _ X).
  - intros H. apply (FiniteSet_intersect_sound _ _ _ x) in H as [Hp Hm].
    split; [done|]. intros Hr. destruct (Hm Hr).
    split; [|done]. by apply (mem_finite _ {[v]}).
  - unfold Union_intersect. destruct (as_interval b) as [o|] eqn:Ho.
    + intros H. apply bind_Ok in H as (ints & Hints & H).
      apply mapM_Ok_Forall2 in Hints.
      assert (forallb proper_set ints = true) as Hpi.
      { apply forallb_elem_of. intros k Hk.
        destruct (Forall2_elem_of_r _ _ _ _ Hints Hk) as (c & _ & Hc).
        by apply IH in Hc as [? _]. }
      destruct (Union_new_sets_sound _ _ _ x Hpi H) as [Hp Hm].
      split; [done|]. intros Hr. destruct (Hm Hr) as (k & Hk & Hmk).
      destruct (Forall2_elem_of_r _ _ _ _ Hints Hk) as (c & Hc & Hck).
      apply IH in Hck as [_ Hck]. destruct (Hck Hmk) as [Hmc Hmb].
      split; [|done]. apply mem_Union. split; [|eauto].
      apply forallb_elem_of. intros c' Hc'.
      destruct (Forall2_elem_of_l _ _ _ _ Hints Hc') as (k' & _ & Hk').
      eapply intersect_fuel_pure_self; [|exact Hk']. by rewrite Ho.
    + destruct b as [ | j | Y | w | bs | ]; try discriminate Ho.
      * intros H. apply IH in H as [Hp Hm]. split; [done|].
        intros Hr. by destruct (Hm Hr).
      * intros H.
        destruct (FiniteSet_intersect_sound _ _ _ x H) as [Hp Hm].
        split; [done|]. intros Hr. destruct (Hm Hr).
        split; [done|]. by apply (mem_finite _ Y).
      * intros H. apply bind_Ok in H as (ints & Hints & H).
        apply mapM_Ok_Forall2 in Hints.
        assert (forallb proper_set ints = true) as Hpi.
        { apply forallb_elem_of. intros k Hk.
          destruct (Forall2_elem_of_r _ _ _ _ Hints Hk) as (c & _ & Hc).
          by apply IH in Hc as [? _]. }
        destruct (Union_new_sets_sound _ _ _ x Hpi H) as [Hp Hm].
        split; [done|]. intros Hr. destruct (Hm Hr) as (k & Hk & Hmk).
        destruct (Forall2_elem_of_r _ _ _ _ Hints Hk) as (c & Hc & Hck).
        apply IH in Hck as [_ Hck]. destruct (Hck Hmk) as [Hma Hmc].
        split; [done|]. apply mem_Union. split; [|eauto].
        apply forallb_elem_of. intros c' Hc'.
        destruct (Forall2_elem_of_l _ _ _ _ Hints Hc') as (k' & _ & Hk').
        by eapply intersect_fuel_pure_other.
      * intros H. apply IH in H as [Hp Hm]. split; [done|].
        intros Hr. by destruct (Hm Hr).
  - discriminate.
Qed.

Lemma intersect_sound a b r x :
  intersect sym_lt a b = Ok r → mem x r → mem x a ∧ mem x b.
Proof.
  unfold intersect. intros H.
  by destruct (intersect_fuel_sound _ _ _ _ x H) as [_ Hm].
Qed.

(** ** Equality *)

Lemma set_eqb_contains a b x :
  set_eqb a b = true → contains a x = contains b x.
Proof.
  revert b. induction a as [ | i | X | v | args IH | ] using SetV_ind;
    intros b; destruct b as [ | j | Y | w | bs | ];
    cbn [set_eqb as_finite contains]; try done.
  - by intros ->%bool_decide_eq_true.
  - intros H%bool_decide_eq_true. apply (inj Some) in H. by rewrite H.
  - intros H%bool_decide_eq_true. apply (inj Some) in H. by rewrite H.
  - intros H%bool_decide_eq_true. apply (inj Some) in H. by rewrite H.
  - intros H%bool_decide_eq_true. apply (inj Some) in H. by rewrite H.
  - intros H.
    enough (mapM (λ the_set, contains the_set x) args
            = mapM (λ the_set, contains the_set x) bs) as -> by done.
    revert bs H. induction IH as [|c args Hc _ IHargs]; intros [|d bs];
      try done.
    intros [H1 H2]%andb_true_iff. simpl.
    by rewrite (Hc d H1), (IHargs bs H2).
Qed.

End Intersect.

(** ** Well-formed interval objects *)

Lemma wf_interval_spec i :
  wf_interval i ↔
  is_real (start i) = true ∧ is_real (end_ i) = true
  ∧ (is_comparable (end_ i) && is_comparable (start i)
     && num_ltb (end_ i) (start i)) = false
  ∧ end_ i ≠ start i
  ∧ (start i = NegativeInfinity → left_open i = true)
  ∧ (end_ i = Infinity → right_open i = true).
Proof.
  unfold wf_interval, Interval_new, SingletonSet_new.
  destruct i as [s e lo ro]; simpl.
  destruct (is_real s), (is_real e); simpl;
    try (split; [discriminate|naive_solver]).
  destruct (is_comparable e && is_comparable s && num_ltb e s);
    try (split; [discriminate|naive_solver]).
  destruct (decide (e = s)) as [->|Hne].
  - rewrite bool_decide_eq_true_2 by done. simpl.
    destruct (lo || ro); simpl; (split; [discriminate|naive_solver]).
  - rewrite bool_decide_eq_false_2 by done. simpl. split.
    + intros [= Hl Hr]. repeat split; try done.
      * intros ->. by rewrite bool_decide_eq_true_2 in Hl.
      * intros ->. by rewrite bool_decide_eq_true_2 in Hr.
    + intros (_ & _ & _ & _ & Hl & Hr).
      destruct (bool_decide (s = NegativeInfinity)) eqn:Hs;
        [apply bool_decide_eq_true in Hs; rewrite (Hl Hs)|];
        (destruct (bool_decide (e = Infinity)) eqn:He;
         [apply bool_decide_eq_true in He; rewrite (Hr He)|]); done.
Qed.

Lemma Interval_new_wf s e lo ro :
  wf_interval (mkInterval s e lo ro) →
  Interval_new s e lo ro = Ok (Interval (mkInterval s e lo ro)).
Proof. done. Qed.

Lemma wf_interval_proper i :
  wf_interval i → proper_interval i = true.
Proof.
  intros H. apply (Interval_new_proper _ _ _ _ _ H).
Qed.

Lemma should_merge_spec cur next :
  Interval_is_comparable cur next = true →
  should_merge cur next = true ↔ touching cur next.
Proof.
  intros Hc. unfold should_merge, touching. rewrite Hc.
  destruct (num_ltb (start next) (end_ cur)); [naive_solver|].
  destruct (decide (start next = end_ cur)) as [Heq|Hne].
  - rewrite bool_decide_eq_true_2 by done. rewrite negb_true_iff.
    naive_solver.
  - rewrite bool_decide_eq_false_2 by done. naive_solver.
Qed.

(** ** The closing loop *)

Lemma contains_op_finite s X x :
  as_finite s = Some X → contains_op s x = Ok (bool_decide (x ∈ X)).
Proof.
  unfold contains_op. destruct s; try discriminate;
    cbn [as_finite contains]; intros H; apply (inj Some) in H;
    by rewrite H.
Qed.

Lemma Interval_new_nondegenerate s e lo ro :
  is_real s = true → is_real e = true →
  is_comparable e && is_comparable s && num_ltb e s = false →
  e ≠ s →
  Interval_new s e lo ro
  = Ok (Interval (mkInterval s e
         (if bool_decide (s = NegativeInfinity) then true else lo)
         (if bool_decide (e = Infinity) then true else ro))).
Proof.
  intros Hs He Hlt Hne. unfold Interval_new.
  rewrite Hs, He, Hlt. simpl.
  by rewrite (bool_decide_eq_false_2 (e = s)).
Qed.

Lemma close_boundaries_one finite_set X i :
  as_finite finite_set = Some X → wf_interval i →
  ∃ j, close_boundaries finite_set (Interval i) = Ok (Interval j)
       ∧ closed_by X i j.
Proof.
  intros HX Hwf. unfold close_boundaries. simpl.
  rewrite !(contains_op_finite _ X _ HX).
  apply wf_interval_spec in Hwf as (H1 & H2 & H3 & H4 & H5 & H6).
  destruct i as [s e lo ro]. simpl in *.
  unfold closed_by. simpl.
  destruct lo, ro; simpl;
    destruct (bool_decide (s ∈ X)) eqn:Hs;
    destruct (bool_decide (e ∈ X)) eqn:He; simpl;
    rewrite ?Interval_new_nondegenerate by done;
    (eexists; split; [reflexivity|]); simpl.
  all: try apply bool_decide_eq_true in Hs;
    try apply bool_decide_eq_false in Hs;
    try apply bool_decide_eq_true in He;
    try apply bool_decide_eq_false in He.
  all: repeat case_bool_decide; naive_solver.
Qed.

(** ** No Union inside a Union *)

Lemma Interval_new_flat s e lo ro r :
  Interval_new s e lo ro = Ok r → is_Union r = false.
Proof.
  unfold Interval_new, SingletonSet_new.
  repeat match goal with
  | |- (if ?c then _ else _) = _ → _ => destruct c
  end; try discriminate; by intros [= <-].
Qed.

Lemma FiniteSet_new_flat l : is_Union (FiniteSet_new l) = false.
Proof.
  unfold FiniteSet_new, SingletonSet_new.
  destruct l as [|a [|b l]]; try done. by destruct (is_number a).
Qed.

Lemma merge_from_flat cur rest ivs :
  is_Union cur = false → merge_from cur rest = Ok ivs →
  ∀ s, s ∈ ivs → is_Union s = false.
Proof.
  revert cur ivs. induction rest as [|next rest IH]; intros cur ivs Hcur;
    simpl.
  - by intros [= <-] s ->%list_elem_of_singleton.
  - intros H. apply bind_Ok in H as (c & _ & H).
    destruct (should_merge c next).
    + apply bind_Ok in H as (m & Hm & H). apply (IH m); [|done].
      unfold merge_pair in Hm. destruct (merged_right c next).
      by eapply Interval_new_flat.
    + apply bind_Ok in H as (tl & Htl & [= <-]).
      intros s [->|Hs]%elem_of_cons; [done|].
      by apply (IH (Interval next) tl).
Qed.

Lemma merge_intervals_flat l ivs :
  merge_intervals l = Ok ivs → ∀ s, s ∈ ivs → is_Union s = false.
Proof.
  destruct l as [|i rest]; simpl.
  - by intros [= <-] s ?%elem_of_nil.
  - by apply merge_from_flat.
Qed.

Lemma close_boundaries_flat fs s r :
  close_boundaries fs s = Ok r → is_Union r = false.
Proof.
  unfold close_boundaries. intros H.
  apply bind_Ok in H as (i & Hi & H).
  apply bind_Ok in H as (cl & _ & H).
  apply bind_Ok in H as (cr & _ & H).
  destruct (cl && left_open i || cr && right_open i).
  - by eapply Interval_new_flat.
  - injection H as <-. unfold interval_attrs in Hi. by destruct s.
Qed.

Lemma absorb_finite_flat add ivs b r :
  (∀ s, s ∈ ivs → is_Union s = false) →
  Forall (λ s, s = AbstractSet) (other_sets b) →
  absorb_finite add ivs b = Ok r →
  ∀ s, s ∈ r.1 ++ r.2 → is_Union s = false.
Proof.
  intros Hivs Hoth. rewrite Forall_forall in Hoth. unfold absorb_finite.
  destruct (finite_sets b) as [|first more].
  - intros [= <-] s [Hs|Hs]%elem_of_app; [by apply Hivs|].
    by rewrite (Hoth s Hs).
  - intros H.
    apply bind_Ok in H as (fs & _ & H).
    apply bind_Ok in H as (ivs' & Hclose & H).
    apply bind_Ok in H as (els & _ & H).
    apply bind_Ok in H as (kept & _ & H).
    apply bind_Ok in H as (n & _ & [= <-]). simpl.
    apply mapM_Ok_Forall2 in Hclose.
    intros s [Hs|Hs]%elem_of_app.
    + destruct (Forall2_elem_of_r _ _ _ _ Hclose Hs) as (s0 & _ & Hc).
      by eapply close_boundaries_flat.
    + destruct (0 <? n)%nat; [|by rewrite (Hoth s Hs)].
      apply elem_of_app in Hs as [Hs|Hs]; [by rewrite (Hoth s Hs)|].
      apply list_elem_of_singleton in Hs as ->. apply FiniteSet_new_flat.
Qed.

Section Flat.
Variable sym_lt : value → value → bool.

(** X1.  No component of a Union that the constructor returns is a
    Union, however the arguments were nested. *)
Theorem Union_new_flat (args : list pyobj) (comps : list SetV) (c : SetV) :
  Union_new sym_lt args = Ok (Union comps) → c ∈ comps →
  is_Union c = false.
Proof.
  unfold Union_new.
  change (Union_fuel sym_lt 2 args) with
    (classify (S (queue_size args)) args (mkBuckets [] [] [])
     ≫= Union_build sym_lt (union_with (Union_fuel sym_lt 1))).
  intros H Hc. apply bind_Ok in H as (b & Hb & H).
  apply classify_classified in Hb as (_ & _ & Hoth).
  specialize (Hoth ltac:(constructor)).
  destruct (Union_build_cases sym_lt (union_with (Union_fuel sym_lt 1)) b)
    as [[Hr _]|Hr]; rewrite Hr in H; [discriminate|].
  unfold Union_normalise in H.
  apply bind_Ok in H as (ivs & Hivs & H).
  apply bind_Ok in H as (r & Hr' & [= H]).
  pose proof (absorb_finite_flat _ _ _ _
                (merge_intervals_flat _ _ Hivs) Hoth Hr') as Hflat.
  destruct (collapse_cases r.1 r.2) as [(s & Hs & Hone)|Hu].
  - rewrite Hs in H. subst s.
    assert (is_Union (Union comps) = false) as Habs; [|done].
    apply Hflat. rewrite Hone. left.
  - rewrite Hu in H. injection H as <-. by apply Hflat.
Qed.

End Flat.

(** ** The recursion bounds are never reached *)

Lemma safe_Ok {A} (a : A) : safe (Ok a).
Proof. discriminate. Qed.

Lemma safe_Err {A} (e : exn) : e ≠ OutOfFuel → safe (@Err A e).
Proof. intros He [= ->]. done. Qed.

Lemma bind_safe {A B} (m : result A) (f : A → result B) :
  safe m → (∀ a, m = Ok a → safe (f a)) → safe (m ≫= f).
Proof.
  destruct m as [a|e]; unfold mbind, result_bind.
  - intros _ H. by apply H.
  - intros H _ [= ->]. by apply H.
Qed.

Lemma mapM_safe {A B} (f : A → result B) l :
  (∀ x, x ∈ l → safe (f x)) → safe (mapM f l).
Proof.
  induction l as [|x l IH]; intros H; simpl; [apply safe_Ok|].
  apply bind_safe; [apply H; left|]. intros b _.
  apply bind_safe; [apply IH; intros; apply H; by right|].
  intros k _. apply safe_Ok.
Qed.

Lemma filterM_safe {A} (p : A → result bool) l :
  (∀ x, x ∈ l → safe (p x)) → safe (filterM p l).
Proof.
  induction l as [|x l IH]; intros H; simpl; [apply safe_Ok|].
  apply bind_safe; [apply H; left|]. intros b _.
  apply bind_safe; [apply IH; intros; apply H; by right|].
  intros k _. apply safe_Ok.
Qed.

Lemma contains_safe s x : safe (contains s x).
Proof.
  induction s as [ | i | X | v | args IH | ] using SetV_ind; simpl;
    try apply safe_Ok.
  - apply bind_safe; [|intros; apply safe_Ok].
    apply mapM_safe. intros c Hc. rewrite Forall_forall in IH. by apply IH.
  - by apply safe_Err.
Qed.

Lemma contains_op_safe s x : safe (contains_op s x).
Proof.
  unfold contains_op. apply bind_safe; [apply contains_safe|].
  intros [b|] _; [apply safe_Ok|by apply safe_Err].
Qed.

Lemma Interval_new_safe s e lo ro : safe (Interval_new s e lo ro).
Proof.
  unfold Interval_new, SingletonSet_new.
  repeat match goal with
  | |- safe (if ?c then _ else _) => destruct c
  end; first [apply safe_Ok | by apply safe_Err].
Qed.

Lemma interval_attrs_safe s : safe (interval_attrs s).
Proof.
  unfold interval_attrs. destruct (as_interval s);
    [apply safe_Ok|by apply safe_Err].
Qed.

(** *** The first loop *)

Lemma SetV_size_pos s : (0 < SetV_size s)%nat.
Proof. destruct s; simpl; lia. Qed.

Lemma pyobj_size_pos o : (0 < pyobj_size o)%nat.
Proof. destruct o; simpl; [apply SetV_size_pos|lia..]. Qed.

Lemma queue_size_app q1 q2 :
  queue_size (q1 ++ q2) = (queue_size q1 + queue_size q2)%nat.
Proof.
  unfold queue_size. induction q1 as [|o q1 IH]; simpl; [done|].
  rewrite IH. lia.
Qed.

Lemma queue_size_sets l :
  queue_size (PSet <$> l) = foldr (λ c n, (SetV_size c + n)%nat) 0%nat l.
Proof.
  unfold queue_size. induction l as [|c l IH]; simpl; [done|].
  by rewrite <- IH.
Qed.

Lemma classify_safe fuel q b :
  (queue_size q < fuel)%nat → safe (classify fuel q b).
Proof.
  revert q b. induction fuel as [|fuel IH]; intros q b Hq; [lia|].
  destruct q as [|arg rest]; [apply safe_Ok|].
  change (queue_size (arg :: rest))
    with (pyobj_size arg + queue_size rest)%nat in Hq.
  destruct arg as [[ | i | X | v | args | ]|items|]; simpl in Hq |- *;
    try (apply IH; lia).
  - apply IH. rewrite queue_size_app, queue_size_sets. lia.
  - apply IH. rewrite queue_size_app. unfold queue_size at 2. lia.
  - by apply safe_Err.
Qed.

(** *** The merge loop and the closing loop *)

Lemma merge_pair_safe c next : safe (merge_pair c next).
Proof.
  unfold merge_pair. destruct (merged_right c next).
  apply Interval_new_safe.
Qed.

Lemma merge_from_safe cur rest : safe (merge_from cur rest).
Proof.
  revert cur. induction rest as [|next rest IH]; intros cur; simpl;
    [apply safe_Ok|].
  apply bind_safe; [apply interval_attrs_safe|]. intros c _.
  destruct (should_merge c next).
  - apply bind_safe; [apply merge_pair_safe|]. intros m _. apply IH.
  - apply bind_safe; [apply IH|]. intros; apply safe_Ok.
Qed.

Lemma merge_intervals_safe l : safe (merge_intervals l).
Proof. destruct l; [apply safe_Ok|apply merge_from_safe]. Qed.

Lemma close_boundaries_safe fs s : safe (close_boundaries fs s).
Proof.
  unfold close_boundaries.
  apply bind_safe; [apply interval_attrs_safe|]. intros i _.
  apply bind_safe.
  { destruct (left_open i); [apply contains_op_safe|apply safe_Ok]. }
  intros cl _. apply bind_safe.
  { destruct (right_open i); [apply contains_op_safe|apply safe_Ok]. }
  intros cr _.
  destruct (cl && left_open i || cr && right_open i);
    [apply Interval_new_safe|apply safe_Ok].
Qed.

Lemma any_contains_safe el sets : safe (any_contains el sets).
Proof.
  induction sets as [|i rest IH]; simpl; [apply safe_Ok|].
  apply bind_safe; [apply contains_op_safe|].
  intros [] _; [apply safe_Ok|apply IH].
Qed.

Lemma not_covered_safe ivs el : safe (not_covered ivs el).
Proof.
  unfold not_covered. destruct (negb (is_number el)); [apply safe_Ok|].
  apply bind_safe; [apply any_contains_safe|]. intros; apply safe_Ok.
Qed.

Lemma iter_elements_safe s : safe (iter_elements s).
Proof.
  unfold iter_elements. destruct (as_finite s);
    [apply safe_Ok|by apply safe_Err].
Qed.

Lemma set_len_safe s : safe (set_len s).
Proof. destruct s; simpl; first [apply safe_Ok|by apply safe_Err]. Qed.

(** *** The sum of the finite sets *)

Lemma sum_sets_safe add (J : SetV → Prop) l acc :
  (∀ a s, J a → s ∈ l →
     safe (add a s) ∧ ∀ r, add a s = Ok r → J r) →
  J acc → safe (sum_sets add l acc).
Proof.
  revert acc. induction l as [|s l IH]; intros acc Hadd Hacc; simpl;
    [apply safe_Ok|].
  destruct (Hadd acc s Hacc ltac:(left)) as [Hs HJ].
  apply bind_safe; [done|]. intros acc' Hacc'.
  apply IH; [|by apply HJ].
  intros a s' Ha Hs'. apply Hadd; [done|by right].
Qed.

Lemma absorb_finite_safe add ivs b :
  (∀ first more, finite_sets b = first :: more →
     safe (sum_sets add more first)) →
  safe (absorb_finite add ivs b).
Proof.
  intros Hsum. unfold absorb_finite.
  destruct (finite_sets b) as [|first more]; [apply safe_Ok|].
  apply bind_safe; [by apply Hsum|]. intros fs _.
  apply bind_safe; [apply mapM_safe; intros; apply close_boundaries_safe|].
  intros ivs' _. apply bind_safe; [apply iter_elements_safe|].
  intros els _.
  apply bind_safe; [apply filterM_safe; intros; apply not_covered_safe|].
  intros kept _. apply bind_safe; [apply set_len_safe|].
  intros; apply safe_Ok.
Qed.

Section Total.
Variable sym_lt : value → value → bool.

Lemma Union_build_safe add b :
  (∀ first more, finite_sets b = first :: more →
     safe (sum_sets add more first)) →
  safe (Union_build sym_lt add b).
Proof.
  intros Hsum.
  destruct (Union_build_cases sym_lt add b) as [[-> _]| ->];
    [apply safe_Ok|].
  unfold Union_normalise.
  apply bind_safe; [apply merge_intervals_safe|]. intros ivs _.
  apply bind_safe; [by apply absorb_finite_safe|].
  intros; apply safe_Ok.
Qed.

Lemma FiniteSet_new_sum_value l : sum_value (FiniteSet_new l).
Proof.
  unfold FiniteSet_new, SingletonSet_new, sum_value, is_finite_set.
  destruct l as [|a [|b l]]; [by auto| |by left].
  destruct (is_number a); by left.
Qed.

Lemma filterM_not_covered_nil l : filterM (not_covered []) l = Ok l.
Proof.
  induction l as [|x l IH]; simpl; [done|].
  rewrite IH. unfold not_covered. by destruct (negb (is_number x)).
Qed.

Lemma set_len_FiniteSet_new l : ∃ n, set_len (FiniteSet_new l) = Ok n.
Proof.
  unfold FiniteSet_new, SingletonSet_new.
  destruct l as [|a [|b l]]; simpl; eauto.
  destruct (is_number a); simpl; eauto.
Qed.

(** The Union of nothing and one finite set. *)
Lemma Union_fuel_single n e s :
  e = EmptySet ∨ e = Union [] → is_finite_set s →
  ∃ r, Union_fuel sym_lt (S n) [PSet e; PSet s] = Ok r ∧ sum_value r.
Proof.
  intros He [X HX].
  destruct He as [-> | ->], s as [ | | Y | v | | ]; try discriminate HX.
  all: simpl; unfold Union_build, Union_normalise, absorb_finite; simpl.
  all: rewrite filterM_not_covered_nil; simpl.
  all: match goal with
       | |- context [set_len (FiniteSet_new ?l)] =>
           destruct (set_len_FiniteSet_new l) as [k ->];
           pose proof (FiniteSet_new_sum_value l)
       end; simpl.
  all: destruct (0 <? k)%nat; simpl; eexists; (split; [reflexivity|]).
  all: first [assumption | right; by right].
Qed.

Lemma union_with_sum_value n a s :
  sum_value a → is_finite_set s →
  safe (union_with (Union_fuel sym_lt (S n)) a s)
  ∧ ∀ r, union_with (Union_fuel sym_lt (S n)) a s = Ok r → sum_value r.
Proof.
  intros Ha Hs. unfold union_with.
  destruct Ha as [[X HX]|He].
  - destruct Hs as [Y HY]. rewrite HX, HY. split; [apply safe_Ok|].
    intros r [= <-]. apply FiniteSet_new_sum_value.
  - destruct (Union_fuel_single n a s He Hs) as (r & Hr & HJ).
    assert (as_finite a = None) as ->.
    { by destruct He as [-> | ->]. }
    rewrite Hr. split; [apply safe_Ok|]. by intros r' [= <-].
Qed.

Lemma Union_fuel_safe n args : safe (Union_fuel sym_lt (S (S n)) args).
Proof.
  change (Union_fuel sym_lt (S (S n)) args) with
    (classify (S (queue_size args)) args (mkBuckets [] [] [])
     ≫= Union_build sym_lt (union_with (Union_fuel sym_lt (S n)))).
  apply bind_safe; [apply classify_safe; lia|]. intros b Hb.
  apply classify_classified in Hb as (_ & Hfin & _).
  specialize (Hfin ltac:(constructor)).
  apply Union_build_safe. intros first more Hfs.
  rewrite Hfs in Hfin. apply Forall_cons in Hfin as [Hfirst Hmore].
  apply (sum_sets_safe _ sum_value); [|by left].
  intros a s Ha Hs. apply union_with_sum_value; [done|].
  rewrite Forall_forall in Hmore. by apply Hmore.
Qed.

Lemma Union_new_safe args : safe (Union_new sym_lt args).
Proof. apply Union_fuel_safe. Qed.

(** *** Intersection *)

Lemma SetV_size_elem c args :
  c ∈ args → (SetV_size c < SetV_size (Union args))%nat.
Proof.
  simpl. induction 1 as [c args|c d args _ IH]; simpl; lia.
Qed.

Lemma FiniteSet_intersect_safe X other : safe (FiniteSet_intersect X other).
Proof.
  unfold FiniteSet_intersect. destruct (as_finite other); [apply safe_Ok|].
  apply bind_safe; [apply filterM_safe; intros; apply contains_op_safe|].
  intros; apply safe_Ok.
Qed.

Lemma dispatch_weight_le s : (dispatch_weight s ≤ 2)%nat.
Proof. destruct s; simpl; lia. Qed.

Lemma intersect_fuel_safe n a b :
  (intersect_measure a b < n)%nat → safe (intersect_fuel sym_lt n a b).
Proof.
  revert a b. induction n as [|n IH]; intros a b Hn; [lia|].
  rewrite intersect_fuel_S. unfold intersect_measure in *.
  destruct a as [ | i | X | v | args | ].
  - apply safe_Ok.
  - unfold Interval_intersect. destruct (as_interval b) as [o|] eqn:Hb.
    + destruct (negb (Interval_is_comparable i o)); [by apply safe_Err|].
      destruct (num_leb (start i) (end_ o) && num_leb (start o) (end_ i));
        [|apply safe_Ok].
      destruct (intersect_left i o), (intersect_right i o).
      match goal with
      | |- safe (if ?c then _ else _) => destruct c
      end; [apply safe_Ok|apply Interval_new_safe].
    + apply IH. unfold intersect_measure.
      destruct b; try discriminate Hb; simpl in *; lia.
  - apply FiniteSet_intersect_safe.
  - apply FiniteSet_intersect_safe.
  - unfold Union_intersect. destruct (as_interval b) as [o|] eqn:Hb.
    + apply bind_safe; [|intros; apply Union_new_safe].
      apply mapM_safe. intros c Hc. apply IH. unfold intersect_measure.
      pose proof (SetV_size_elem c args Hc).
      pose proof (dispatch_weight_le c). simpl in *. lia.
    + destruct b as [ | j | Y | w | bs | ]; try discriminate Hb.
      * apply IH. unfold intersect_measure. simpl in *. lia.
      * apply FiniteSet_intersect_safe.
      * apply bind_safe; [|intros; apply Union_new_safe].
        apply mapM_safe. intros c Hc. apply IH. unfold intersect_measure.
        pose proof (SetV_size_elem c bs Hc). simpl in *. lia.
      * apply IH. unfold intersect_measure. simpl in *. lia.
  - by apply safe_Err.
Qed.

Lemma intersect_safe a b : safe (intersect sym_lt a b).
Proof. apply intersect_fuel_safe. lia. Qed.

(** *** Complement, difference and subset *)

Lemma Interval_complement_safe i : safe (Interval_complement sym_lt i).
Proof.
  unfold Interval_complement.
  apply bind_safe; [apply Interval_new_safe|]. intros a _.
  apply bind_safe; [apply Interval_new_safe|]. intros b _.
  apply Union_new_safe.
Qed.

Lemma FiniteSet_complement_safe els : safe (FiniteSet_complement sym_lt els).
Proof.
  unfold FiniteSet_complement.
  destruct (negb (forallb is_Number els)); [by apply safe_Err|].
  destruct (sort_values sym_lt els) as [|first others];
    [by apply safe_Err|].
  apply bind_safe; [apply Interval_new_safe|]. intros i0 _.
  apply bind_safe; [apply mapM_safe; intros; apply Interval_new_safe|].
  intros mids _.
  apply bind_safe; [apply Interval_new_safe|]. intros i1 _.
  apply Union_new_safe.
Qed.

Lemma complement_safe s : safe (complement sym_lt s).
Proof.
  induction s as [ | i | X | v | args IH | ] using SetV_ind; simpl.
  - apply Interval_new_safe.
  - apply Interval_complement_safe.
  - apply FiniteSet_complement_safe.
  - apply FiniteSet_complement_safe.
  - destruct IH as [|first rest Hfirst Hrest]; [by apply safe_Err|].
    apply bind_safe; [done|]. intros c _. revert c.
    induction Hrest as [|set rest Hset _ IHrest]; intros c;
      [apply safe_Ok|].
    apply bind_safe; [done|]. intros c' _.
    apply bind_safe; [apply intersect_safe|]. intros acc' _. apply IHrest.
  - by apply safe_Err.
Qed.

Lemma sub_safe a b : safe (sub sym_lt a b).
Proof.
  unfold sub. destruct (as_finite a).
  - apply bind_safe; [|intros; apply safe_Ok].
    apply filterM_safe. intros x _.
    apply bind_safe; [apply contains_op_safe|]. intros; apply safe_Ok.
  - apply bind_safe; [apply complement_safe|]. intros; apply intersect_safe.
Qed.

Lemma subset_safe a o : safe (subset sym_lt a o).
Proof.
  unfold subset. destruct o; try by apply safe_Err.
  apply bind_safe; [apply intersect_safe|]. intros; apply safe_Ok.
Qed.

(** The recursion bounds of the embedding are large enough: no operation
    stops for want of fuel. *)
Theorem operations_total (args : list pyobj) (a b : SetV) (o : pyobj) :
  Union_new sym_lt args ≠ Err OutOfFuel
  ∧ union sym_lt a b ≠ Err OutOfFuel
  ∧ intersect sym_lt a b ≠ Err OutOfFuel
  ∧ complement sym_lt a ≠ Err OutOfFuel
  ∧ sub sym_lt a b ≠ Err OutOfFuel
  ∧ subset sym_lt a o ≠ Err OutOfFuel.
Proof.
  repeat split.
  - apply Union_new_safe.
  - unfold union, union_with. repeat case_match;
      [apply safe_Ok|apply Union_new_safe..].
  - apply intersect_safe.
  - apply complement_safe.
  - apply sub_safe.
  - apply subset_safe.
Qed.

End Total.

(** ** The intervals that survive the merge loop *)

Lemma Interval_new_result_wf s e lo ro j :
  Interval_new s e lo ro = Ok (Interval j) → wf_interval j.
Proof.
  unfold Interval_new, SingletonSet_new.
  destruct (negb (is_real s) || negb (is_real e)) eqn:Hr; [discriminate|].
  destruct (is_comparable e && is_comparable s && num_ltb e s) eqn:Hc;
    [discriminate|].
  destruct (bool_decide (e = s) && (lo || ro)) eqn:H1; [discriminate|].
  destruct (bool_decide (e = s) && negb (lo || ro)) eqn:H2; [discriminate|].
  intros [= <-]. apply wf_interval_spec. simpl.
  apply orb_false_iff in Hr as [Hs He]. apply negb_false_iff in Hs, He.
  repeat split; try done.
  - intros ->. rewrite bool_decide_eq_true_2 in H1, H2 by done.
    simpl in *. destruct (lo || ro); discriminate.
  - intros ->. by rewrite bool_decide_eq_true_2.
  - intros ->. by rewrite bool_decide_eq_true_2.
Qed.

Lemma merge_from_wf cur rest :
  wf_interval cur → Forall wf_interval rest →
  ∃ js, merge_from (Interval cur) rest = Ok (Interval <$> js)
        ∧ Forall wf_interval js.
Proof.
  revert cur. induction rest as [|next rest IH]; intros cur Hc Hrest.
  - exists [cur]. split; [done|]. by constructor.
  - apply Forall_cons in Hrest as [Hn Hrest]. simpl.
    destruct (should_merge cur next) eqn:Hm.
    + destruct (merge_pair_Interval cur next) as (j & Hj & _);
        [by apply wf_interval_proper..|done|].
      rewrite Hj. simpl. apply IH; [|done].
      unfold merge_pair in Hj. destruct (merged_right cur next).
      by eapply Interval_new_result_wf.
    + destruct (IH next Hn Hrest) as (js & -> & Hjs). simpl.
      exists (cur :: js). split; [done|]. by constructor.
Qed.

Lemma merge_intervals_wf l :
  Forall wf_interval l →
  ∃ js, merge_intervals l = Ok (Interval <$> js) ∧ Forall wf_interval js.
Proof.
  destruct l as [|i rest]; simpl.
  - exists []. split; [done|]. constructor.
  - intros [Hi Hrest]%Forall_cons. by apply merge_from_wf.
Qed.

Lemma sort_intervals_wf sym_lt l :
  Forall wf_interval l → Forall wf_interval (sort_intervals sym_lt l).
Proof. intros H. unfold sort_intervals. by rewrite stable_sort_perm. Qed.

Lemma close_boundaries_list finite_set X ivs :
  as_finite finite_set = Some X → Forall wf_interval ivs →
  ∃ ivs', mapM (close_boundaries finite_set) (Interval <$> ivs)
          = Ok (Interval <$> ivs')
          ∧ Forall2 (closed_by X) ivs ivs'.
Proof.
  intros HX. induction 1 as [|i ivs Hi _ (ivs' & Hm & Hall)].
  - exists []. split; [done|constructor].
  - destruct (close_boundaries_one _ _ _ HX Hi) as (j & Hj & Hc).
    exists (j :: ivs'). split; [|by constructor].
    cbn [fmap list_fmap mapM]. rewrite Hj. simpl.
    change (list_fmap _ _ Interval ivs) with (Interval <$> ivs).
    by rewrite Hm.
Qed.

(** * The documented behaviour, property by property *)

(** ** Two runs of the [in] operator *)

Example contains_half_open :
  contains_op (Interval (mkInterval (Int 0) (Int 1) true false)) (Int 0)
  = Ok false.
Proof. reflexivity. Qed.

Example contains_symbolic :
  contains_op (Interval (mkInterval (Int 0) (Symbol "a" true) false false))
    (Int 1) = Err TypeError.
Proof. reflexivity. Qed.

(** ** C1: closing the boundaries found in the finite set *)

(** C1, amended.  In [Union.__new__], on the Interval objects [l] among
    the arguments and a combined finite set with elements [X]: the sort and
    the merge loop leave interval objects [ivs], the surviving intervals,
    and the closing loop turns each surviving interval [i] into an interval
    [j] with the same end points in which every open boundary of [i] that
    is finite and an element of [X] is closed, in which an infinite
    boundary is open, and in which, when both boundaries of [i] were open,
    a boundary that is not an element of [X] is still open. *)
Theorem Union_closes_boundaries (sym_lt : value → value → bool)
  (finite_set : SetV) (X : gset value) (l : list interval) :
  as_finite finite_set = Some X → Forall wf_interval l →
  ∃ ivs ivs',
    merge_intervals (sort_intervals sym_lt l) = Ok (Interval <$> ivs)
    ∧ mapM (close_boundaries finite_set) (Interval <$> ivs)
      = Ok (Interval <$> ivs')
    ∧ Forall2 (closed_by X) ivs ivs'.
Proof.
  intros HX Hl.
  destruct (merge_intervals_wf (sort_intervals sym_lt l)) as (ivs & Hm & Hwf);
    [by apply sort_intervals_wf|].
  destruct (close_boundaries_list finite_set X ivs HX Hwf) as (ivs' & Hc & H2).
  by exists ivs, ivs'.
Qed.

Lemma Union_closes_boundaries_witness :
  ∃ ivs ivs',
    merge_intervals
      (sort_intervals unordered [iv 1 5 true true; iv 0 1 true true])
    = Ok (Interval <$> ivs)
    ∧ mapM (close_boundaries (FiniteSet {[ Int 1; Int 5 ]}))
        (Interval <$> ivs)
      = Ok (Interval <$> ivs')
    ∧ Forall2 (closed_by {[ Int 1; Int 5 ]}) ivs ivs'.
Proof.
  apply (Union_closes_boundaries unordered (FiniteSet {[ Int 1; Int 5 ]})
           {[ Int 1; Int 5 ]}).
  - reflexivity.
  - constructor; [reflexivity|]. constructor; [reflexivity|]. constructor.
Defined.

(** The run of the witness: [(0, 1)] and [(1, 5)] with the finite set
    [{1, 5}] become [(0, 1]] and [[1, 5]]. *)
Example closing_run :
  merge_intervals
    (sort_intervals unordered [iv 1 5 true true; iv 0 1 true true])
  = Ok (Interval <$> [iv 0 1 true true; iv 1 5 true true])
  ∧ mapM (close_boundaries (FiniteSet {[ Int 1; Int 5 ]}))
      (Interval <$> [iv 0 1 true true; iv 1 5 true true])
    = Ok (Interval <$> [iv 0 1 true false; iv 1 5 false false]).
Proof. split; vm_compute; reflexivity. Qed.

(** C1, counterexample.  The left boundary of [(-oo, 0)] is open and [-oo]
    is an element of the finite set [{-oo, 5}], yet the loop gives back
    [(-oo, 0)] with its left boundary open, and so does
    [Union(Interval(-oo, 0), FiniteSet(-oo, 5))]: the Interval constructor
    keeps an infinite boundary open. *)
Lemma close_boundaries_infinite_counterexample :
  let i := mkInterval NegativeInfinity (Int 0) true true in
  let finite_set := FiniteSet {[ NegativeInfinity; Int 5 ]} in
  left_open i = true
  ∧ contains_op finite_set (start i) = Ok true
  ∧ close_boundaries finite_set (Interval i) = Ok (Interval i)
  ∧ Union_new unordered [PSet (Interval i); PSet finite_set]
    = Ok (Union [Interval i; finite_set]).
Proof. repeat split; vm_compute; reflexivity. Qed.

(** The loop rebuilds the interval with the flags [not closeLeft] and
    [not closeRight], so that closing one boundary opens the other one when
    it was closed: [[0, 1)] with the finite set [{1, 5}] becomes [(0, 1]].
    The statement of [closed_by] leaves this case out. *)
Lemma close_boundaries_opens_closed_side :
  close_boundaries (FiniteSet {[ Int 1; Int 5 ]})
    (Interval (iv 0 1 false true))
  = Ok (Interval (iv 0 1 true false))
  ∧ Union_new unordered
      [PSet (Interval (iv 0 1 false true));
       PSet (FiniteSet_new [Int 1; Int 5])]
    = Ok (Union [Interval (iv 0 1 true false); SingletonSet (Int 5)]).
Proof. repeat split; vm_compute; reflexivity. Qed.

(** ** C2: the merge step *)



(** ** C3: the FiniteSet constructor *)

(** The constructor returns no FiniteSet object without elements. *)
Lemma FiniteSet_new_nonempty (args : list value) (X : gset value) :
  FiniteSet_new args = FiniteSet X → X ≠ ∅.
Proof.
  unfold FiniteSet_new, SingletonSet_new.
  destruct args as [|a [|b args]]; [discriminate| |].
  - destruct (is_number a); [discriminate|]. intros [= <-]. set_solver.
  - intros [= <-]. set_solver.
Qed.

(** C3, failing input.  [FiniteSet(1, 1)] has two arguments, so that neither
    length test of the constructor applies, and the object it returns is a
    FiniteSet whose element collection is the single number 1, not a
    SingletonSet. *)
Lemma FiniteSet_new_duplicates :
  FiniteSet_new [Int 1; Int 1] = FiniteSet {[ Int 1 ]}
  ∧ FiniteSet_new [Int 1] = SingletonSet (Int 1)
  ∧ set_len (FiniteSet_new [Int 1; Int 1]) = Ok 1%nat.
Proof. repeat split; vm_compute; reflexivity. Qed.

(** ** C4: subset *)

(** C4, amended.  When [a.subset(b)] returns [True], every element of [b]
    is an element of [a]: [subset] tests that its argument is a subset of
    the receiver. *)
Theorem subset_sound (sym_lt : value → value → bool) (a b : SetV)
  (x : value) :
  subset sym_lt a (PSet b) = Ok true → mem x b → mem x a.
Proof.
  unfold subset. intros H Hb.
  apply bind_Ok in H as (r & Hr & [= Heq]).
  apply (intersect_sound sym_lt a b r x Hr).
  unfold mem, contains_op in *. by rewrite (set_eqb_contains r b x Heq).
Qed.

Lemma subset_sound_witness : mem (Int 1) (Interval (iv 0 2 false false)).
Proof.
  apply (subset_sound unordered (Interval (iv 0 2 false false))
           (Interval (iv 0 1 false false))).
  - vm_compute. reflexivity.
  - reflexivity.
Defined.

(** C4, counterexample.  [Interval(0, 2).subset(Interval(0, 1))] is [True]
    and 2 is in [Interval(0, 2)], but 2 is not in [Interval(0, 1)]. *)
Lemma subset_direction_counterexample :
  subset unordered (Interval (iv 0 2 false false))
    (PSet (Interval (iv 0 1 false false))) = Ok true
  ∧ contains_op (Interval (iv 0 2 false false)) (Int 2) = Ok true
  ∧ contains_op (Interval (iv 0 1 false false)) (Int 2) = Ok false.
Proof. repeat split; vm_compute; reflexivity. Qed.

(** ** C5: the difference *)

(** C5, amended.  For a left operand that is not a finite set, [a - b] is
    [a.intersect(b.complement)]: the same result or the same failure.  For
    a finite set on the left, [a - b] does not take the complement of [b]:
    when it returns, its elements are the elements [x] of [a] for which
    [x in b] is [False], and it fails exactly when [x in b] fails for some
    element [x] of [a]. *)
Theorem sub_dispatch (sym_lt : value → value → bool) (a b : SetV) :
  (as_finite a = None →
   sub sym_lt a b = complement sym_lt b ≫= intersect sym_lt a)
  ∧ (∀ X, as_finite a = Some X →
     (∀ r, sub sym_lt a b = Ok r →
        ∀ x, mem x r ↔ x ∈ X ∧ contains_op b x = Ok false)
     ∧ ((∃ e, sub sym_lt a b = Err e)
        ↔ ∃ x e, x ∈ X ∧ contains_op b x = Err e)).
Proof.
  unfold sub. split.
  - by intros ->.
  - intros X ->. split.
    + intros r H x. apply bind_Ok in H as (kept & Hk & [= <-]).
      rewrite mem_FiniteSet_new. apply filterM_Ok in Hk as [_ Hk].
      rewrite Hk, elem_of_elements.
      destruct (contains_op b x) as [[]|]; simpl; naive_solver.
    + split.
      * intros [e H]. apply bind_Err in H as [H|(k & _ & H)];
          [|discriminate].
        apply filterM_Err_inv in H as (x & Hx & Hp).
        apply elem_of_elements in Hx. exists x.
        destruct (contains_op b x) as [?|e'] eqn:Hc; [discriminate|].
        eauto.
      * intros (x & e & Hx & Hc).
        destruct (filterM_fails
          (λ el, contains_op b el ≫= λ r, Ok (negb r)) (elements X))
          as [e' He'].
        { exists x, e. split; [by apply elem_of_elements|].
          by rewrite Hc. }
        exists e'. by rewrite He'.
Qed.

Lemma sub_dispatch_witness :
  sub unordered (Interval (iv 0 2 false false)) (Interval (iv 0 1 false false))
  = complement unordered (Interval (iv 0 1 false false))
    ≫= intersect unordered (Interval (iv 0 2 false false))
  ∧ ∃ e, sub unordered (FiniteSet {[ Int 1; Int 2 ]}) AbstractSet = Err e.
Proof.
  destruct (sub_dispatch unordered (Interval (iv 0 2 false false))
              (Interval (iv 0 1 false false))) as [H1 _].
  destruct (sub_dispatch unordered (FiniteSet {[ Int 1; Int 2 ]})
              AbstractSet) as [_ H2].
  destruct (H2 {[ Int 1; Int 2 ]} eq_refl) as [_ [_ H3]].
  split; [exact (H1 eq_refl)|].
  apply H3. exists (Int 1), NotImplementedError. split; [|reflexivity].
  apply (bool_decide_unpack _). vm_compute. exact I.
Defined.

(** C5, counterexample.  [FiniteSet(1, 2) - FiniteSet(y, 2)], with [y] a
    symbol, is the set with the single element 1, while
    [FiniteSet(1, 2).intersect(FiniteSet(y, 2).complement)] fails: the
    complement of a finite set with a symbol in it raises. *)
Lemma sub_FiniteSet_counterexample :
  sub unordered (FiniteSet_new [Int 1; Int 2])
    (FiniteSet_new [Symbol "y" true; Int 2]) = Ok (SingletonSet (Int 1))
  ∧ (complement unordered (FiniteSet_new [Symbol "y" true; Int 2])
     ≫= intersect unordered (FiniteSet_new [Int 1; Int 2]))
    = Err NameError.
Proof. split; vm_compute; reflexivity. Qed.

(** ** C6: the complement of the complement *)

(** C6, failing input.  [Union(Interval(0, 1, True, True),
    Interval(1, 2, True, True), FiniteSet(1))] is the Union [s] of [(0, 1]]
    and [[1, 2)]: the boundaries are closed after the merge loop has run,
    and the two intervals, which now touch, stay apart.  The complement of
    the complement of [s] is the single interval [(0, 2)], which is not
    equal to [s]. *)
Lemma double_complement_unmerged :
  let s := Union [Interval (iv 0 1 true false);
                  Interval (iv 1 2 false true)] in
  Union_new unordered
    [PSet (Interval (iv 0 1 true true)); PSet (Interval (iv 1 2 true true));
     PSet (FiniteSet_new [Int 1])] = Ok s
  ∧ (complement unordered s ≫= complement unordered)
    = Ok (Interval (iv 0 2 true true))
  ∧ set_eqb (Interval (iv 0 2 true true)) s = false.
Proof. repeat split; vm_compute; reflexivity. Qed.

(** ** C7: degenerate intervals *)

(** C7, amended.  On real end points the Interval constructor returns
    EmptySet when both are comparable and [end < start], EmptySet when
    [end == start] and a side is open, and [SingletonSet(end)] when
    [end == start] and both sides are closed. *)
Theorem Interval_new_degenerate (s e : value) (lo ro : bool) :
  is_real s = true → is_real e = true →
  (is_comparable e = true → is_comparable s = true → num_ltb e s = true →
     Interval_new s e lo ro = Ok EmptySet)
  ∧ (e = s → lo || ro = true → Interval_new s e lo ro = Ok EmptySet)
  ∧ (e = s → lo || ro = false →
     Interval_new s e lo ro = Ok (SingletonSet e)).
Proof.
  intros Hs He. unfold Interval_new. rewrite Hs, He. simpl.
  split; [|split].
  - by intros -> -> ->.
  - intros -> ->. rewrite num_ltb_irrefl, andb_false_r.
    by rewrite bool_decide_eq_true_2.
  - intros -> ->. rewrite num_ltb_irrefl, andb_false_r.
    by rewrite bool_decide_eq_true_2.
Qed.

Lemma Interval_new_degenerate_witness :
  Interval_new (Int 2) (Int 1) false false = Ok EmptySet
  ∧ Interval_new (Int 1) (Int 1) true false = Ok EmptySet
  ∧ Interval_new (Int 1) (Int 1) false false = Ok (SingletonSet (Int 1)).
Proof.
  destruct (Interval_new_degenerate (Int 2) (Int 1) false false
              eq_refl eq_refl) as (H1 & _ & _).
  destruct (Interval_new_degenerate (Int 1) (Int 1) true false
              eq_refl eq_refl) as (_ & H2 & _).
  destruct (Interval_new_degenerate (Int 1) (Int 1) false false
              eq_refl eq_refl) as (_ & _ & H3).
  split; [apply H1; reflexivity|].
  split; [apply H2; reflexivity|apply H3; reflexivity].
Defined.

(** C7, counterexample.  With a symbol [z] that is not real, [Interval(z, z,
    True, False)] and [Interval(z, z)] raise ValueError: the test on the end
    points being real comes first. *)
Lemma Interval_new_not_real_counterexample :
  Interval_new (Symbol "z" false) (Symbol "z" false) true false
  = Err ValueError
  ∧ Interval_new (Symbol "z" false) (Symbol "z" false) false false
    = Err ValueError.
Proof. split; reflexivity. Qed.

(** ** C8: the complement of a finite set *)

(** On numbers only, the complement is the Union of the open intervals
    below the least element, between consecutive elements and above the
    greatest one. *)
Lemma FiniteSet_complement_numbers (sym_lt : value → value → bool)
  (els : list value) (first : value) (others : list value) :
  forallb is_Number els = true →
  sort_values sym_lt els = first :: others →
  FiniteSet_complement sym_lt els
  = (i0 ← Interval_new NegativeInfinity first true true;
     mids ← mapM (λ ab, Interval_new ab.1 ab.2 true true)
              (consecutive (first :: others));
     i1 ← Interval_new (List.last (first :: others) first) Infinity
            true true;
     Union_new sym_lt (PSet <$> i0 :: mids ++ [i1])).
Proof.
  intros Hnum Hsort. unfold FiniteSet_complement. by rewrite Hnum, Hsort.
Qed.

(** C8, failing input.  [FiniteSet(1, x).complement], with [x] a symbol,
    raises NameError: the name in the [raise] statement is misspelt and
    bound to nothing, and no NotImplementedError is raised. *)
Lemma complement_FiniteSet_symbol :
  complement unordered (FiniteSet_new [Int 1; Symbol "x" true])
  = Err NameError
  ∧ complement unordered (FiniteSet_new [Int 1; Int 2; Int 3])
    = Ok (Union [Interval (mkInterval NegativeInfinity (Int 1) true true);
                 Interval (iv 1 2 true true); Interval (iv 2 3 true true);
                 Interval (mkInterval (Int 3) Infinity true true)]).
Proof. split; vm_compute; reflexivity. Qed.

(** ** C9: the Union of a Union *)

(** C9, failing input.  With [a = Union(Interval(0, 1, True, True),
    Interval(1, 2, True, True))] and [b = FiniteSet(1)], [Union(a, b)] is
    the Union [u] of [(0, 1]] and [[1, 2)], and [Union(u)] is the single
    interval [(0, 2)], which is not equal to [u].  The other half of the
    property is [Union_new_flat]. *)
Lemma Union_not_idempotent :
  let a := Union [Interval (iv 0 1 true true);
                  Interval (iv 1 2 true true)] in
  let b := FiniteSet_new [Int 1] in
  let u := Union [Interval (iv 0 1 true false);
                  Interval (iv 1 2 false true)] in
  Union_new unordered
    [PSet (Interval (iv 0 1 true true)); PSet (Interval (iv 1 2 true true))]
  = Ok a
  ∧ Union_new unordered [PSet a; PSet b] = Ok u
  ∧ Union_new unordered [PSet u] = Ok (Interval (iv 0 2 true true))
  ∧ set_eqb (Interval (iv 0 2 true true)) u = false.
Proof. repeat split; vm_compute; reflexivity. Qed.

(** ** C10: a finite set met with another kind of set *)

(** C10.  For a finite set [f] and a set [s] that is not a finite set,
    [f.intersect(s)] is the FiniteSet of the elements of [f] that the [in]
    operator finds in [s]; when the containment of some element of [f] in
    [s] is an undecided expression, the intersection raises TypeError. *)
Theorem FiniteSet_intersect_undecided (sym_lt : value → value → bool)
  (f s : SetV) (X : gset value) :
  as_finite f = Some X → as_finite s = None →
  intersect sym_lt f s
  = (filterM (contains_op s) (elements X) ≫= λ kept, Ok (FiniteSet_new kept))
  ∧ ∀ el, el ∈ X → contains s el = Ok Symbolic →
      intersect sym_lt f s = Err TypeError.
Proof.
  intros Hf Hs.
  assert (intersect sym_lt f s
    = filterM (contains_op s) (elements X) ≫= λ kept, Ok (FiniteSet_new kept))
    as Heq.
  { unfold intersect. simpl.
    destruct f; try discriminate; simpl in Hf; injection Hf as <-;
      unfold FiniteSet_intersect; by rewrite Hs. }
  split; [done|]. intros el Hel Hsym. rewrite Heq.
  rewrite (filterM_Err _ _ TypeError); [done| |].
  - intros x _. destruct (contains_Ok_indep s el x _ Hsym) as [t' Ht'].
    unfold contains_op. rewrite Ht'. destruct t'; simpl; eauto.
  - exists el. split; [by apply elem_of_elements|].
    unfold contains_op. by rewrite Hsym.
Qed.

Lemma FiniteSet_intersect_undecided_witness :
  intersect unordered (FiniteSet {[ Int 1; Int 2 ]})
    (Interval (mkInterval (Int 0) (Symbol "a" true) false false))
  = Err TypeError.
Proof.
  destruct (FiniteSet_intersect_undecided unordered
              (FiniteSet {[ Int 1; Int 2 ]})
              (Interval (mkInterval (Int 0) (Symbol "a" true) false false))
              {[ Int 1; Int 2 ]} eq_refl eq_refl) as [_ H].
  apply (H (Int 1)).
  - apply (bool_decide_unpack _). vm_compute. exact I.
  - reflexivity.
Defined.

(** * Further properties of the operations *)

(** ** The meet of two intervals *)

Lemma Interval_is_comparable_sym a b :
  Interval_is_comparable a b = Interval_is_comparable b a.
Proof.
  unfold Interval_is_comparable.
  destruct (is_comparable (start a)), (is_comparable (end_ a)),
    (is_comparable (start b)), (is_comparable (end_ b)); reflexivity.
Qed.

Lemma intersect_left_comm a b :
  is_comparable (start a) = true → is_comparable (start b) = true →
  intersect_left a b = intersect_left b a.
Proof.
  intros Ha Hb. unfold intersect_left.
  destruct (num_ltb (start a) (start b)) eqn:H1,
    (num_ltb (start b) (start a)) eqn:H2; try reflexivity.
  - exfalso. num_solve.
  - assert (start a = start b) as -> by num_solve.
    by rewrite orb_comm.
Qed.

Lemma intersect_right_comm a b :
  is_comparable (end_ a) = true → is_comparable (end_ b) = true →
  intersect_right a b = intersect_right b a.
Proof.
  intros Ha Hb. unfold intersect_right.
  destruct (num_ltb (end_ a) (end_ b)) eqn:H1,
    (num_ltb (end_ b) (end_ a)) eqn:H2; try reflexivity.
  - exfalso. num_solve.
  - assert (end_ a = end_ b) as -> by num_solve.
    by rewrite orb_comm.
Qed.

Lemma Interval_intersect_comm rec rec' a b :
  Interval_intersect rec a (Interval b)
  = Interval_intersect rec' b (Interval a).
Proof.
  unfold Interval_intersect. cbn [as_interval].
  rewrite (Interval_is_comparable_sym b a).
  destruct (Interval_is_comparable a b) eqn:Hc; [|done]. simpl.
  apply Interval_is_comparable_true in Hc as (? & ? & ? & ?).
  rewrite (andb_comm (num_leb (start b) (end_ a))).
  rewrite (intersect_left_comm b a), (intersect_right_comm b a) by done.
  done.
Qed.

Lemma Interval_new_Ok s e lo ro :
  is_real s = true → is_real e = true → ∃ r, Interval_new s e lo ro = Ok r.
Proof.
  intros Hs He. unfold Interval_new. rewrite Hs, He. simpl.
  repeat match goal with
  | |- ∃ r, (if ?c then _ else _) = _ => destruct c
  end; eauto.
Qed.

Lemma Interval_new_complete s e lo ro r x :
  (s = NegativeInfinity → lo = true) → (e = Infinity → ro = true) →
  Interval_new s e lo ro = Ok r →
  inside (mkInterval s e lo ro) x → mem x r.
Proof.
  intros Hl Hr Hnew Hin. revert Hnew. unfold Interval_new, SingletonSet_new.
  destruct Hin as (Hx & Hs & He & H1 & H2). simpl in *.
  rewrite (comparable_real _ Hs), (comparable_real _ He), Hs, He. simpl.
  destruct (num_ltb e s) eqn:Hlt.
  { exfalso. destruct lo, ro; num_solve. }
  destruct (bool_decide (e = s)) eqn:Heq; simpl.
  - apply bool_decide_eq_true in Heq. subst e.
    destruct lo, ro; simpl; try (exfalso; num_solve).
    intros [= <-]. rewrite (mem_finite _ {[s]}) by done.
    apply elem_of_singleton. num_solve.
  - intros [= <-]. apply mem_Interval. repeat split; try done; simpl.
    + destruct (bool_decide (s = NegativeInfinity)) eqn:Hd; [|done].
      apply bool_decide_eq_true in Hd. by rewrite Hl in *.
    + destruct (bool_decide (e = Infinity)) eqn:Hd; [|done].
      apply bool_decide_eq_true in Hd. by rewrite Hr in *.
Qed.

Lemma diff_is_zero_eq e s : diff_is_zero e s = true → e = s.
Proof.
  destruct e, s; simpl; try discriminate;
    intros H%bool_decide_eq_true; congruence.
Qed.

Lemma Interval_intersect_complete rec a b r x :
  wf_interval a → wf_interval b →
  Interval_intersect rec a (Interval b) = Ok r →
  inside a x → inside b x → mem x r.
Proof.
  intros Ha Hb. unfold Interval_intersect. cbn [as_interval].
  apply wf_interval_spec in Ha as (_ & _ & _ & _ & Ha1 & Ha2).
  apply wf_interval_spec in Hb as (_ & _ & _ & _ & Hb1 & Hb2).
  destruct (Interval_is_comparable a b) eqn:Hc; simpl; [|discriminate].
  apply Interval_is_comparable_true in Hc as (? & ? & ? & ?).
  intros Hr Hia Hib. revert Hr.
  destruct (num_leb (start a) (end_ b) && num_leb (start b) (end_ a))
    eqn:Hov.
  2:{ exfalso. apply andb_false_iff in Hov.
      destruct Hia as (? & _ & _ & Hl1 & Hr1).
      destruct Hib as (_ & _ & _ & Hl2 & Hr2).
      destruct (left_open a), (right_open a), (left_open b), (right_open b),
        Hov; num_solve. }
  unfold intersect_left, intersect_right.
  destruct (num_ltb (start a) (start b)) eqn:?;
    [|destruct (num_ltb (start b) (start a)) eqn:?];
    (destruct (num_ltb (end_ a) (end_ b)) eqn:?;
    [|destruct (num_ltb (end_ b) (end_ a)) eqn:?]);
    (match goal with
     | |- (if ?c then _ else _) = _ → _ =>
         destruct c eqn:Hz;
           [exfalso; apply andb_true_iff in Hz as [Hz ?];
            apply diff_is_zero_eq in Hz
           |intros Hnew; eapply Interval_new_complete; [| |exact Hnew|]]
     end).
  all: try (intros Hinf; rewrite ?Ha1, ?Hb1, ?Ha2, ?Hb2 by done; done).
  all: clear Ha1 Ha2 Hb1 Hb2 Hov.
  all: inside_solve.
Qed.

(** ** Finite sets *)

Lemma filterM_false {A} (p : A → result bool) l :
  (∀ x, x ∈ l → p x = Ok false) → filterM p l = Ok [].
Proof.
  induction l as [|x l IH]; intros H; simpl; [done|].
  rewrite (H x) by left. simpl. rewrite IH; [done|].
  intros y Hy. apply H. by right.
Qed.

Lemma intersect_finite_left sym_lt f s X :
  as_finite f = Some X →
  intersect sym_lt f s = FiniteSet_intersect X s.
Proof.
  intros HX. unfold intersect. simpl.
  destruct f; try discriminate; simpl in HX; apply (inj Some) in HX;
    by rewrite HX.
Qed.

Lemma set_eqb_refl a : set_eqb a a = true.
Proof.
  induction a as [ | i | X | v | args IH | ] using SetV_ind;
    cbn [set_eqb as_finite]; try done; try by apply bool_decide_eq_true.
  induction IH as [|c args Hc _ IHargs]; [done|]. by rewrite Hc, IHargs.
Qed.

Lemma set_eqb_sym a b : set_eqb a b = set_eqb b a.
Proof.
  revert b. induction a as [ | i | X | v | args IH | ] using SetV_ind;
    intros b; destruct b as [ | j | Y | w | bs | ];
    cbn [set_eqb as_finite]; try done;
    try (apply bool_decide_ext; split; congruence).
  revert bs. induction IH as [|c args Hc _ IHargs]; intros [|d bs];
    try done.
  by rewrite Hc, IHargs.
Qed.

Lemma set_eqb_trans a b c :
  set_eqb a b = true → set_eqb b c = true → set_eqb a c = true.
Proof.
  revert b c. induction a as [ | i | X | v | args IH | ] using SetV_ind;
    intros b c; destruct b as [ | j | Y | w | bs | ];
    destruct c as [ | k | Z | u | cs | ];
    cbn [set_eqb as_finite]; try done;
    try (intros H1%bool_decide_eq_true H2%bool_decide_eq_true;
         apply bool_decide_eq_true; congruence).
  revert bs cs. induction IH as [|d args Hd _ IHargs];
    intros [|e bs] [|f cs]; try done.
  intros [H1 H2]%andb_true_iff [H3 H4]%andb_true_iff.
  by rewrite (Hd e f H1 H3), (IHargs bs cs H2 H4).
Qed.

(** ** Sorting concrete intervals *)

Lemma key_lt_concrete sym_lt a b :
  is_comparable a = true → is_comparable b = true →
  key_lt sym_lt a b = num_ltb a b.
Proof.
  intros Ha Hb. unfold key_lt, lt, both_comparable. by rewrite Ha, Hb.
Qed.

Lemma insert_sorted_ascending sym_lt x l :
  is_comparable (start x) = true →
  Forall (λ i, is_comparable (start i) = true) l →
  ascending l →
  ascending (insert_sorted (λ i j, key_lt sym_lt (start i) (start j)) x l).
Proof.
  intros Hx. induction l as [|y l IH]; intros Hl Hasc; simpl.
  - split; [constructor|done].
  - apply Forall_cons in Hl as [Hy Hl]. destruct Hasc as [Hb Hasc].
    rewrite key_lt_concrete by done.
    destruct (num_ltb (start x) (start y)) eqn:Hlt.
    + split; [|by split]. constructor; [num_solve|].
      unfold below in *. eapply Forall_impl; [exact Hb|].
      intros z Hz. simpl in Hz. num_solve.
    + split; [|by apply IH]. unfold below in *.
      rewrite insert_sorted_perm. by constructor.
Qed.

Lemma sort_intervals_ascending sym_lt l :
  Forall (λ i, is_comparable (start i) = true) l →
  ascending (sort_intervals sym_lt l).
Proof.
  unfold sort_intervals, stable_sort.
  enough (∀ acc,
    Forall (λ i, is_comparable (start i) = true) acc → ascending acc →
    Forall (λ i, is_comparable (start i) = true) l →
    ascending (foldl (λ acc x,
      insert_sorted (λ i j, key_lt sym_lt (start i) (start j)) x acc) acc l))
    as H by (intros; by apply H).
  induction l as [|x l IH]; intros acc Hacc Hasc Hl; simpl; [done|].
  apply Forall_cons in Hl as [Hx Hl]. apply IH; [| |done].
  - rewrite insert_sorted_perm. by constructor.
  - by apply insert_sorted_ascending.
Qed.

(** ** The merge loop loses no element *)

Lemma Interval_new_fields s e lo ro j :
  Interval_new s e lo ro = Ok (Interval j) → start j = s ∧ end_ j = e.
Proof.
  unfold Interval_new, SingletonSet_new.
  repeat match goal with
  | |- (if ?c then _ else _) = _ → _ => destruct c
  end; try discriminate. by intros [= <-].
Qed.

Lemma merge_pair_complete c next m x :
  wf_interval c → wf_interval next →
  should_merge c next = true →
  num_ltb (start next) (start c) = false →
  merge_pair c next = Ok m →
  inside c x ∨ inside next x → mem x m.
Proof.
  intros Hc Hn.
  apply wf_interval_spec in Hc as (_ & _ & Hc3 & Hc4 & Hc5 & Hc6).
  apply wf_interval_spec in Hn as (_ & _ & Hn3 & Hn4 & Hn5 & Hn6).
  unfold should_merge, merge_pair, merged_right, merged_left_open.
  destruct (Interval_is_comparable c next) eqn:Hcmp; [|discriminate].
  apply Interval_is_comparable_true in Hcmp as (? & ? & ? & ?).
  rewrite H, H0 in Hc3. rewrite H1, H2 in Hn3. simpl in Hc3, Hn3.
  intros _ Hord.
  destruct (num_ltb (end_ c) (end_ next)) eqn:?;
    [|destruct (num_ltb (end_ next) (end_ c)) eqn:?];
    intros Hnew Hin; eapply Interval_new_complete; try exact Hnew.
  all: try (intros Hinf; case_bool_decide;
            rewrite ?Hc5, ?Hn5 by congruence; done).
  all: try (intros Hinf; first [by apply Hn6 | by apply Hc6]).
  all: try (intros Hinf; rewrite Hc6 by done; rewrite Hn6; [done|];
            rewrite <- Hinf; symmetry; num_solve).
  all: clear Hc5 Hc6 Hn5 Hn6.
  all: destruct Hin as [Hin|Hin];
    destruct Hin as (Hx & _ & _ & Hl & Hr);
    (split; [done|]); (split; [done|]); simpl;
    (split; [by first [assumption | idtac]|]).
  all: case_bool_decide as Heq; simpl;
    destruct (left_open c), (left_open next), (right_open c),
      (right_open next); simpl in *; split; num_solve.
Qed.

Lemma merge_from_complete cur rest ivs x :
  wf_interval cur → Forall wf_interval rest →
  below cur rest → ascending rest →
  merge_from (Interval cur) rest = Ok ivs →
  inside cur x ∨ (∃ i, i ∈ rest ∧ inside i x) →
  ∃ s, s ∈ ivs ∧ mem x s.
Proof.
  revert cur ivs. induction rest as [|next rest IH];
    intros cur ivs Hc Hrest Hbelow Hasc.
  - intros [= <-] [Hin|(i & Hi & _)]; [|by apply elem_of_nil in Hi].
    exists (Interval cur). split; [left|by apply mem_Interval].
  - apply Forall_cons in Hrest as [Hn Hrest].
    apply Forall_cons in Hbelow as [Hcn Hbelow].
    destruct Hasc as [Hnb Hasc]. simpl.
    destruct (should_merge cur next) eqn:Hm.
    + destruct (merge_pair_Interval cur next) as (j & Hj & _);
        [by apply wf_interval_proper..|done|].
      rewrite Hj. simpl. intros Hivs Hin.
      assert (wf_interval j) as Hwj.
      { unfold merge_pair in Hj. destruct (merged_right cur next).
        by eapply Interval_new_result_wf. }
      assert (start j = start cur) as Hsj.
      { unfold merge_pair in Hj. destruct (merged_right cur next).
        by apply Interval_new_fields in Hj as [? _]. }
      apply (IH j ivs Hwj Hrest); [|done|done|].
      * unfold below. by rewrite Hsj.
      * destruct Hin as [Hin|(i & [->|Hi]%elem_of_cons & Hin)].
        -- left. apply mem_Interval.
           apply (merge_pair_complete cur next); auto.
        -- left. apply mem_Interval.
           apply (merge_pair_complete cur next); auto.
        -- right. eauto.
    + intros H. apply bind_Ok in H as (tl & Htl & [= <-]).
      intros [Hin|(i & [->|Hi]%elem_of_cons & Hin)].
      * exists (Interval cur). split; [left|by apply mem_Interval].
      * destruct (IH next tl Hn Hrest Hnb Hasc Htl) as (s & Hs & Hmem);
          [by left|]. exists s. split; [by right|done].
      * destruct (IH next tl Hn Hrest Hnb Hasc Htl) as (s & Hs & Hmem);
          [right; eauto|]. exists s. split; [by right|done].
Qed.

Lemma merge_intervals_complete l ivs x :
  Forall wf_interval l → ascending l →
  merge_intervals l = Ok ivs →
  (∃ i, i ∈ l ∧ inside i x) → ∃ s, s ∈ ivs ∧ mem x s.
Proof.
  destruct l as [|cur rest]; simpl.
  - intros _ _ _ (i & Hi & _). by apply elem_of_nil in Hi.
  - intros [Hc Hrest]%Forall_cons [Hb Hasc] Hm
      (i & [->|Hi]%elem_of_cons & Hin);
      eapply merge_from_complete; eauto.
Qed.

(** ** The first loop on sets that are no Unions *)

Lemma interval_args_elem i l :
  i ∈ interval_args l ↔ Interval i ∈ l.
Proof.
  unfold interval_args. rewrite list_elem_of_omap. split.
  - intros (s & Hs & Hi). destruct s; try discriminate.
    by injection Hi as ->.
  - intros H. by exists (Interval i).
Qed.

Lemma classify_interval_args fuel l b :
  (queue_size (PSet <$> l) < fuel)%nat →
  Forall interval_arg l →
  classify fuel (PSet <$> l) b
  = Ok (mkBuckets (intervals b ++ interval_args l) (finite_sets b)
          (other_sets b)).
Proof.
  revert fuel b. induction l as [|s l IH]; intros fuel b Hf Hl.
  - destruct fuel, b; simpl; by rewrite app_nil_r.
  - apply Forall_cons in Hl as [Hs Hl].
    destruct fuel as [|fuel]; [lia|].
    assert (queue_size (PSet <$> l) < fuel)%nat as Hf'.
    { pose proof (SetV_size_pos s).
      change (queue_size (PSet <$> s :: l))
        with (SetV_size s + queue_size (PSet <$> l))%nat in Hf. lia. }
    destruct Hs as [->|(i & -> & _)]; cbn [fmap list_fmap classify].
    + by apply IH.
    + change (list_fmap _ _ PSet l) with (PSet <$> l).
      rewrite IH by done. simpl. by rewrite <- app_assoc.
Qed.

(** ** The Union of concrete intervals *)

Lemma interval_arg_wf l :
  Forall interval_arg l →
  Forall wf_interval (interval_args l)
  ∧ Forall (λ i, is_comparable (start i) = true) (interval_args l).
Proof.
  intros Hl. rewrite Forall_forall in Hl. split;
    apply Forall_forall; intros i Hi%interval_args_elem;
    destruct (Hl _ Hi) as [?|(j & [= <-] & Hw & Hc)]; try done.
  by apply andb_true_iff in Hc as [? _].
Qed.

Lemma mem_interval_list x (js : list interval) :
  mem x (collapse (Interval <$> js) [])
  ↔ ∃ j, j ∈ js ∧ inside j x.
Proof.
  split.
  - intros (s & Hs & Hm)%collapse_mem. rewrite app_nil_r in Hs.
    apply list_elem_of_fmap in Hs as (j & -> & Hj).
    exists j. split; [done|]. by apply mem_Interval.
  - intros (j & Hj & Hin).
    destruct (collapse_cases (Interval <$> js) []) as [(s & -> & Hone)| ->].
    + rewrite app_nil_r in Hone.
      assert (Interval j ∈ Interval <$> js) as Hel
        by by apply list_elem_of_fmap_2.
      rewrite Hone in Hel. apply list_elem_of_singleton in Hel as <-.
      by apply mem_Interval.
    + apply mem_Union. split.
      * apply forallb_elem_of. rewrite app_nil_r.
        by intros s (k & -> & _)%list_elem_of_fmap.
      * exists (Interval j). rewrite app_nil_r.
        split; [by apply list_elem_of_fmap_2|by apply mem_Interval].
Qed.

Lemma Union_new_interval_args sym_lt l :
  Forall interval_arg l →
  ∃ r, Union_new sym_lt (PSet <$> l) = Ok r
       ∧ ∀ x, mem x r ↔ ∃ s, s ∈ l ∧ mem x s.
Proof.
  intros Hl. unfold Union_new.
  change (Union_fuel sym_lt 2 (PSet <$> l)) with
    (classify (S (queue_size (PSet <$> l))) (PSet <$> l) (mkBuckets [] [] [])
     ≫= Union_build sym_lt (union_with (Union_fuel sym_lt 1))).
  rewrite classify_interval_args by (done || lia).
  destruct (interval_arg_wf l Hl) as [Hwf Hcmp].
  assert (∀ x, (∃ s, s ∈ l ∧ mem x s)
               ↔ ∃ i, i ∈ interval_args l ∧ inside i x) as Hargs.
  { intros x. split.
    - intros (s & Hs & Hm). rewrite Forall_forall in Hl.
      destruct (Hl _ Hs) as [->|(i & -> & _)];
        [by apply mem_EmptySet in Hm|].
      exists i. split; [by apply interval_args_elem|by apply mem_Interval].
    - intros (i & Hi%interval_args_elem & Hin).
      exists (Interval i). split; [done|by apply mem_Interval]. }
  simpl. unfold Union_build. cbn [intervals other_sets finite_sets].
  destruct (interval_args l) as [|i0 others] eqn:His.
  - exists EmptySet. split; [done|]. intros x. rewrite Hargs. split.
    + by intros []%mem_EmptySet.
    + by intros (i & ?%elem_of_nil & _).
  - rewrite <- His in *. clear His i0 others.
    assert (Forall wf_interval (sort_intervals sym_lt (interval_args l)))
      as Hswf by by apply sort_intervals_wf.
    destruct (merge_intervals_wf _ Hswf) as (js & Hm & Hjs).
    exists (collapse (Interval <$> js) []). split.
    + unfold Union_normalise. cbn [intervals]. rewrite Hm. done.
    + intros x. rewrite mem_interval_list, Hargs. split.
      * intros (j & Hj & Hin).
        destruct (merge_intervals_sound
                    (sort_intervals sym_lt (interval_args l))
                    (Interval <$> js) x) as [_ Hs]; [|exact Hm|].
        { apply forallb_elem_of. intros k Hk.
          rewrite Forall_forall in Hswf. by apply wf_interval_proper, Hswf. }
        destruct (Hs (Interval j)) as (k & Hk & Hkm);
          [by apply list_elem_of_fmap_2|by apply mem_Interval|].
        exists k. split; [|by apply mem_Interval].
        unfold sort_intervals in Hk. by rewrite stable_sort_perm in Hk.
      * intros (i & Hi & Hin).
        destruct (merge_intervals_complete _ _ x Hswf
                    (sort_intervals_ascending sym_lt _ Hcmp) Hm)
          as (s & Hs & Hmem).
        { exists i. split; [|done].
          unfold sort_intervals. by rewrite stable_sort_perm. }
        apply list_elem_of_fmap in Hs as (j & -> & Hj).
        exists j. split; [done|]. by apply mem_Interval.
Qed.

(** ** The complement of a concrete interval *)

Lemma num_ltb_Infinity v : num_ltb Infinity v = false.
Proof. by destruct v. Qed.

Lemma num_ltb_NegativeInfinity v : num_ltb v NegativeInfinity = false.
Proof. by destruct v. Qed.

Lemma Interval_new_interval_arg s e lo ro r :
  is_comparable s = true → is_comparable e = true → lo || ro = true →
  Interval_new s e lo ro = Ok r → interval_arg r.
Proof.
  intros Hs He Hf Hnew.
  destruct r as [ | j | X | v | args | ].
  - by left.
  - right. exists j. split; [done|].
    split; [by eapply Interval_new_result_wf|].
    unfold concrete. apply Interval_new_fields in Hnew as [-> ->].
    by rewrite Hs, He.
  - revert Hnew. unfold Interval_new, SingletonSet_new.
    repeat case_match; discriminate.
  - revert Hnew. unfold Interval_new, SingletonSet_new. rewrite Hf.
    repeat case_match; try discriminate.
    all: by rewrite andb_false_r in *.
  - by apply Interval_new_flat in Hnew.
  - revert Hnew. unfold Interval_new, SingletonSet_new.
    repeat case_match; discriminate.
Qed.

Lemma Interval_new_open_mem s e lo ro r x :
  lo || ro = true →
  (s = NegativeInfinity → lo = true) → (e = Infinity → ro = true) →
  Interval_new s e lo ro = Ok r →
  mem x r ↔ inside (mkInterval s e lo ro) x.
Proof.
  intros Hf Hl Hr Hnew. split.
  - intros Hm.
    destruct (Interval_new_mem _ _ _ _ _ _ Hnew Hm) as [(_ & _ & -> & ->)|];
      [discriminate|done].
  - by apply Interval_new_complete.
Qed.

(** ** The empty set among the arguments of a Union *)

Lemma classify_fuel f f' q b :
  (queue_size q < f)%nat → (queue_size q < f')%nat →
  classify f q b = classify f' q b.
Proof.
  revert f' q b. induction f as [|f IH]; intros f' q b Hf Hf'; [lia|].
  destruct f' as [|f']; [lia|].
  destruct q as [|arg rest]; [done|].
  change (queue_size (arg :: rest))
    with (pyobj_size arg + queue_size rest)%nat in Hf, Hf'.
  destruct arg as [[ | i | X | v | args | ]|items|]; simpl in Hf, Hf' |- *;
    try (apply IH; lia); try done.
  - apply IH; rewrite queue_size_app, queue_size_sets; lia.
  - apply IH; rewrite queue_size_app; unfold queue_size at 2; lia.
Qed.

Lemma classify_skip f q1 q2 b :
  (queue_size (q1 ++ PSet EmptySet :: q2) < f)%nat →
  classify f (q1 ++ PSet EmptySet :: q2) b = classify f (q1 ++ q2) b.
Proof.
  revert q1 q2 b. induction f as [|f IH]; intros q1 q2 b Hf; [lia|].
  rewrite queue_size_app in Hf.
  change (queue_size (PSet EmptySet :: q2))
    with (1 + queue_size q2)%nat in Hf.
  destruct q1 as [|arg q1].
  - cbn [app]. change (classify f q2 b = classify (S f) q2 b).
    simpl in Hf. apply classify_fuel; lia.
  - change (queue_size (arg :: q1))
      with (pyobj_size arg + queue_size q1)%nat in Hf.
    assert (∀ q, queue_size (q1 ++ PSet EmptySet :: q)
                 = (queue_size q1 + (1 + queue_size q))%nat) as Hq.
    { intros q. by rewrite queue_size_app. }
    destruct arg as [[ | i | X | v | args | ]|items|];
      cbn [app classify]; simpl in Hf;
      try (apply IH; rewrite Hq; lia); try done.
    + rewrite <- !app_assoc. cbn [app]. apply IH.
      rewrite Hq, queue_size_app, queue_size_sets. lia.
    + rewrite <- !app_assoc. cbn [app]. apply IH.
      rewrite Hq, queue_size_app. unfold queue_size at 3. lia.
Qed.

Lemma Union_new_skip sym_lt l1 l2 :
  Union_new sym_lt (l1 ++ PSet EmptySet :: l2) = Union_new sym_lt (l1 ++ l2).
Proof.
  unfold Union_new.
  change (Union_fuel sym_lt 2 ?args) with
    (classify (S (queue_size args)) args (mkBuckets [] [] [])
     ≫= Union_build sym_lt (union_with (Union_fuel sym_lt 1))).
  rewrite classify_skip by lia. f_equal.
  apply classify_fuel; rewrite !queue_size_app; simpl; lia.
Qed.

(** ** Intersection with the empty set *)

Lemma intersect_EmptySet_r sym_lt a :
  a ≠ AbstractSet → intersect sym_lt a EmptySet = Ok EmptySet.
Proof.
  intros Ha. destruct a as [ | i | X | v | args | ]; try done.
  - unfold intersect. simpl. unfold FiniteSet_intersect. simpl.
    by rewrite filterM_false.
  - unfold intersect. simpl. unfold FiniteSet_intersect. simpl.
    by rewrite filterM_false.
Qed.

(** ** Finite sets *)

Lemma as_finite_FiniteSet_new (X : gset value) :
  X ≠ ∅ → as_finite (FiniteSet_new (elements X)) = Some X.
Proof.
  intros HX. unfold FiniteSet_new, SingletonSet_new.
  destruct (elements X) as [|a [|b l]] eqn:Hel.
  - by apply elements_empty_inv, leibniz_equiv in Hel.
  - assert (X = {[ a ]}) as ->.
    { apply set_eq. intros x.
      by rewrite <- elem_of_elements, Hel, list_elem_of_singleton,
        elem_of_singleton. }
    destruct (is_number a); simpl; [done|]. f_equal. set_solver.
  - cbn [as_finite]. f_equal. rewrite <- Hel. apply list_to_set_elements_L.
Qed.

(** ** Intersection *)

(** X2.  [Interval._intersect] is exact on Interval objects with concrete
    end points: the intersection is returned, and a value is in it exactly
    when it is in both intervals. *)
Theorem Interval_intersect_exact (sym_lt : value → value → bool)
  (a b : interval) :
  wf_interval a → wf_interval b → Interval_is_comparable a b = true →
  ∃ r, intersect sym_lt (Interval a) (Interval b) = Ok r
       ∧ ∀ x, mem x r ↔ mem x (Interval a) ∧ mem x (Interval b).
Proof.
  intros Ha Hb Hc.
  assert (∃ r, intersect sym_lt (Interval a) (Interval b) = Ok r) as [r Hr].
  { unfold intersect. simpl. unfold Interval_intersect. cbn [as_interval].
    rewrite Hc. simpl.
    apply Interval_is_comparable_true in Hc as (? & ? & ? & ?).
    destruct (num_leb (start a) (end_ b) && num_leb (start b) (end_ a));
      [|eauto].
    unfold intersect_left, intersect_right.
    repeat match goal with
    | |- context [if ?c then (_, _) else _] => destruct c
    end;
    match goal with
    | |- ∃ r, (if ?c then _ else _) = _ => destruct c; [eauto|]
    end; apply Interval_new_Ok; by apply comparable_real. }
  exists r. split; [done|]. intros x. split.
  - apply (intersect_sound sym_lt _ _ _ _ Hr).
  - intros [Hxa%mem_Interval Hxb%mem_Interval].
    unfold intersect in Hr. rewrite intersect_fuel_S in Hr.
    by apply (Interval_intersect_complete _ a b r x Ha Hb Hr).
Qed.

Lemma Interval_intersect_exact_witness :
  ∃ r, intersect unordered (Interval (iv 0 2 false false))
         (Interval (iv 1 3 true false)) = Ok r
       ∧ ∀ x, mem x r ↔ mem x (Interval (iv 0 2 false false))
                        ∧ mem x (Interval (iv 1 3 true false)).
Proof.
  apply (Interval_intersect_exact unordered (iv 0 2 false false)
           (iv 1 3 true false)); reflexivity.
Defined.

(** X3.  The intersection of two Interval objects does not depend on the
    order of the operands: the same set, or the same failure when an end
    point is symbolic. *)
Theorem Interval_intersect_commutes (sym_lt : value → value → bool)
  (a b : interval) :
  intersect sym_lt (Interval a) (Interval b)
  = intersect sym_lt (Interval b) (Interval a).
Proof. unfold intersect. simpl. apply Interval_intersect_comm. Qed.

(** X4.  Whatever the classes of the operands, an intersection that is
    returned holds no value that is not in both operands. *)
Theorem intersect_adds_no_element (sym_lt : value → value → bool)
  (a b r : SetV) (x : value) :
  intersect sym_lt a b = Ok r → mem x r → mem x a ∧ mem x b.
Proof. apply intersect_sound. Qed.

Lemma intersect_adds_no_element_witness :
  mem (Int 1) (Union [Interval (iv 0 1 false false);
                      Interval (iv 2 3 false false)])
  ∧ mem (Int 1) (FiniteSet {[ Int 1; Int 5 ]}).
Proof.
  apply (intersect_adds_no_element unordered
           (Union [Interval (iv 0 1 false false);
                   Interval (iv 2 3 false false)])
           (FiniteSet {[ Int 1; Int 5 ]}) (SingletonSet (Int 1)) (Int 1)).
  - vm_compute. reflexivity.
  - reflexivity.
Defined.

(** X5.  The empty set absorbs: [EmptySet.intersect(a)] is the empty set
    for every [a], and so is [a.intersect(EmptySet)] for every [a] of a
    concrete class; on an instance of the abstract base class it raises
    NotImplementedError. *)
Theorem intersect_EmptySet_absorbs (sym_lt : value → value → bool)
  (a : SetV) :
  intersect sym_lt EmptySet a = Ok EmptySet
  ∧ (a ≠ AbstractSet → intersect sym_lt a EmptySet = Ok EmptySet)
  ∧ intersect sym_lt AbstractSet EmptySet = Err NotImplementedError.
Proof.
  split; [done|]. split; [apply intersect_EmptySet_r|done].
Qed.

(** X6.  [FiniteSet._intersect] is exact: when the intersection of a
    finite set with any set is returned, a value is in it exactly when it
    is in both. *)
Theorem FiniteSet_intersect_exact (sym_lt : value → value → bool)
  (f s r : SetV) (X : gset value) :
  as_finite f = Some X → intersect sym_lt f s = Ok r →
  ∀ x, mem x r ↔ mem x f ∧ mem x s.
Proof.
  intros HX Hr x. rewrite (intersect_finite_left _ _ _ X HX) in Hr.
  rewrite (mem_finite f X x HX). unfold FiniteSet_intersect in Hr.
  destruct (as_finite s) as [Y|] eqn:HY.
  - injection Hr as <-.
    rewrite mem_FiniteSet_new, elem_of_elements, elem_of_intersection.
    by rewrite (mem_finite s Y).
  - apply bind_Ok in Hr as (kept & Hk & [= <-]).
    rewrite mem_FiniteSet_new. apply filterM_Ok in Hk as [_ Hk].
    by rewrite Hk, elem_of_elements.
Qed.

Lemma FiniteSet_intersect_exact_witness :
  mem (Int 5) (SingletonSet (Int 1))
  ↔ mem (Int 5) (FiniteSet {[ Int 1; Int 5 ]})
    ∧ mem (Int 5) (Interval (iv 0 2 false false)).
Proof.
  apply (FiniteSet_intersect_exact unordered (FiniteSet {[ Int 1; Int 5 ]})
           (Interval (iv 0 2 false false)) (SingletonSet (Int 1))
           {[ Int 1; Int 5 ]}).
  - reflexivity.
  - vm_compute. reflexivity.
Defined.

(** ** Union *)

(** X7.  The Union constructor adds no element: on arguments that are sets
    or iterables of sets, with Interval objects as the Interval constructor
    returns them, a value in the result is in one of the arguments. *)
Theorem Union_adds_no_element (sym_lt : value → value → bool)
  (args : list pyobj) (r : SetV) (x : value) :
  forallb proper_obj args = true →
  Union_new sym_lt args = Ok r → mem x r →
  ∃ o, o ∈ args ∧ obj_mem x o.
Proof.
  intros Hargs Hr Hx.
  destruct (Union_new_sound sym_lt args r x Hargs Hr) as [_ H]. by apply H.
Qed.

Lemma Union_adds_no_element_witness :
  ∃ o, o ∈ [PSet (Interval (iv 0 1 false true));
            PIter [PSet (FiniteSet {[ Int 1; Int 5 ]})]]
       ∧ obj_mem (Int 1) o.
Proof.
  apply (Union_adds_no_element unordered
           [PSet (Interval (iv 0 1 false true));
            PIter [PSet (FiniteSet {[ Int 1; Int 5 ]})]]
           (Union [Interval (iv 0 1 true false); SingletonSet (Int 5)])
           (Int 1)).
  - reflexivity.
  - vm_compute. reflexivity.
  - reflexivity.
Defined.

(** X8.  [Set.union], [FiniteSet.union] and [+] add no element: a value
    in [a.union(b)] is in [a] or in [b]. *)
Theorem union_adds_no_element (sym_lt : value → value → bool)
  (a b r : SetV) (x : value) :
  proper_set a = true → proper_set b = true →
  union sym_lt a b = Ok r → mem x r → mem x a ∨ mem x b.
Proof.
  intros Ha Hb Hr Hx. unfold union in Hr.
  destruct (union_with_sound (Union_new sym_lt) a b r x) as [_ H];
    try done.
  - intros args r'. apply Union_new_sound.
  - by apply H.
Qed.

Lemma union_adds_no_element_witness :
  mem (Int 3) (Interval (iv 1 2 true true))
  ∨ mem (Int 3) (FiniteSet {[ Int 2; Int 3 ]}).
Proof.
  apply (union_adds_no_element unordered (Interval (iv 1 2 true true))
           (FiniteSet {[ Int 2; Int 3 ]})
           (Union [Interval (iv 1 2 true false); SingletonSet (Int 3)])
           (Int 3)).
  - reflexivity.
  - reflexivity.
  - vm_compute. reflexivity.
  - reflexivity.
Defined.

(** X9.  Empty sets among the arguments of the Union constructor are
    dropped, wherever they stand: the result is the one without them. *)
Theorem Union_drops_EmptySet (sym_lt : value → value → bool)
  (l1 l2 : list pyobj) :
  Union_new sym_lt (l1 ++ PSet EmptySet :: l2) = Union_new sym_lt (l1 ++ l2).
Proof. apply Union_new_skip. Qed.

(** ** Complement *)

(** X10.  The complement of an Interval object with concrete end points
    holds exactly the integers that are not in the interval. *)
Theorem Interval_complement_exact (sym_lt : value → value → bool)
  (i : interval) :
  wf_interval i → concrete i = true →
  ∃ r, complement sym_lt (Interval i) = Ok r
       ∧ ∀ z, mem (Int z) r ↔ ¬ mem (Int z) (Interval i).
Proof.
  intros Hwf Hc. apply andb_true_iff in Hc as [Hs He].
  pose proof (wf_interval_proper _ Hwf) as Hp.
  apply proper_interval_spec in Hp. specialize (Hp Hs He).
  cbn [complement]. unfold Interval_complement.
  destruct (Interval_new_Ok NegativeInfinity (start i) true
              (negb (left_open i))) as [a Ha];
    [done|by apply comparable_real|].
  destruct (Interval_new_Ok (end_ i) Infinity (negb (right_open i)) true)
    as [b Hb]; [by apply comparable_real|done|].
  rewrite Ha, Hb. simpl.
  destruct (Union_new_interval_args sym_lt [a; b]) as (r & Hr & Hmem).
  { constructor; [|constructor; [|constructor]].
    - by apply (Interval_new_interval_arg NegativeInfinity (start i) true
                  (negb (left_open i)) a).
    - apply (Interval_new_interval_arg (end_ i) Infinity
               (negb (right_open i)) true b); try done.
      by rewrite orb_true_r. }
  exists r. split; [exact Hr|]. intros z. rewrite Hmem.
  assert (start i ≠ Infinity) as Hsi.
  { intros Heq. rewrite Heq, num_ltb_Infinity in Hp. discriminate. }
  assert (end_ i ≠ NegativeInfinity) as Hei.
  { intros Heq. rewrite Heq, num_ltb_NegativeInfinity in Hp. discriminate. }
  assert (mem (Int z) a
          ↔ inside (mkInterval NegativeInfinity (start i) true
                      (negb (left_open i))) (Int z)) as Hma.
  { by apply Interval_new_open_mem. }
  assert (mem (Int z) b
          ↔ inside (mkInterval (end_ i) Infinity (negb (right_open i)) true)
              (Int z)) as Hmb.
  { apply Interval_new_open_mem; try done. apply orb_true_r. }
  rewrite mem_Interval.
  assert (is_comparable (Int z) = true) as Hz by done.
  assert (num_ltb NegativeInfinity (Int z) = true) as Hlo by done.
  assert (num_ltb (Int z) Infinity = true) as Hhi by done.
  revert Hma Hmb Hz Hlo Hhi. generalize (Int z). intros x Hma Hmb Hz Hlo Hhi.
  split.
  - intros (s & Hel & Hm) Hin.
    apply elem_of_cons in Hel as [->|Hel].
    + apply Hma in Hm. clear Hma Hmb Ha Hb Hr Hmem. unfold inside in *.
      destruct (left_open i), (right_open i); inside_solve.
    + apply list_elem_of_singleton in Hel as ->.
      apply Hmb in Hm. clear Hma Hmb Ha Hb Hr Hmem. unfold inside in *.
      destruct (left_open i), (right_open i); inside_solve.
  - intros Hnot.
    destruct (decide (inside (mkInterval NegativeInfinity (start i) true
                                (negb (left_open i))) x))
      as [Hl|Hl].
    { exists a. split; [left|by apply Hma]. }
    exists b. split; [right; left|]. apply Hmb.
    clear Hma Hmb Ha Hb Hr Hmem. unfold inside in *. simpl in *.
    rewrite Hz, Hs, He, Hlo, Hhi in *. simpl in *.
    destruct (left_open i), (right_open i); simpl in *;
      destruct (num_ltb x (start i)) eqn:?;
      destruct (num_ltb (start i) x) eqn:?;
      destruct (num_ltb x (end_ i)) eqn:?;
      destruct (num_ltb (end_ i) x) eqn:?;
      unfold num_leb in *;
      repeat match goal with
      | H : ?a = _ |- context [?a] => rewrite H in *
      | H : ?a = _, H' : context [?a] |- _ => rewrite H in H'
      end; simpl in *;
      first [ by repeat split
            | exfalso; apply Hnot; by repeat split
            | exfalso; apply Hl; by repeat split
            | exfalso; num_solve ].
Qed.

Lemma Interval_complement_exact_witness :
  ∃ r, complement unordered (Interval (iv 0 1 false true)) = Ok r
       ∧ ∀ z, mem (Int z) r ↔ ¬ mem (Int z) (Interval (iv 0 1 false true)).
Proof.
  apply (Interval_complement_exact unordered (iv 0 1 false true));
    reflexivity.
Defined.

(** ** Finite sets *)

(** X11.  [FiniteSet.union] of two finite sets is the finite set of the
    elements of both: it never fails, and a value is in the result exactly
    when it is in one of the two. *)
Theorem FiniteSet_union_exact (sym_lt : value → value → bool)
  (a b : SetV) (X Y : gset value) :
  as_finite a = Some X → as_finite b = Some Y →
  union sym_lt a b = Ok (FiniteSet_new (elements (X ∪ Y)))
  ∧ ∀ x, mem x (FiniteSet_new (elements (X ∪ Y))) ↔ mem x a ∨ mem x b.
Proof.
  intros HX HY. split.
  - unfold union, union_with. by rewrite HX, HY.
  - intros x. rewrite mem_FiniteSet_new, elem_of_elements, elem_of_union.
    by rewrite (mem_finite a X), (mem_finite b Y).
Qed.

Lemma FiniteSet_union_exact_witness :
  union unordered (SingletonSet (Int 1)) (FiniteSet {[ Int 1; Int 2 ]})
  = Ok (FiniteSet_new
          (elements (({[ Int 1 ]} : gset value) ∪ {[ Int 1; Int 2 ]})))
  ∧ ∀ x, mem x (FiniteSet_new
                  (elements (({[ Int 1 ]} : gset value) ∪ {[ Int 1; Int 2 ]})))
         ↔ mem x (SingletonSet (Int 1))
           ∨ mem x (FiniteSet {[ Int 1; Int 2 ]}).
Proof.
  apply (FiniteSet_union_exact unordered (SingletonSet (Int 1))
           (FiniteSet {[ Int 1; Int 2 ]})); reflexivity.
Defined.

(** ** Equality *)

(** X12.  [==] on sets is reflexive, symmetric and transitive, and equal
    sets answer [contains] alike; finite sets are compared by their
    elements, whatever their class. *)
Theorem set_eqb_equivalence :
  (∀ a, set_eqb a a = true)
  ∧ (∀ a b, set_eqb a b = set_eqb b a)
  ∧ (∀ a b c, set_eqb a b = true → set_eqb b c = true → set_eqb a c = true)
  ∧ (∀ a b x, set_eqb a b = true → contains a x = contains b x)
  ∧ (∀ a b X Y, as_finite a = Some X → as_finite b = Some Y →
       set_eqb a b = bool_decide (X = Y)).
Proof.
  split; [apply set_eqb_refl|]. split; [apply set_eqb_sym|].
  split; [apply set_eqb_trans|]. split; [apply set_eqb_contains|].
  intros a b X Y HX HY.
  destruct a, b; try discriminate; cbn [set_eqb]; rewrite HX, HY;
    apply bool_decide_ext; split; congruence.
Qed.

(** ** Containment *)



Lemma mapM_Err {A B : Type} (f : A → result B) (l : list A) (e : exn) :
  mapM f l = Err e → ∃ x, x ∈ l ∧ f x = Err e.
Proof.
  induction l as [|x l IH]; simpl; [discriminate|].
  intros [H|(y & _ & H)]%bind_Err.
  - exists x. split; [left|done].
  - apply bind_Err in H as [H|(k & _ & H)]; [|discriminate].
    destruct (IH H) as (z & Hz & Hf). exists z. split; [by right|done].
Qed.

(** X14.  [contains] raises exactly on the sets with an abstract
    component, whatever the element, and then it is NotImplementedError;
    on the other Unions a value is in the Union exactly when it is in a
    component. *)
Theorem Union_contains_spec (s : SetV) (args : list SetV) (x : value) :
  (is_pure s = false → contains s x = Err NotImplementedError)
  ∧ (is_pure s = true → ∃ t, contains s x = Ok t)
  ∧ (mem x (Union args)
     ↔ forallb is_pure args = true ∧ ∃ c, c ∈ args ∧ mem x c).
Proof.
  split; [|split; [apply contains_pure|apply mem_Union]].
  intros Hp. destruct (contains s x) as [t|e] eqn:Hc.
  - assert (is_pure s = true) by (apply (contains_pure s x); eauto).
    congruence.
  - f_equal. clear Hp. revert e Hc.
    induction s as [ | i | X | v | cs IH | ] using SetV_ind; simpl;
      try discriminate; [|by intros e [= <-]].
    intros e [H|(ts & _ & H)]%bind_Err; [|discriminate].
    apply mapM_Err in H as (c & Hc & He).
    rewrite Forall_forall in IH. by apply (IH c).
Qed.

(** ** The Interval constructor *)

(** X15.  Every Interval object the constructor returns has the end
    points it was given, which are real and distinct, with the start below
    the end when both are concrete; its infinite ends are open and its
    other flags are the ones given; and the constructor returns it
    unchanged when called on its own four attributes. *)
Theorem Interval_new_invariant (s e : value) (lo ro : bool) (j : interval) :
  Interval_new s e lo ro = Ok (Interval j) →
  start j = s ∧ end_ j = e
  ∧ is_real s = true ∧ is_real e = true ∧ s ≠ e
  ∧ (is_comparable s = true → is_comparable e = true →
     num_ltb s e = true)
  ∧ left_open j = (if bool_decide (s = NegativeInfinity) then true else lo)
  ∧ right_open j = (if bool_decide (e = Infinity) then true else ro)
  ∧ Interval_new (start j) (end_ j) (left_open j) (right_open j)
    = Ok (Interval j).
Proof.
  intros Hnew.
  pose proof (Interval_new_result_wf _ _ _ _ _ Hnew) as Hwf.
  pose proof (wf_interval_proper _ Hwf) as Hp.
  apply proper_interval_spec in Hp. unfold proper in Hp.
  apply wf_interval_spec in Hwf as Hspec.
  destruct Hspec as (H1 & H2 & _ & H4 & _).
  destruct (Interval_new_fields _ _ _ _ _ Hnew) as [Hs He].
  assert (left_open j = (if bool_decide (s = NegativeInfinity) then true
                         else lo)
          ∧ right_open j = (if bool_decide (e = Infinity) then true
                            else ro)) as [Hlo Hro].
  { revert Hnew. unfold Interval_new, SingletonSet_new.
    repeat match goal with
    | |- (if ?c then _ else _) = _ → _ => destruct c
    end; try discriminate. by intros [= <-]. }
  subst s e. split_and!; done.
Qed.

Lemma Interval_new_invariant_witness :
  start (mkInterval NegativeInfinity (Int 0) true false) = NegativeInfinity
  ∧ left_open (mkInterval NegativeInfinity (Int 0) true false) = true.
Proof.
  destruct (Interval_new_invariant NegativeInfinity (Int 0) false false
              (mkInterval NegativeInfinity (Int 0) true false) eq_refl)
    as (H1 & _ & _ & _ & _ & _ & H2 & _).
  split; [exact H1|exact H2].
Defined.

(** ** Sorting numbers *)

Lemma insert_sorted_increasing sym_lt x l :
  is_comparable x = true → Forall (λ v, is_comparable v = true) l →
  x ∉ l → increasing l →
  increasing (insert_sorted (key_lt sym_lt) x l).
Proof.
  intros Hx. induction l as [|y l IH]; intros Hl Hnot Hinc; simpl.
  - split; [constructor|done].
  - apply Forall_cons in Hl as [Hy Hl]. destruct Hinc as [Hb Hinc].
    apply not_elem_of_cons in Hnot as [Hne Hnot].
    rewrite key_lt_concrete by done.
    destruct (num_ltb x y) eqn:Hlt.
    + split; [|by split]. constructor; [done|].
      eapply Forall_impl; [exact Hb|]. intros z Hz. simpl in Hz. num_solve.
    + split; [|by apply IH]. rewrite insert_sorted_perm.
      constructor; [|done]. num_solve.
Qed.

Lemma sort_values_increasing sym_lt l :
  Forall (λ v, is_comparable v = true) l → NoDup l →
  increasing (sort_values sym_lt l).
Proof.
  unfold sort_values, stable_sort.
  enough (∀ acc,
    Forall (λ v, is_comparable v = true) acc → increasing acc →
    Forall (λ v, is_comparable v = true) l → NoDup l →
    (∀ v, v ∈ l → v ∉ acc) →
    increasing (foldl (λ acc x, insert_sorted (key_lt sym_lt) x acc) acc l))
    as H.
  { intros Hl Hnd. apply H; try done. intros v _. apply not_elem_of_nil. }
  induction l as [|x l IH]; intros acc Hacc Hinc Hl Hnd Hdis; simpl; [done|].
  apply Forall_cons in Hl as [Hx Hl]. apply NoDup_cons in Hnd as [Hxl Hnd].
  apply IH; try done.
  - rewrite insert_sorted_perm. by constructor.
  - apply insert_sorted_increasing; try done. apply Hdis. left.
  - intros v Hv. rewrite insert_sorted_perm.
    apply not_elem_of_cons. split; [by intros ->|]. apply Hdis. by right.
Qed.

(** ** The gaps between sorted numbers *)

Lemma last_default {A} (l : list A) (d d' : A) :
  l ≠ [] → List.last l d = List.last l d'.
Proof.
  induction l as [|a [|b l] IH]; intros Hl; try done. by apply IH.
Qed.

Lemma gaps_cons lo a l : gaps lo (a :: l) = (lo, a) :: gaps a l.
Proof.
  unfold gaps. cbn [consecutive app]. do 4 f_equal.
  change (List.last (lo :: a :: l) lo) with (List.last (a :: l) lo).
  by apply last_default.
Qed.

Lemma gaps_elem lo l c d :
  (c, d) ∈ gaps lo l → c ∈ lo :: l ∧ (d = Infinity ∨ d ∈ l).
Proof.
  revert lo. induction l as [|a l IH]; intros lo.
  - intros [= -> ->]%list_elem_of_singleton. split; [left|by left].
  - rewrite gaps_cons. intros [[= -> ->]|Hel]%elem_of_cons.
    + split; [left|right; left].
    + destruct (IH _ Hel) as [Hc Hd]. split; [by right|].
      destruct Hd as [->|Hd]; [by left|right; by right].
Qed.

Lemma gaps_sound lo l c d x :
  Forall (λ b, num_ltb b lo = false) l → increasing l →
  is_comparable lo = true → Forall (λ v, is_comparable v = true) l →
  is_comparable x = true →
  (c, d) ∈ gaps lo l → num_ltb c x = true → num_ltb x d = true →
  (x ∉ l) ∧ num_ltb c lo = false.
Proof.
  revert lo. induction l as [|a l IH]; intros lo Hlo Hinc Hclo Hcl Hx.
  - intros [= -> ->]%list_elem_of_singleton _ _.
    split; [apply not_elem_of_nil|apply num_ltb_irrefl].
  - apply Forall_cons in Hlo as [Hloa Hlo]. destruct Hinc as [Ha Hinc].
    apply Forall_cons in Hcl as [Hca Hcl].
    rewrite gaps_cons. intros [[= -> ->]|Hel]%elem_of_cons Hcx Hxd.
    + split; [|apply num_ltb_irrefl].
      apply not_elem_of_cons. split; [intros ->; num_solve|].
      intros Hin. rewrite Forall_forall in Ha, Hcl.
      specialize (Ha _ Hin). num_solve.
    + destruct (IH a) as [Hnot Hac]; try done.
      { eapply Forall_impl; [exact Ha|]. intros z Hz. simpl in Hz.
        num_solve. }
      split; [|num_solve].
      apply not_elem_of_cons. split; [intros ->; num_solve|done].
Qed.

Lemma gaps_complete lo l x :
  increasing l →
  is_comparable lo = true → Forall (λ v, is_comparable v = true) l →
  is_comparable x = true →
  num_ltb lo x = true → num_ltb x Infinity = true → x ∉ l →
  ∃ c d, (c, d) ∈ gaps lo l ∧ num_ltb c x = true ∧ num_ltb x d = true.
Proof.
  revert lo. induction l as [|a l IH]; intros lo Hinc Hclo Hcl Hx Hlx Hxi.
  - intros _. exists lo, Infinity. split; [left|done].
  - destruct Hinc as [Ha Hinc]. apply Forall_cons in Hcl as [Hca Hcl].
    intros [Hne Hnot]%not_elem_of_cons. rewrite gaps_cons.
    destruct (num_ltb x a) eqn:Hxa.
    + exists lo, a. split; [left|done].
    + destruct (IH a) as (c & d & Hel & Hc & Hd); try done.
      { num_solve. }
      exists c, d. split; [by right|done].
Qed.

(** ** The complement of a finite set of numbers *)

Lemma gap_intervals (g : list (value * value)) :
  Forall (λ ab, is_comparable ab.1 = true ∧ is_comparable ab.2 = true) g →
  ∃ rs, Forall2 (λ ab r, Interval_new ab.1 ab.2 true true = Ok r
                   ∧ interval_arg r
                   ∧ ∀ x, mem x r
                          ↔ inside (mkInterval ab.1 ab.2 true true) x)
          g rs.
Proof.
  induction g as [|[c d] g IH]; intros Hg.
  - exists []. constructor.
  - apply Forall_cons in Hg as [[Hc Hd] Hg]. simpl in Hc, Hd.
    destruct (IH Hg) as (rs & Hall).
    destruct (Interval_new_Ok c d true true) as [r Hr];
      [by apply comparable_real..|].
    exists (r :: rs). constructor; [|done]. split; [done|]. split.
    + by apply (Interval_new_interval_arg c d true true).
    + intros x. simpl. by apply Interval_new_open_mem.
Qed.

Lemma consecutive_elem {A} (l : list A) a b :
  (a, b) ∈ consecutive l → a ∈ l ∧ b ∈ l.
Proof.
  induction l as [|x [|y l] IH]; simpl.
  - by intros ?%elem_of_nil.
  - by intros ?%elem_of_nil.
  - intros [[= -> ->]|Hel]%elem_of_cons.
    + split; [left|right; left].
    + destruct (IH Hel) as [? ?]. split; by right.
Qed.

Lemma last_elem {A} (l : list A) d : l ≠ [] → List.last l d ∈ l.
Proof.
  induction l as [|a [|b l] IH]; intros Hl; try done.
  - left.
  - right. by apply IH.
Qed.

Lemma FiniteSet_complement_mem sym_lt (X : gset value) :
  X ≠ ∅ → (∀ v, v ∈ X → is_Number v = true) →
  ∃ r, FiniteSet_complement sym_lt (elements X) = Ok r
       ∧ ∀ x, mem x r
              ↔ ∃ c d, (c, d) ∈ gaps NegativeInfinity
                                   (sort_values sym_lt (elements X))
                       ∧ inside (mkInterval c d true true) x.
Proof.
  intros Hne Hnum.
  assert (forallb is_Number (elements X) = true) as Hall.
  { apply forallb_elem_of. intros v Hv. apply Hnum.
    by apply elem_of_elements. }
  assert (Forall (λ v, is_comparable v = true)
            (sort_values sym_lt (elements X))) as Hcmp.
  { apply Forall_forall. intros v Hv. unfold sort_values in Hv.
    rewrite stable_sort_perm in Hv. apply Hnum.
    by apply elem_of_elements. }
  destruct (sort_values sym_lt (elements X)) as [|first others] eqn:Hsort.
  { exfalso. apply Hne. apply leibniz_equiv, elements_empty_inv.
    apply Permutation_nil_r. rewrite <- Hsort. unfold sort_values.
    by rewrite stable_sort_perm. }
  rewrite (FiniteSet_complement_numbers sym_lt _ first others Hall Hsort).
  destruct (gap_intervals (gaps NegativeInfinity (first :: others)))
    as (rs & Hall2).
  { apply Forall_forall. intros [c d] [Hc Hd]%gaps_elem. simpl.
    rewrite Forall_forall in Hcmp. split.
    - apply elem_of_cons in Hc as [->|Hc]; [done|by apply Hcmp].
    - destruct Hd as [->|Hd]; [done|by apply Hcmp]. }
  pose proof Hall2 as Hsplit.
  rewrite gaps_cons in Hsplit. unfold gaps in Hsplit.
  apply Forall2_cons_inv_l in Hsplit as (i0 & rest & Hi0 & Hrest & ->).
  apply Forall2_app_inv_l in Hrest as (mids & tl & Hmids & Htl & ->).
  apply Forall2_cons_inv_l in Htl as (i1 & tl' & Hi1 & Hnil & ->).
  apply Forall2_nil_inv_l in Hnil as ->.
  destruct Hi0 as [Hi0 _]. destruct Hi1 as [Hi1 _]. simpl in Hi0.
  cbn [fst snd] in Hi1.
  rewrite Hi0. cbn [mbind result_bind].
  assert (mapM (λ ab, Interval_new ab.1 ab.2 true true)
            (consecutive (first :: others)) = Ok mids) as ->.
  { apply mapM_Ok_Forall2. eapply Forall2_impl; [exact Hmids|].
    by intros ab r [? _]. }
  cbn [mbind result_bind]. rewrite Hi1. cbn [mbind result_bind].
  destruct (Union_new_interval_args sym_lt (i0 :: mids ++ [i1]))
    as (r & Hr & Hmem).
  { apply Forall_forall. intros s Hs.
    destruct (Forall2_elem_of_r _ _ _ _ Hall2 Hs) as (ab & _ & _ & Hab & _).
    exact Hab. }
  exists r. split; [exact Hr|]. intros x. rewrite Hmem. split.
  - intros (s & Hs & Hx).
    destruct (Forall2_elem_of_r _ _ _ _ Hall2 Hs)
      as ([c d] & Hel & _ & _ & Hab).
    exists c, d. split; [done|]. by apply Hab.
  - intros (c & d & Hel & Hin).
    destruct (Forall2_elem_of_l _ _ _ _ Hall2 Hel) as (s & Hs & _ & _ & Hab).
    exists s. split; [done|]. by apply Hab.
Qed.

Lemma sorted_gaps_sound sym_lt (X : gset value) c d x :
  (∀ v, v ∈ X → is_Number v = true) →
  (c, d) ∈ gaps NegativeInfinity (sort_values sym_lt (elements X)) →
  inside (mkInterval c d true true) x → x ∉ X.
Proof.
  intros Hnum Hel (Hx & _ & _ & Hl & Hr). simpl in Hl, Hr.
  assert (Forall (λ v, is_comparable v = true)
            (sort_values sym_lt (elements X))) as Hcmp.
  { apply Forall_forall. intros v Hv. unfold sort_values in Hv.
    rewrite stable_sort_perm in Hv. apply Hnum.
    by apply elem_of_elements. }
  destruct (gaps_sound NegativeInfinity (sort_values sym_lt (elements X))
              c d x) as [Hnot _]; try done.
  - apply Forall_forall. intros b _. apply num_ltb_NegativeInfinity.
  - apply sort_values_increasing; [|apply NoDup_elements].
    apply Forall_forall. intros v Hv. apply Hnum.
    by apply elem_of_elements.
  - intros HxX. apply Hnot. unfold sort_values.
    rewrite stable_sort_perm. by apply elem_of_elements.
Qed.

Lemma sorted_gaps_complete sym_lt (X : gset value) z :
  (∀ v, v ∈ X → is_Number v = true) → Int z ∉ X →
  ∃ c d, (c, d) ∈ gaps NegativeInfinity (sort_values sym_lt (elements X))
         ∧ inside (mkInterval c d true true) (Int z).
Proof.
  intros Hnum Hnot.
  assert (Forall (λ v, is_comparable v = true)
            (sort_values sym_lt (elements X))) as Hcmp.
  { apply Forall_forall. intros v Hv. unfold sort_values in Hv.
    rewrite stable_sort_perm in Hv. apply Hnum.
    by apply elem_of_elements. }
  destruct (gaps_complete NegativeInfinity
              (sort_values sym_lt (elements X)) (Int z))
    as (c & d & Hel & Hc & Hd); try done.
  - apply sort_values_increasing; [|apply NoDup_elements].
    apply Forall_forall. intros v Hv. apply Hnum.
    by apply elem_of_elements.
  - unfold sort_values. rewrite stable_sort_perm.
    by rewrite elem_of_elements.
  - exists c, d. split; [done|].
    destruct (gaps_elem _ _ _ _ Hel) as [Hc' Hd'].
    rewrite Forall_forall in Hcmp. repeat split; simpl; try done.
    + apply elem_of_cons in Hc' as [->|Hc']; [done|by apply Hcmp].
    + destruct Hd' as [->|Hd']; [done|by apply Hcmp].
Qed.

Lemma complement_finite sym_lt f X :
  as_finite f = Some X →
  complement sym_lt f = FiniteSet_complement sym_lt (elements X).
Proof. destruct f; try discriminate; by intros [= <-]. Qed.

Lemma FiniteSet_complement_Ok sym_lt (X : gset value) r :
  FiniteSet_complement sym_lt (elements X) = Ok r →
  X ≠ ∅ ∧ ∀ v, v ∈ X → is_Number v = true.
Proof.
  unfold FiniteSet_complement.
  destruct (forallb is_Number (elements X)) eqn:Hall; [|discriminate].
  simpl. intros Hr. split.
  - intros ->. by rewrite elements_empty in Hr.
  - intros v Hv. rewrite forallb_elem_of in Hall. apply Hall.
    by apply elem_of_elements.
Qed.

(** ** The complement holds no element of the set *)

Lemma Interval_complement_sound sym_lt i r x :
  Interval_complement sym_lt i = Ok r → mem x r → ¬ mem x (Interval i).
Proof.
  unfold Interval_complement. intros H Hm Hi.
  apply bind_Ok in H as (a & Ha & H). apply bind_Ok in H as (b & Hb & H).
  destruct (Union_new_sound sym_lt [PSet a; PSet b] r x) as [_ Hs];
    [|done|].
  { simpl. by rewrite (Interval_new_proper _ _ _ _ _ Ha),
      (Interval_new_proper _ _ _ _ _ Hb). }
  destruct (Hs Hm) as (o & Ho & Hmo). apply mem_Interval in Hi.
  apply elem_of_cons in Ho as [->|Ho];
    [|apply list_elem_of_singleton in Ho as ->]; simpl in Hmo.
  - destruct (Interval_new_mem _ _ _ _ _ _ Ha Hmo)
      as [(_ & _ & ? & _)|Hin]; [discriminate|].
    clear -Hi Hin. unfold inside in *. simpl in *.
    destruct (left_open i), (right_open i); inside_solve.
  - destruct (Interval_new_mem _ _ _ _ _ _ Hb Hmo)
      as [(_ & _ & _ & ?)|Hin]; [discriminate|].
    clear -Hi Hin. unfold inside in *. simpl in *.
    destruct (left_open i), (right_open i); inside_solve.
Qed.

Lemma complement_sound sym_lt s r x :
  complement sym_lt s = Ok r → mem x r → ¬ mem x s.
Proof.
  revert r. induction s as [ | i | X | v | args IH | ] using SetV_ind;
    intros r Hr Hm.
  - apply mem_EmptySet.
  - by apply (Interval_complement_sound sym_lt i r).
  - simpl in Hr. rewrite (mem_finite _ X) by done.
    destruct (FiniteSet_complement_Ok _ _ _ Hr) as [Hne Hnum].
    destruct (FiniteSet_complement_mem sym_lt X Hne Hnum) as (r' & Hr' & Hx).
    assert (r' = r) as -> by congruence.
    apply Hx in Hm as (c & d & Hel & Hin).
    by apply (sorted_gaps_sound sym_lt X c d).
  - simpl in Hr. rewrite (mem_finite _ {[ v ]}) by done.
    destruct (FiniteSet_complement_Ok _ _ _ Hr) as [Hne Hnum].
    destruct (FiniteSet_complement_mem sym_lt {[ v ]} Hne Hnum)
      as (r' & Hr' & Hx).
    assert (r' = r) as -> by congruence.
    apply Hx in Hm as (c & d & Hel & Hin).
    by apply (sorted_gaps_sound sym_lt {[ v ]} c d).
  - destruct args as [|first rest]; [discriminate|].
    cbn [complement] in Hr. apply bind_Ok in Hr as (c & Hc & Hr).
    apply Forall_cons in IH as [IHfirst IHrest].
    intros (_ & s & Hs & Hms)%mem_Union.
    assert (mem x c ∧ ∀ t, t ∈ rest → ¬ mem x t) as [Hxc Hrest].
    { clear Hs Hms Hc IHfirst. revert c Hr.
      induction rest as [|set rest IHl]; intros c Hr.
      - injection Hr as ->. split; [done|]. by intros t ?%elem_of_nil.
      - apply Forall_cons in IHrest as [IHset IHrest].
        apply bind_Ok in Hr as (c' & Hc' & Hr).
        apply bind_Ok in Hr as (acc' & Hacc & Hr).
        destruct (IHl IHrest acc' Hr) as [Hxa Hall].
        destruct (intersect_sound sym_lt _ _ _ _ Hacc Hxa) as [Hxc Hxc'].
        split; [done|]. intros t [->|Ht]%elem_of_cons; [|by apply Hall].
        by apply (IHset c'). }
    apply elem_of_cons in Hs as [->|Hs].
    + by apply (IHfirst c).
    + by apply (Hrest s).
  - discriminate.
Qed.

(** X16.  A complement holds no element of the set: whatever the class
    of [s], a value that is in [s.complement] is not in [s]. *)
Theorem complement_excludes (sym_lt : value → value → bool)
  (s r : SetV) (x : value) :
  complement sym_lt s = Ok r → mem x r → ¬ mem x s.
Proof. apply complement_sound. Qed.

Lemma complement_excludes_witness :
  complement unordered (Union [Interval (iv 0 2 false false);
                               SingletonSet (Int 5)])
  = Ok (Union [Interval (mkInterval NegativeInfinity (Int 0) true true);
               Interval (iv 2 5 true true);
               Interval (mkInterval (Int 5) Infinity true true)])
  ∧ ¬ mem (Int 4) (Union [Interval (iv 0 2 false false);
                          SingletonSet (Int 5)]).
Proof.
  split; [vm_compute; reflexivity|].
  apply (complement_excludes unordered
           (Union [Interval (iv 0 2 false false); SingletonSet (Int 5)])
           (Union [Interval (mkInterval NegativeInfinity (Int 0) true true);
                   Interval (iv 2 5 true true);
                   Interval (mkInterval (Int 5) Infinity true true)])
           (Int 4)).
  - vm_compute. reflexivity.
  - reflexivity.
Defined.

(** X17.  The complement of a finite set of numbers is returned, and it
    holds exactly the integers that are not elements of the set. *)
Theorem FiniteSet_complement_exact (sym_lt : value → value → bool)
  (f : SetV) (X : gset value) :
  as_finite f = Some X → X ≠ ∅ → (∀ v, v ∈ X → is_Number v = true) →
  ∃ r, complement sym_lt f = Ok r
       ∧ ∀ z, mem (Int z) r ↔ ¬ mem (Int z) f.
Proof.
  intros HX Hne Hnum. rewrite (complement_finite sym_lt f X HX).
  destruct (FiniteSet_complement_mem sym_lt X Hne Hnum) as (r & Hr & Hmem).
  exists r. split; [done|]. intros z.
  rewrite Hmem, (mem_finite f X) by done. split.
  - intros (c & d & Hel & Hin). by apply (sorted_gaps_sound sym_lt X c d).
  - by apply sorted_gaps_complete.
Qed.

Lemma FiniteSet_complement_exact_witness :
  ∃ r, complement unordered (FiniteSet {[ Int 1; Int 3 ]}) = Ok r
       ∧ ∀ z, mem (Int z) r ↔ ¬ mem (Int z) (FiniteSet {[ Int 1; Int 3 ]}).
Proof.
  apply (FiniteSet_complement_exact unordered (FiniteSet {[ Int 1; Int 3 ]})
           {[ Int 1; Int 3 ]}).
  - reflexivity.
  - apply (bool_decide_unpack _). vm_compute. exact I.
  - intros v Hv. apply elem_of_union in Hv as [Hv|Hv];
      apply elem_of_singleton in Hv as ->; reflexivity.
Defined.

(** X18.  A difference that is returned holds only elements of the left
    operand that are not in the right operand, whatever the classes of the
    two. *)
Theorem sub_sound (sym_lt : value → value → bool) (a b r : SetV)
  (x : value) :
  sub sym_lt a b = Ok r → mem x r → mem x a ∧ ¬ mem x b.
Proof.
  unfold sub. destruct (as_finite a) as [X|] eqn:HX; intros Hr Hm.
  - apply bind_Ok in Hr as (kept & Hk & [= <-]).
    apply mem_FiniteSet_new in Hm. apply filterM_Ok in Hk as [_ Hk].
    apply Hk in Hm as [Hx Hc]. split.
    + apply (mem_finite a X x HX). by apply elem_of_elements.
    + unfold mem. by destruct (contains_op b x) as [[]|].
  - apply bind_Ok in Hr as (c & Hc & Hr).
    destruct (intersect_sound sym_lt _ _ _ _ Hr Hm) as [Ha Hxc].
    split; [done|]. by apply (complement_sound sym_lt b c).
Qed.

Lemma sub_sound_witness :
  mem (Int 2) (Interval (iv 0 2 false false))
  ∧ ¬ mem (Int 2) (Interval (iv 0 1 false false)).
Proof.
  apply (sub_sound unordered (Interval (iv 0 2 false false))
           (Interval (iv 0 1 false false))
           (Interval (iv 1 2 true false)) (Int 2)).
  - vm_compute. reflexivity.
  - reflexivity.
Defined.

(** ** No Union inside a Union: a run *)

Lemma Union_new_flat_witness :
  is_Union (Interval (iv 0 1 false false)) = false.
Proof.
  apply (Union_new_flat unordered
           [PSet (Union [Interval (iv 0 1 false false);
                         Interval (iv 2 3 false false)]);
            PIter [PSet (Interval (iv 5 6 false false))]]
           [Interval (iv 0 1 false false); Interval (iv 2 3 false false);
            Interval (iv 5 6 false false)]
           (Interval (iv 0 1 false false))).
  - vm_compute. reflexivity.
  - left.
Defined.

(** ** The relational form and containment *)

Lemma Or_Eq_numbers (x : value) (l : list value) :
  is_comparable x = true → forallb is_number l = true →
  Or ((λ elem, Eq_ x elem) <$> l) = Bool (bool_decide (x ∈ l)).
Proof.
  intros Hx. induction l as [|a l IH]; [done|].
  cbn [forallb]. intros [Ha Hl]%andb_true_iff. rewrite fmap_cons.
  change (Or (Eq_ x a :: ((λ elem, Eq_ x elem) <$> l)))
    with (Or2 (Eq_ x a) (Or ((λ elem, Eq_ x elem) <$> l))).
  rewrite (IH Hl).
  unfold Eq_, both_comparable. unfold is_number in Ha. rewrite Hx, Ha. simpl.
  destruct (decide (x = a)) as [->|Hne].
  - rewrite bool_decide_eq_true_2 by done. simpl.
    by rewrite bool_decide_eq_true_2 by left.
  - rewrite (bool_decide_eq_false_2 (x = a)) by done. simpl.
    assert (bool_decide (x ∈ a :: l) = bool_decide (x ∈ l)) as ->.
    { apply bool_decide_ext. rewrite elem_of_cons. naive_solver. }
    by destruct (bool_decide (x ∈ l)).
Qed.

Lemma FiniteSet_as_relational_contains (X : gset value) (x : value) :
  is_comparable x = true → forallb is_number (elements X) = true →
  FiniteSet_as_relational X x = Bool (bool_decide (x ∈ X)).
Proof.
  intros Hx HX. unfold FiniteSet_as_relational.
  rewrite Or_Eq_numbers by done. f_equal. apply bool_decide_ext.
  apply elem_of_elements.
Qed.

Lemma Interval_as_relational_contains (i : interval) (z : Z) :
  Interval_as_relational i (Int z) = Interval_contains i (Int z).
Proof.
  unfold Interval_as_relational, Interval_contains, is_left_unbounded,
    is_right_unbounded, gt, ge.
  destruct i as [s e lo ro]; simpl.
  destruct (decide (s = NegativeInfinity)) as [->|Hs],
    (decide (e = Infinity)) as [->|He].
  - rewrite !bool_decide_eq_true_2 by done. by destruct lo, ro.
  - rewrite bool_decide_eq_true_2, (bool_decide_eq_false_2 (e = Infinity))
      by done. simpl.
    destruct lo, ro; simpl;
      by destruct (lt (Int z) e) as [[]|], (le (Int z) e) as [[]|].
  - rewrite (bool_decide_eq_false_2 (s = NegativeInfinity)),
      bool_decide_eq_true_2 by done. simpl.
    destruct lo, ro; simpl;
      by destruct (lt s (Int z)) as [[]|], (le s (Int z)) as [[]|].
  - rewrite (bool_decide_eq_false_2 (s = NegativeInfinity)),
      (bool_decide_eq_false_2 (e = Infinity)) by done.
    by destruct lo, ro.
Qed.

(** X19.  Called on an integer in place of the symbol, [as_relational]
    gives the truth value that [contains] gives for this integer, on every
    set without an abstract component whose finite components hold numbers
    only; end points of intervals may be symbolic. *)
Theorem as_relational_contains (s : SetV) (z : Z) :
  numeric s = true → as_relational s (Int z) = contains s (Int z).
Proof.
  induction s as [ | i | X | v | args IH | ] using SetV_ind; simpl;
    intros Hnum; try done.
  - by rewrite Interval_as_relational_contains.
  - by rewrite FiniteSet_as_relational_contains.
  - rewrite FiniteSet_as_relational_contains; [done..|].
    rewrite elements_singleton. simpl. by rewrite Hnum.
  - assert (mapM (λ set, as_relational set (Int z)) args
            = mapM (λ the_set, contains the_set (Int z)) args) as ->; [|done].
    induction IH as [|c args Hc _ IHargs]; simpl; [done|].
    apply andb_true_iff in Hnum as [Hnc Hnargs].
    by rewrite (Hc Hnc), (IHargs Hnargs).
Qed.

Lemma as_relational_contains_witness :
  as_relational (Union [Interval (mkInterval NegativeInfinity (Int 0)
                                    true false);
                        FiniteSet {[ Int 2; Int 3 ]}]) (Int 2)
  = contains (Union [Interval (mkInterval NegativeInfinity (Int 0)
                                 true false);
                     FiniteSet {[ Int 2; Int 3 ]}]) (Int 2).
Proof.
  apply (as_relational_contains
           (Union [Interval (mkInterval NegativeInfinity (Int 0) true false);
                   FiniteSet {[ Int 2; Int 3 ]}]) 2).
  vm_compute. reflexivity.
Defined.

(** ** The arithmetic of the measure *)

(** Case analysis on concrete values, and the arithmetic left over. *)
Ltac value_cases :=
  repeat match goal with
  | v : value |- _ => destruct v
  end;
  simpl in *; try discriminate; try done;
  unfold num_leb, num_ltb in *; simpl in *;
  rewrite ?negb_true_iff, ?negb_false_iff, ?Z.ltb_lt, ?Z.ltb_ge, ?Z.leb_le
    in *;
  try discriminate; try done; try lia.

Lemma value_sub_pos a b :
  is_comparable a = true → is_comparable b = true → num_ltb a b = true →
  quantity_leb (Number 0) (value_sub b a) = true
  ∧ value_sub b a ≠ Number 0.
Proof.
  intros Ha Hb Hab. split.
  - value_cases.
  - value_cases. intros [= ?]. lia.
Qed.

Lemma value_sub_mono a a' b' b :
  is_comparable a = true → is_comparable a' = true →
  is_comparable b' = true → is_comparable b = true →
  num_leb a a' = true → num_ltb a' b' = true → num_leb b' b = true →
  quantity_leb (value_sub b' a') (value_sub b a) = true.
Proof. intros Ha Ha' Hb' Hb H1 H2 H3. value_cases. Qed.

Lemma value_sub_split a b c :
  is_comparable a = true → is_comparable b = true →
  is_comparable c = true →
  num_ltb a b = true → num_ltb b c = true →
  value_sub c a = quantity_add (value_sub b a) (value_sub c b).
Proof. intros Ha Hb Hc H1 H2. value_cases. f_equal. lia. Qed.

Lemma value_sub_overlap a s e1 e2 :
  is_comparable a = true → is_comparable s = true →
  is_comparable e1 = true → is_comparable e2 = true →
  num_ltb a e1 = true → num_ltb s e2 = true →
  num_leb a s = true → num_leb s e1 = true → num_leb e1 e2 = true →
  quantity_leb (value_sub e2 a)
    (quantity_add (value_sub e1 a) (value_sub e2 s)) = true.
Proof. intros Ha Hs He1 He2 H1 H2 H3 H4 H5. value_cases. Qed.

Lemma value_sub_inside a s e1 e2 :
  is_comparable a = true → is_comparable s = true →
  is_comparable e1 = true → is_comparable e2 = true →
  num_ltb a e1 = true → num_ltb s e2 = true →
  quantity_leb (value_sub e1 a)
    (quantity_add (value_sub e1 a) (value_sub e2 s)) = true.
Proof. intros Ha Hs He1 He2 H1 H2. value_cases. Qed.

Lemma quantity_add_comm p q : quantity_add p q = quantity_add q p.
Proof. destruct p, q; simpl; try done. f_equal. lia. Qed.

Lemma quantity_add_0_l p : quantity_add (Number 0) p = p.
Proof. by destruct p. Qed.

Lemma Interval_new_cases s e lo ro r :
  Interval_new s e lo ro = Ok r →
  r = EmptySet ∨ r = SingletonSet e
  ∨ ∃ j, r = Interval j ∧ wf_interval j ∧ start j = s ∧ end_ j = e.
Proof.
  intros Hnew. destruct r as [ | j | X | v | args | ].
  - by left.
  - right. right. exists j. split; [done|].
    split; [by eapply Interval_new_result_wf|].
    by apply Interval_new_fields in Hnew.
  - revert Hnew. unfold Interval_new, SingletonSet_new.
    repeat case_match; discriminate.
  - right. left. revert Hnew. unfold Interval_new, SingletonSet_new.
    repeat case_match; try discriminate. by intros [= ->].
  - by apply Interval_new_flat in Hnew.
  - revert Hnew. unfold Interval_new, SingletonSet_new.
    repeat case_match; discriminate.
Qed.

Lemma wf_interval_lt i :
  wf_interval i → concrete i = true → num_ltb (start i) (end_ i) = true.
Proof.
  intros Hwf [Hs He]%andb_true_iff.
  pose proof (wf_interval_proper _ Hwf) as Hp.
  apply proper_interval_spec in Hp. by apply Hp.
Qed.

Lemma measure_Interval_pos i :
  wf_interval i → concrete i = true →
  quantity_leb (Number 0) (value_sub (end_ i) (start i)) = true.
Proof.
  intros Hwf Hc. pose proof (wf_interval_lt i Hwf Hc) as Hlt.
  apply andb_true_iff in Hc as [Hs He].
  by apply value_sub_pos.
Qed.

(** ** The measure of an intersection *)

Lemma measure_Interval_new_le s e lo ro r a :
  wf_interval a → concrete a = true →
  is_comparable s = true → is_comparable e = true →
  num_leb (start a) s = true → num_leb e (end_ a) = true →
  Interval_new s e lo ro = Ok r →
  ∃ m, measure r = Ok m
       ∧ quantity_leb m (value_sub (end_ a) (start a)) = true.
Proof.
  intros Hwf Hc Hs He Hlo Hhi Hnew.
  destruct (Interval_new_cases _ _ _ _ _ Hnew)
    as [->|[->|(j & -> & Hj & Hsj & Hej)]].
  - exists (Number 0). split; [done|]. by apply measure_Interval_pos.
  - exists (Number 0). split; [done|]. by apply measure_Interval_pos.
  - exists (value_sub (end_ j) (start j)). split; [done|].
    assert (concrete j = true) as Hcj.
    { unfold concrete. by rewrite Hsj, Hej, Hs, He. }
    pose proof (wf_interval_lt j Hj Hcj) as Hlt.
    apply andb_true_iff in Hc as [Hsa Hea]. rewrite Hsj, Hej in *.
    by apply value_sub_mono.
Qed.

(** X20.  The intersection of two Interval objects with concrete end
    points has a measure, which is at most the measure of each of the
    two. *)
Theorem measure_intersect_le (sym_lt : value → value → bool)
  (a b : interval) :
  wf_interval a → wf_interval b → Interval_is_comparable a b = true →
  ∃ r m ma mb,
    intersect sym_lt (Interval a) (Interval b) = Ok r
    ∧ measure r = Ok m
    ∧ measure (Interval a) = Ok ma ∧ measure (Interval b) = Ok mb
    ∧ quantity_leb m ma = true ∧ quantity_leb m mb = true.
Proof.
  intros Ha Hb Hc.
  enough (∃ r m, intersect sym_lt (Interval a) (Interval b) = Ok r
                 ∧ measure r = Ok m
                 ∧ quantity_leb m (value_sub (end_ a) (start a)) = true
                 ∧ quantity_leb m (value_sub (end_ b) (start b)) = true)
    as (r & m & ? & ? & ? & ?).
  { by exists r, m, (value_sub (end_ a) (start a)),
      (value_sub (end_ b) (start b)). }
  unfold intersect. rewrite intersect_fuel_S.
  unfold Interval_intersect. cbn [as_interval]. rewrite Hc. simpl.
  apply Interval_is_comparable_true in Hc as (Hsa & Hea & Hsb & Heb).
  assert (concrete a = true) as Hca by (unfold concrete; by rewrite Hsa, Hea).
  assert (concrete b = true) as Hcb by (unfold concrete; by rewrite Hsb, Heb).
  assert (∃ m, measure EmptySet = Ok m
               ∧ quantity_leb m (value_sub (end_ a) (start a)) = true
               ∧ quantity_leb m (value_sub (end_ b) (start b)) = true)
    as Hempty.
  { exists (Number 0). split; [done|]. split; by apply measure_Interval_pos. }
  destruct (num_leb (start a) (end_ b) && num_leb (start b) (end_ a));
    [|destruct Hempty as (m & ? & ? & ?); by exists EmptySet, m].
  destruct (intersect_left a b) as [s lo] eqn:Hl.
  destruct (intersect_right a b) as [e ro] eqn:Hr.
  destruct (diff_is_zero e s && (lo || ro));
    [destruct Hempty as (m & ? & ? & ?); by exists EmptySet, m|].
  assert (is_comparable s = true ∧ num_leb (start a) s = true
          ∧ num_leb (start b) s = true) as (Hs & Hsa' & Hsb').
  { unfold intersect_left in Hl.
    destruct (num_ltb (start a) (start b)) eqn:?;
      [|destruct (num_ltb (start b) (start a)) eqn:?];
      injection Hl as <- <-; repeat split; try done; num_solve. }
  assert (is_comparable e = true ∧ num_leb e (end_ a) = true
          ∧ num_leb e (end_ b) = true) as (He & Hea' & Heb').
  { unfold intersect_right in Hr.
    destruct (num_ltb (end_ a) (end_ b)) eqn:?;
      [|destruct (num_ltb (end_ b) (end_ a)) eqn:?];
      injection Hr as <- <-; repeat split; try done; num_solve. }
  destruct (Interval_new_Ok s e lo ro) as [r Hnew];
    [by apply comparable_real..|].
  destruct (measure_Interval_new_le s e lo ro r a) as (m & Hm & Hma);
    try done.
  destruct (measure_Interval_new_le s e lo ro r b) as (m' & Hm' & Hmb);
    try done.
  assert (m' = m) as -> by congruence.
  by exists r, m.
Qed.

Lemma measure_intersect_le_witness :
  ∃ r m ma mb,
    intersect unordered (Interval (iv 0 2 false false))
      (Interval (iv 1 5 true false)) = Ok r
    ∧ measure r = Ok m
    ∧ measure (Interval (iv 0 2 false false)) = Ok ma
    ∧ measure (Interval (iv 1 5 true false)) = Ok mb
    ∧ quantity_leb m ma = true ∧ quantity_leb m mb = true.
Proof.
  apply (measure_intersect_le unordered (iv 0 2 false false)
           (iv 1 5 true false)); reflexivity.
Defined.

(** ** The measure of the union of two intervals *)

Lemma Union_two_intervals sym_lt a b :
  Union_new sym_lt [PSet (Interval a); PSet (Interval b)]
  = let '(c, n) := if key_lt sym_lt (start b) (start a) then (b, a)
                   else (a, b) in
    if should_merge c n then merge_pair c n
    else Ok (Union [Interval c; Interval n]).
Proof.
  unfold Union_new. simpl. unfold Union_build, Union_normalise. simpl.
  unfold sort_intervals, stable_sort. simpl.
  destruct (key_lt sym_lt (start b) (start a)); simpl.
  - destruct (should_merge b a); simpl; [|done].
    by destruct (merge_pair b a).
  - destruct (should_merge a b); simpl; [|done].
    by destruct (merge_pair a b).
Qed.

Lemma quantity_leb_sum_refl a b c d :
  is_comparable a = true → is_comparable b = true →
  is_comparable c = true → is_comparable d = true →
  num_ltb a b = true → num_ltb c d = true →
  quantity_leb (quantity_add (value_sub b a) (value_sub d c))
    (quantity_add (value_sub b a) (value_sub d c)) = true.
Proof. intros Ha Hb Hc Hd H1 H2. value_cases. Qed.

Lemma merged_measure c n :
  wf_interval c → wf_interval n → Interval_is_comparable c n = true →
  num_ltb (start n) (start c) = false →
  ∃ r m, (if should_merge c n then merge_pair c n
          else Ok (Union [Interval c; Interval n])) = Ok r
         ∧ measure r = Ok m
         ∧ quantity_leb m
             (quantity_add (value_sub (end_ c) (start c))
                (value_sub (end_ n) (start n))) = true
         ∧ (num_leb (end_ c) (start n) = true →
            m = quantity_add (value_sub (end_ c) (start c))
                  (value_sub (end_ n) (start n))).
Proof.
  intros Hc Hn Hcmp Hord.
  pose proof Hcmp as Hcmp'.
  apply Interval_is_comparable_true in Hcmp' as (Hsc & Hec & Hsn & Hen).
  assert (num_ltb (start c) (end_ c) = true) as Hltc.
  { apply wf_interval_lt; [done|]. unfold concrete. by rewrite Hsc, Hec. }
  assert (num_ltb (start n) (end_ n) = true) as Hltn.
  { apply wf_interval_lt; [done|]. unfold concrete. by rewrite Hsn, Hen. }
  destruct (should_merge c n) eqn:Hm.
  - destruct (merge_pair_Interval c n) as (j & Hj & _);
      [by apply wf_interval_proper..|done|].
    exists (Interval j), (value_sub (end_ j) (start j)).
    split; [done|]. split; [done|].
    apply should_merge_spec in Hm; [|done].
    unfold merge_pair, merged_right in Hj.
    destruct (num_ltb (end_ c) (end_ n)) eqn:Hlt.
    + apply Interval_new_fields in Hj as [-> ->]. split.
      * apply value_sub_overlap; try done.
        -- num_solve.
        -- destruct Hm as [Hm|[Hm _]]; num_solve.
        -- num_solve.
      * intros Hdis.
        assert (start n = end_ c) as Heq.
        { destruct Hm as [Hm|[Hm _]]; [|done]. exfalso. num_solve. }
        rewrite Heq. by apply value_sub_split.
    + assert (end_ j = end_ c ∧ start j = start c) as [-> ->].
      { destruct (num_ltb (end_ n) (end_ c));
          by apply Interval_new_fields in Hj as [-> ->]. }
      split.
      * by apply value_sub_inside.
      * intros Hdis. exfalso.
        destruct Hm as [Hm|[Hm _]]; num_solve.
  - exists (Union [Interval c; Interval n]),
      (quantity_add (value_sub (end_ c) (start c))
         (value_sub (end_ n) (start n))).
    split; [done|]. split; [|split; [|done]].
    + cbn -[quantity_add value_sub]. by rewrite quantity_add_0_l.
    + by apply quantity_leb_sum_refl.
Qed.

(** X21.  The union of two Interval objects with concrete end points has
    a measure, which is at most the sum of the measures of the two, and is
    this sum when one interval ends before the other starts. *)
Theorem measure_union (sym_lt : value → value → bool) (a b : interval) :
  wf_interval a → wf_interval b → Interval_is_comparable a b = true →
  ∃ r m ma mb,
    union sym_lt (Interval a) (Interval b) = Ok r
    ∧ measure r = Ok m
    ∧ measure (Interval a) = Ok ma ∧ measure (Interval b) = Ok mb
    ∧ quantity_leb m (quantity_add ma mb) = true
    ∧ (num_leb (end_ a) (start b) = true
       ∨ num_leb (end_ b) (start a) = true →
       m = quantity_add ma mb).
Proof.
  intros Ha Hb Hcmp.
  enough (∃ r m, union sym_lt (Interval a) (Interval b) = Ok r
                 ∧ measure r = Ok m
                 ∧ quantity_leb m
                     (quantity_add (value_sub (end_ a) (start a))
                        (value_sub (end_ b) (start b))) = true
                 ∧ (num_leb (end_ a) (start b) = true
                    ∨ num_leb (end_ b) (start a) = true →
                    m = quantity_add (value_sub (end_ a) (start a))
                          (value_sub (end_ b) (start b))))
    as (r & m & ? & ? & ? & ?).
  { by exists r, m, (value_sub (end_ a) (start a)),
      (value_sub (end_ b) (start b)). }
  unfold union, union_with. cbn [as_finite].
  rewrite Union_two_intervals.
  pose proof Hcmp as Hcmp'.
  apply Interval_is_comparable_true in Hcmp' as (Hsa & Hea & Hsb & Heb).
  assert (num_ltb (start a) (end_ a) = true) as Hlta.
  { apply wf_interval_lt; [done|]. unfold concrete. by rewrite Hsa, Hea. }
  assert (num_ltb (start b) (end_ b) = true) as Hltb.
  { apply wf_interval_lt; [done|]. unfold concrete. by rewrite Hsb, Heb. }
  rewrite key_lt_concrete by done.
  destruct (num_ltb (start b) (start a)) eqn:Hord.
  - destruct (merged_measure b a) as (r & m & Hr & Hm & Hle & Heq);
      try done.
    { by rewrite Interval_is_comparable_sym. }
    { num_solve. }
    exists r, m. split; [done|]. split; [done|].
    rewrite quantity_add_comm. split; [done|].
    intros [Hdis|Hdis]; [exfalso; num_solve|by apply Heq].
  - destruct (merged_measure a b) as (r & m & Hr & Hm & Hle & Heq);
      try done.
    exists r, m. split; [done|]. split; [done|]. split; [done|].
    intros [Hdis|Hdis]; [by apply Heq|exfalso; num_solve].
Qed.

Lemma measure_union_witness :
  ∃ r m ma mb,
    union unordered (Interval (iv 2 3 false false))
      (Interval (iv 0 1 false false)) = Ok r
    ∧ measure r = Ok m
    ∧ measure (Interval (iv 2 3 false false)) = Ok ma
    ∧ measure (Interval (iv 0 1 false false)) = Ok mb
    ∧ quantity_leb m (quantity_add ma mb) = true
    ∧ (num_leb (Int 3) (Int 0) = true ∨ num_leb (Int 1) (Int 2) = true →
       m = quantity_add ma mb).
Proof.
  apply (measure_union unordered (iv 2 3 false false) (iv 0 1 false false));
    reflexivity.
Defined.

(** ** The sum of the finite sets *)

Lemma sum_sets_finite mk more acc X :
  as_finite acc = Some X → X ≠ ∅ → Forall finite_arg more →
  ∃ f U, sum_sets (union_with mk) more acc = Ok f
         ∧ as_finite f = Some U ∧ U ≠ ∅
         ∧ ∀ x, x ∈ U ↔ x ∈ X ∨ ∃ s, s ∈ more ∧ mem x s.
Proof.
  revert acc X. induction more as [|s more IH]; intros acc X HX Hne Hmore.
  - exists acc, X. split; [done|]. split; [done|]. split; [done|].
    intros x. split; [by left|].
    intros [?|(s & ?%elem_of_nil & _)]; done.
  - apply Forall_cons in Hmore as [(Y & HY & HYne) Hmore].
    assert (union_with mk acc s = Ok (FiniteSet_new (elements (X ∪ Y))))
      as Hadd by (unfold union_with; by rewrite HX, HY).
    cbn [sum_sets]. rewrite Hadd. cbn [mbind result_bind].
    assert (X ∪ Y ≠ ∅) as Hne' by set_solver.
    destruct (IH (FiniteSet_new (elements (X ∪ Y))) (X ∪ Y))
      as (f & U & Hf & HU & HUne & Hmem); try done.
    { by apply as_finite_FiniteSet_new. }
    exists f, U. split; [done|]. split; [done|]. split; [done|].
    intros x. rewrite Hmem, elem_of_union. split.
    + intros [[?|Hy]|(t & Ht & Hm)]; [by left| |].
      * right. exists s. split; [left|]. by apply (mem_finite s Y).
      * right. exists t. split; [by right|done].
    + intros [?|(t & [->|Ht]%elem_of_cons & Hm)]; [by left; left| |].
      * left. right. by apply (mem_finite _ Y) in Hm.
      * right. eauto.
Qed.

(** ** The Union of intervals and finite sets *)

Lemma finite_args_elem f l :
  f ∈ finite_args l ↔ f ∈ l ∧ is_Some (as_finite f).
Proof.
  unfold finite_args. rewrite list_elem_of_omap. split.
  - intros (s & Hs & Hf). destruct s; try discriminate;
      injection Hf as <-; (split; [done|]); by eexists.
  - intros [Hf [X HX]]. exists f. split; [done|].
    by destruct f.
Qed.

Lemma classify_plain_args fuel l b :
  (queue_size (PSet <$> l) < fuel)%nat →
  Forall plain_arg l →
  classify fuel (PSet <$> l) b
  = Ok (mkBuckets (intervals b ++ interval_args l)
          (finite_sets b ++ finite_args l) (other_sets b)).
Proof.
  revert fuel b. induction l as [|s l IH]; intros fuel b Hf Hl.
  - destruct fuel, b; simpl; by rewrite !app_nil_r.
  - apply Forall_cons in Hl as [Hs Hl].
    destruct fuel as [|fuel]; [lia|].
    assert (queue_size (PSet <$> l) < fuel)%nat as Hf'.
    { pose proof (SetV_size_pos s).
      change (queue_size (PSet <$> s :: l))
        with (SetV_size s + queue_size (PSet <$> l))%nat in Hf. lia. }
    destruct Hs as [[->|(i & -> & _)]|(X & HX & _)].
    + cbn [fmap list_fmap classify]. by apply IH.
    + cbn [fmap list_fmap classify].
      change (list_fmap _ _ PSet l) with (PSet <$> l).
      rewrite IH by done. simpl. by rewrite <- app_assoc.
    + destruct s; try discriminate HX; cbn [fmap list_fmap classify];
        change (list_fmap _ _ PSet l) with (PSet <$> l);
        rewrite IH by done; simpl; by rewrite <- app_assoc.
Qed.

Lemma Union_build_finite sym_lt add b :
  finite_sets b ≠ [] →
  Union_build sym_lt add b = Union_normalise sym_lt add b.
Proof.
  unfold Union_build. by destruct (intervals b), (other_sets b), (finite_sets b).
Qed.

Lemma fmap_Interval_cons_inv cur tl js :
  Interval cur :: tl = Interval <$> js →
  ∃ js', js = cur :: js' ∧ tl = Interval <$> js'.
Proof.
  destruct js as [|j js']; [discriminate|].
  rewrite fmap_cons. intros [= -> ->]. eauto.
Qed.

Lemma merge_from_ends cur rest js :
  wf_interval cur → Forall wf_interval rest →
  merge_from (Interval cur) rest = Ok (Interval <$> js) →
  Forall (λ j, (∃ i, i ∈ cur :: rest ∧ start j = start i)
               ∧ (∃ i, i ∈ cur :: rest ∧ end_ j = end_ i)) js.
Proof.
  revert cur js. induction rest as [|next rest IH]; intros cur js Hc Hrest.
  - simpl. intros [= H].
    apply fmap_Interval_cons_inv in H as (js' & -> & H).
    symmetry in H. apply fmap_nil_inv in H as ->.
    constructor; [|constructor]. split; exists cur; split; (left || done).
  - apply Forall_cons in Hrest as [Hn Hrest]. simpl.
    destruct (should_merge cur next) eqn:Hm.
    + destruct (merge_pair_Interval cur next) as (j0 & Hj0 & _);
        [by apply wf_interval_proper..|done|].
      rewrite Hj0. simpl. intros H.
      assert (wf_interval j0) as Hw0.
      { unfold merge_pair in Hj0. destruct (merged_right cur next).
        by eapply Interval_new_result_wf. }
      assert (start j0 = start cur
              ∧ (end_ j0 = end_ cur ∨ end_ j0 = end_ next)) as [Hs0 He0].
      { unfold merge_pair, merged_right in Hj0.
        destruct (num_ltb (end_ cur) (end_ next));
          [|destruct (num_ltb (end_ next) (end_ cur))];
          apply Interval_new_fields in Hj0 as [-> ->]; auto. }
      eapply Forall_impl; [exact (IH j0 js Hw0 Hrest H)|].
      intros j [(i & Hi & Hsi) (i' & Hi' & Hei)]. split.
      * apply elem_of_cons in Hi as [->|Hi].
        -- exists cur. split; [left|congruence].
        -- exists i. split; [right; by right|done].
      * apply elem_of_cons in Hi' as [->|Hi'].
        -- destruct He0 as [He0|He0].
           ++ exists cur. split; [left|congruence].
           ++ exists next. split; [right; left|congruence].
        -- exists i'. split; [right; by right|done].
    + intros H. apply bind_Ok in H as (tl & Htl & [= H]).
      apply fmap_Interval_cons_inv in H as (js' & -> & ->).
      constructor.
      * split; exists cur; split; (left || done).
      * eapply Forall_impl; [exact (IH next js' Hn Hrest Htl)|].
        intros j [(i & Hi & Hsi) (i' & Hi' & Hei)].
        split; [exists i|exists i']; (split; [by right|done]).
Qed.

Lemma merge_sorted sym_lt (ivs : list interval) :
  Forall wf_interval ivs → Forall (λ i, concrete i = true) ivs →
  ∃ js, merge_intervals (sort_intervals sym_lt ivs) = Ok (Interval <$> js)
        ∧ Forall (λ j, concrete j = true
                       ∧ (∃ i, i ∈ ivs ∧ start j = start i)
                       ∧ (∃ i, i ∈ ivs ∧ end_ j = end_ i)) js
        ∧ ∀ x, (∃ j, j ∈ js ∧ inside j x) ↔ ∃ i, i ∈ ivs ∧ inside i x.
Proof.
  intros Hwf Hc.
  assert (Forall wf_interval (sort_intervals sym_lt ivs)) as Hswf
    by by apply sort_intervals_wf.
  assert (∀ i, i ∈ sort_intervals sym_lt ivs ↔ i ∈ ivs) as Hperm.
  { intros i. unfold sort_intervals. by rewrite stable_sort_perm. }
  destruct (merge_intervals_wf _ Hswf) as (js & Hm & Hjs).
  exists js. split; [done|]. split.
  - assert (Forall (λ j, (∃ i, i ∈ sort_intervals sym_lt ivs
                               ∧ start j = start i)
                         ∧ (∃ i, i ∈ sort_intervals sym_lt ivs
                                 ∧ end_ j = end_ i)) js) as Hends.
    { destruct (sort_intervals sym_lt ivs) as [|cur rest] eqn:Hsort.
      - simpl in Hm. injection Hm as Hm. symmetry in Hm.
        apply fmap_nil_inv in Hm as ->. constructor.
      - apply Forall_cons in Hswf as [Hcur Hrest].
        by apply (merge_from_ends cur rest js). }
    eapply Forall_impl; [exact Hends|].
    rewrite Forall_forall in Hc.
    intros j [(i & Hi%Hperm & Hsi) (i' & Hi'%Hperm & Hei)].
    split; [|split; eauto].
    unfold concrete. rewrite Hsi, Hei.
    pose proof (Hc _ Hi) as [? _]%andb_true_iff.
    pose proof (Hc _ Hi') as [_ ?]%andb_true_iff.
    by apply andb_true_iff.
  - intros x. split.
    + intros (j & Hj & Hin).
      destruct (merge_intervals_sound (sort_intervals sym_lt ivs)
                  (Interval <$> js) x) as [_ Hs]; [|exact Hm|].
      { apply forallb_elem_of. intros k Hk.
        rewrite Forall_forall in Hswf. by apply wf_interval_proper, Hswf. }
      destruct (Hs (Interval j)) as (k & Hk & Hkm);
        [by apply list_elem_of_fmap_2|by apply mem_Interval|].
      exists k. split; [by apply Hperm|by apply mem_Interval].
    + intros (i & Hi & Hin).
      destruct (merge_intervals_complete _ _ x Hswf
                  (sort_intervals_ascending sym_lt _
                     (Forall_impl _ _ _ Hc
                        (λ i Hi, proj1 (proj1 (andb_true_iff _ _) Hi)))) Hm)
        as (s & Hs & Hmem).
      { exists i. split; [by apply Hperm|done]. }
      apply list_elem_of_fmap in Hs as (j & -> & Hj).
      exists j. split; [done|]. by apply mem_Interval.
Qed.

Lemma close_unchanged fs U js :
  as_finite fs = Some U →
  Forall (λ j, (start j ∉ U) ∧ (end_ j ∉ U)) js →
  mapM (close_boundaries fs) (Interval <$> js) = Ok (Interval <$> js).
Proof.
  intros HU. induction 1 as [|j js [Hs He] _ IH]; [done|].
  rewrite fmap_cons. cbn [mapM].
  assert (close_boundaries fs (Interval j) = Ok (Interval j)) as ->.
  { unfold close_boundaries. simpl.
    rewrite !(contains_op_finite _ U _ HU).
    rewrite (bool_decide_eq_false_2 (start j ∈ U)),
      (bool_decide_eq_false_2 (end_ j ∈ U)) by done.
    by destruct (left_open j), (right_open j). }
  cbn [mbind result_bind].
  change (mapM (close_boundaries fs) (Interval <$> js)) with
    (mapM (close_boundaries fs) (Interval <$> js)).
  by rewrite IH.
Qed.

Lemma contains_op_concrete j x :
  concrete j = true → is_comparable x = true →
  ∃ b, contains_op (Interval j) x = Ok b.
Proof.
  intros [Hs He]%andb_true_iff Hx.
  unfold contains_op, contains, Interval_contains, gt, ge, lt, le,
    both_comparable.
  rewrite Hx, Hs, He. simpl.
  destruct (left_open j), (right_open j); simpl;
    repeat match goal with
    | |- context [num_ltb ?a ?b] => destruct (num_ltb a b)
    | |- context [num_leb ?a ?b] => destruct (num_leb a b)
    end; simpl; eauto.
Qed.

Lemma any_contains_intervals js el :
  Forall (λ j, concrete j = true) js → is_comparable el = true →
  ∃ b, any_contains el (Interval <$> js) = Ok b
       ∧ (b = true → ∃ j, j ∈ js ∧ inside j el).
Proof.
  intros Hjs Hel. induction Hjs as [|j js Hj _ (b & Hb & Hin)].
  - exists false. split; [done|discriminate].
  - rewrite fmap_cons. cbn [any_contains].
    destruct (contains_op_concrete j el Hj Hel) as [c Hc]. rewrite Hc.
    cbn [mbind result_bind]. destruct c.
    + exists true. split; [done|]. intros _. exists j. split; [left|].
      by apply mem_Interval.
    + exists b. split; [done|]. intros Hbt.
      destruct (Hin Hbt) as (k & Hk & Hkin). exists k. split; [by right|done].
Qed.

Lemma not_covered_intervals js el :
  Forall (λ j, concrete j = true) js →
  ∃ b, not_covered (Interval <$> js) el = Ok b
       ∧ (b = false → ∃ j, j ∈ js ∧ inside j el).
Proof.
  intros Hjs. unfold not_covered, is_number.
  destruct (is_comparable el) eqn:Hel; simpl.
  - destruct (any_contains_intervals js el Hjs Hel) as (b & -> & Hb).
    exists (negb b). split; [done|]. intros ?%negb_false_iff. by apply Hb.
  - exists true. split; [done|discriminate].
Qed.

Lemma filterM_total {A} (p : A → result bool) l :
  (∀ x, x ∈ l → ∃ b, p x = Ok b) → ∃ k, filterM p l = Ok k.
Proof.
  induction l as [|y l IH]; intros Hall; simpl; [eauto|].
  destruct (Hall y) as [b ->]; [left|].
  destruct IH as [k ->]; [intros x Hx; apply Hall; by right|].
  simpl. eauto.
Qed.

Lemma set_len_FiniteSet_new_pos kept :
  ∃ n, set_len (FiniteSet_new kept) = Ok n
       ∧ (kept ≠ [] → (0 <? n)%nat = true).
Proof.
  unfold FiniteSet_new, SingletonSet_new.
  destruct kept as [|a [|b l]].
  - by exists 0%nat.
  - destruct (is_number a).
    + by exists 1%nat.
    + exists (size (list_to_set [a] : gset value)). split; [done|].
      intros _. apply Nat.ltb_lt.
      assert (size (list_to_set [a] : gset value) ≠ 0%nat); [|lia].
      apply size_non_empty_iff. set_solver.
  - exists (size (list_to_set (a :: b :: l) : gset value)). split; [done|].
    intros _. apply Nat.ltb_lt.
    assert (size (list_to_set (a :: b :: l) : gset value) ≠ 0%nat); [|lia].
    apply size_non_empty_iff. set_solver.
Qed.

Lemma FiniteSet_new_pure l : is_pure (FiniteSet_new l) = true.
Proof.
  unfold FiniteSet_new, SingletonSet_new.
  destruct l as [|a [|b l]]; try done. by destruct (is_number a).
Qed.

Lemma collapse_mem_iff x ivs others :
  forallb is_pure (ivs ++ others) = true →
  mem x (collapse ivs others) ↔ ∃ s, s ∈ ivs ++ others ∧ mem x s.
Proof.
  intros Hp. split; [apply collapse_mem|].
  intros (s & Hs & Hm).
  destruct (collapse_cases ivs others) as [(s' & -> & Hone)| ->].
  - rewrite Hone in Hs. by apply list_elem_of_singleton in Hs as ->.
  - apply mem_Union. eauto.
Qed.

Lemma Union_new_plain_args sym_lt (l : list SetV) :
  Forall plain_arg l → off_boundaries l →
  ∃ r, Union_new sym_lt (PSet <$> l) = Ok r
       ∧ ∀ x, mem x r ↔ ∃ s, s ∈ l ∧ mem x s.
Proof.
  intros Hl Hoff.
  destruct (finite_args l) as [|first more] eqn:Hfs.
  { apply Union_new_interval_args. apply Forall_forall. intros s Hs.
    rewrite Forall_forall in Hl. destruct (Hl s Hs) as [?|(X & HX & _)];
      [done|].
    assert (s ∈ finite_args l) as Hin
      by (apply finite_args_elem; split; [done|by eexists]).
    rewrite Hfs in Hin. by apply elem_of_nil in Hin. }
  assert (Forall wf_interval (interval_args l)
          ∧ Forall (λ i, concrete i = true) (interval_args l)) as [Hwf Hc].
  { rewrite Forall_forall in Hl. split; apply Forall_forall;
      intros i Hi%interval_args_elem;
      destruct (Hl _ Hi) as [[?|(j & [= <-] & ? & ?)]|(X & HX & _)];
      done. }
  assert (Forall finite_arg (first :: more)) as Hfin.
  { rewrite <- Hfs. apply Forall_forall.
    intros f [Hf [X HX]]%finite_args_elem.
    rewrite Forall_forall in Hl.
    destruct (Hl _ Hf) as [[->|(j & -> & _)]|?]; done. }
  unfold Union_new.
  change (Union_fuel sym_lt 2 (PSet <$> l)) with
    (classify (S (queue_size (PSet <$> l))) (PSet <$> l) (mkBuckets [] [] [])
     ≫= Union_build sym_lt (union_with (Union_fuel sym_lt 1))).
  rewrite classify_plain_args by (done || lia).
  cbn [mbind result_bind intervals finite_sets other_sets app].
  rewrite Union_build_finite by (cbn [finite_sets]; by rewrite Hfs).
  unfold Union_normalise, absorb_finite.
  cbn [intervals finite_sets other_sets]. rewrite Hfs.
  destruct (merge_sorted sym_lt (interval_args l) Hwf Hc)
    as (js & Hm & Hends & Hjs).
  rewrite Hm. cbn [mbind result_bind].
  apply Forall_cons in Hfin as [(X & HX & Hne) Hmore].
  destruct (sum_sets_finite (Union_fuel sym_lt 1) more first X HX Hne Hmore)
    as (f & U & Hf & HU & HUne & HUmem).
  rewrite Hf. cbn [mbind result_bind].
  assert (∀ x, x ∈ U ↔ ∃ s, s ∈ l ∧ is_Some (as_finite s) ∧ mem x s)
    as HUl.
  { intros x. rewrite HUmem. split.
    - intros [Hx|(s & Hs & Hmx)].
      + exists first. assert (first ∈ finite_args l) as Hin
          by (rewrite Hfs; left).
        apply finite_args_elem in Hin as [? ?].
        split; [done|]. split; [done|]. by apply (mem_finite first X).
      + exists s. assert (s ∈ finite_args l) as Hin
          by (rewrite Hfs; by right).
        by apply finite_args_elem in Hin as [? ?].
    - intros (s & Hs & Hfs' & Hmx).
      assert (s ∈ first :: more) as Hin
        by (rewrite <- Hfs; by apply finite_args_elem).
      apply elem_of_cons in Hin as [->|Hin].
      + left. by apply (mem_finite first X).
      + right. eauto. }
  rewrite (close_unchanged f U js HU).
  2:{ eapply Forall_impl; [exact Hends|].
      intros j (_ & (i & Hi%interval_args_elem & Hsi)
                & (i' & Hi'%interval_args_elem & Hei)).
      rewrite Hsi, Hei. split.
      - intros (s & Hs & [Y HY] & Hmx)%HUl.
        apply (mem_finite s Y) in Hmx; [|done].
        by destruct (Hoff i s Y Hi Hs HY).
      - intros (s & Hs & [Y HY] & Hmx)%HUl.
        apply (mem_finite s Y) in Hmx; [|done].
        by destruct (Hoff i' s Y Hi' Hs HY). }
  cbn [mbind result_bind]. unfold iter_elements. rewrite HU.
  cbn [mbind result_bind].
  assert (Forall (λ j, concrete j = true) js) as Hcj.
  { eapply Forall_impl; [exact Hends|]. by intros j [? _]. }
  destruct (filterM_total (not_covered (Interval <$> js)) (elements U))
    as [kept Hkept].
  { intros x _. destruct (not_covered_intervals js x Hcj) as (b & ? & _).
    eauto. }
  rewrite Hkept. cbn [mbind result_bind].
  destruct (set_len_FiniteSet_new_pos kept) as (n & Hn & Hpos).
  rewrite Hn. cbn [mbind result_bind fst snd app].
  apply filterM_Ok in Hkept as [_ Hkmem].
  eexists. split; [done|]. intros x.
  rewrite collapse_mem_iff.
  2:{ apply forallb_elem_of. intros s [Hs|Hs]%elem_of_app.
      - by apply list_elem_of_fmap in Hs as (j & -> & _).
      - destruct (0 <? n)%nat; [|by apply elem_of_nil in Hs].
        apply list_elem_of_singleton in Hs as ->. apply FiniteSet_new_pure. }
  split.
  - intros (s & [Hs|Hs]%elem_of_app & Hmx).
    + apply list_elem_of_fmap in Hs as (j & -> & Hj).
      apply mem_Interval in Hmx.
      destruct (proj1 (Hjs x)) as (i & Hi%interval_args_elem & Hin); [eauto|].
      exists (Interval i). split; [done|]. by apply mem_Interval.
    + destruct (0 <? n)%nat; [|by apply elem_of_nil in Hs].
      apply list_elem_of_singleton in Hs as ->.
      apply mem_FiniteSet_new, Hkmem in Hmx as [Hx _].
      apply elem_of_elements, HUl in Hx as (s & Hs & _ & Hmx). eauto.
  - intros (s & Hs & Hmx).
    rewrite Forall_forall in Hl.
    destruct (Hl s Hs) as [[->|(i & -> & _)]|(Y & HY & _)].
    + by apply mem_EmptySet in Hmx.
    + apply mem_Interval in Hmx.
      destruct (proj2 (Hjs x)) as (j & Hj & Hin).
      { exists i. split; [by apply interval_args_elem|done]. }
      exists (Interval j). split; [|by apply mem_Interval].
      apply elem_of_app. left. by apply list_elem_of_fmap_2.
    + assert (x ∈ U) as HxU.
      { apply HUl. exists s. split; [done|]. split; [by eexists|done]. }
      destruct (not_covered_intervals js x Hcj) as (b & Hb & Hcov).
      destruct b.
      * assert (x ∈ kept) as Hk.
        { apply Hkmem. split; [by apply elem_of_elements|done]. }
        rewrite Hpos by (intros ->; by apply elem_of_nil in Hk).
        exists (FiniteSet_new kept). split.
        -- apply elem_of_app. right. left.
        -- by apply mem_FiniteSet_new.
      * destruct (Hcov eq_refl) as (j & Hj & Hin).
        exists (Interval j). split; [|by apply mem_Interval].
        apply elem_of_app. left. by apply list_elem_of_fmap_2.
Qed.

(** X22.  On Interval objects with concrete end points, finite sets and
    empty sets, when no element of a finite set is an end point of one of
    the intervals, the Union constructor is exact: a set is returned, and
    a value is in it exactly when it is in one of the arguments. *)
Theorem Union_exact_off_boundaries (sym_lt : value → value → bool)
  (l : list SetV) :
  Forall plain_arg l → off_boundaries l →
  ∃ r, Union_new sym_lt (PSet <$> l) = Ok r
       ∧ ∀ x, mem x r ↔ ∃ s, s ∈ l ∧ mem x s.
Proof. apply Union_new_plain_args. Qed.

Lemma Union_exact_off_boundaries_witness :
  ∃ r, Union_new unordered
         (PSet <$> [FiniteSet {[ Int 1; Int 7 ]}; Interval (iv 2 3 true true);
                    SingletonSet (Int 9); Interval (iv 0 2 false false)])
       = Ok r
       ∧ ∀ x, mem x r
              ↔ ∃ s, s ∈ [FiniteSet {[ Int 1; Int 7 ]};
                          Interval (iv 2 3 true true);
                          SingletonSet (Int 9);
                          Interval (iv 0 2 false false)] ∧ mem x s.
Proof.
  apply (Union_exact_off_boundaries unordered).
  - constructor.
    { right. exists {[ Int 1; Int 7 ]}. split; [reflexivity|].
      apply (bool_decide_unpack _). vm_compute. exact I. }
    constructor; [left; right; by exists (iv 2 3 true true)|].
    constructor.
    { right. exists {[ Int 9 ]}. split; [reflexivity|].
      apply (bool_decide_unpack _). vm_compute. exact I. }
    constructor; [left; right; by exists (iv 0 2 false false)|].
    constructor.
  - intros i f X Hi Hf HX.
    repeat (apply elem_of_cons in Hi as [Hi|Hi]; [try discriminate Hi|]);
      try (by apply elem_of_nil in Hi);
      injection Hi as ->;
      repeat (apply elem_of_cons in Hf as [->|Hf];
              [try discriminate HX|]);
      try (by apply elem_of_nil in Hf);
      injection HX as <-; split;
      apply (bool_decide_unpack _); vm_compute; exact I.
Defined.

(** ** The subset test *)

Lemma Interval_new_flags s e lo ro j :
  Interval_new s e lo ro = Ok (Interval j) →
  left_open j = (if bool_decide (s = NegativeInfinity) then true else lo)
  ∧ right_open j = (if bool_decide (e = Infinity) then true else ro).
Proof.
  unfold Interval_new, SingletonSet_new.
  repeat match goal with
  | |- (if ?c then _ else _) = _ → _ => destruct c
  end; try discriminate. by intros [= <-].
Qed.

Lemma Interval_intersect_Ok rec a b :
  Interval_is_comparable a b = true →
  ∃ r, Interval_intersect rec a (Interval b) = Ok r.
Proof.
  intros Hc. unfold Interval_intersect. cbn [as_interval].
  rewrite Hc. simpl.
  apply Interval_is_comparable_true in Hc as (? & ? & ? & ?).
  destruct (num_leb (start a) (end_ b) && num_leb (start b) (end_ a));
    [|eauto].
  unfold intersect_left, intersect_right.
  repeat match goal with
  | |- context [if ?c then (_, _) else _] => destruct c
  end;
  match goal with
  | |- ∃ r, (if ?c then _ else _) = _ => destruct c; [eauto|]
  end; apply Interval_new_Ok; by apply comparable_real.
Qed.

Lemma within_intersect rec a b :
  wf_interval a → wf_interval b → Interval_is_comparable a b = true →
  within b a = true →
  Interval_intersect rec a (Interval b) = Ok (Interval b).
Proof.
  intros Ha Hb Hc Hw. unfold Interval_intersect. cbn [as_interval].
  rewrite Hc. simpl.
  pose proof Hc as Hc'.
  apply Interval_is_comparable_true in Hc' as (Hsa & Hea & Hsb & Heb).
  assert (num_ltb (start a) (end_ a) = true) as Hlta.
  { apply wf_interval_lt; [done|]. unfold concrete. by rewrite Hsa, Hea. }
  assert (num_ltb (start b) (end_ b) = true) as Hltb.
  { apply wf_interval_lt; [done|]. unfold concrete. by rewrite Hsb, Heb. }
  apply andb_true_iff in Hw as [Hl Hr].
  assert (num_leb (start a) (end_ b) && num_leb (start b) (end_ a) = true)
    as ->.
  { apply andb_true_iff. split.
    - apply orb_true_iff in Hl as [Hl|[Hl _]%andb_true_iff]; num_solve.
    - apply orb_true_iff in Hr as [Hr|[Hr _]%andb_true_iff]; num_solve. }
  assert (intersect_left a b = (start b, left_open b)) as ->.
  { unfold intersect_left.
    apply orb_true_iff in Hl as [Hl|[Heq Himp]%andb_true_iff].
    - by rewrite Hl.
    - apply bool_decide_eq_true in Heq. rewrite Heq, num_ltb_irrefl.
      f_equal. by destruct (left_open a), (left_open b). }
  assert (intersect_right a b = (end_ b, right_open b)) as ->.
  { unfold intersect_right.
    apply orb_true_iff in Hr as [Hr|[Heq Himp]%andb_true_iff].
    - assert (num_ltb (end_ a) (end_ b) = false) as -> by num_solve.
      by rewrite Hr.
    - apply bool_decide_eq_true in Heq. rewrite Heq, num_ltb_irrefl.
      f_equal. by destruct (right_open a), (right_open b). }
  destruct (diff_is_zero (end_ b) (start b)) eqn:Hz.
  { apply diff_is_zero_eq in Hz. rewrite Hz, num_ltb_irrefl in Hltb.
    discriminate. }
  done.
Qed.

Lemma intersect_within rec a b :
  wf_interval a → wf_interval b → Interval_is_comparable a b = true →
  Interval_intersect rec a (Interval b) = Ok (Interval b) →
  within b a = true.
Proof.
  intros Ha Hb Hc. unfold Interval_intersect. cbn [as_interval].
  rewrite Hc. simpl.
  pose proof Hc as Hc'.
  apply Interval_is_comparable_true in Hc' as (Hsa & Hea & Hsb & Heb).
  apply wf_interval_spec in Ha as (_ & _ & _ & _ & Hia & Hja).
  apply wf_interval_spec in Hb as (_ & _ & _ & _ & Hib & Hjb).
  destruct (num_leb (start a) (end_ b) && num_leb (start b) (end_ a));
    [|discriminate].
  destruct (intersect_left a b) as [s lo] eqn:Hl.
  destruct (intersect_right a b) as [e ro] eqn:Hr.
  destruct (diff_is_zero e s && (lo || ro)); [discriminate|].
  intros Hnew.
  destruct (Interval_new_fields _ _ _ _ _ Hnew) as [Hs He].
  destruct (Interval_new_flags _ _ _ _ _ Hnew) as [Hlo Hro].
  subst s e. unfold within. apply andb_true_iff. split.
  - unfold intersect_left in Hl.
    destruct (num_ltb (start a) (start b)) eqn:Hab; [done|].
    destruct (num_ltb (start b) (start a)) eqn:Hba;
      injection Hl as Hl1 Hl2.
    + rewrite Hl1, num_ltb_irrefl in Hba. discriminate.
    + simpl. rewrite Hl1, bool_decide_eq_true_2 by done. simpl.
      subst lo. destruct (left_open a); [|done]. simpl in Hlo.
      by destruct (bool_decide (start b = NegativeInfinity)).
  - unfold intersect_right in Hr.
    destruct (num_ltb (end_ a) (end_ b)) eqn:Hab;
      [|destruct (num_ltb (end_ b) (end_ a)) eqn:Hba; [done|]];
      injection Hr as Hr1 Hr2.
    + rewrite <- Hr1, num_ltb_irrefl in Hab. discriminate.
    + simpl. rewrite Hr1, bool_decide_eq_true_2 by done. simpl.
      subst ro. destruct (right_open a); [|done]. simpl in Hro.
      by destruct (bool_decide (end_ b = Infinity)).
Qed.

(** X23.  On two Interval objects, [a.subset(b)] raises
    NotImplementedError when an end point is symbolic; with concrete end
    points it is decided by them: it is [True] exactly when [b] starts at
    or after the start of [a] and ends at or before its end, open where
    [a] is open at a shared end point. *)
Theorem subset_Interval_exact (sym_lt : value → value → bool)
  (a b : interval) :
  wf_interval a → wf_interval b →
  subset sym_lt (Interval a) (PSet (Interval b))
  = if Interval_is_comparable a b then Ok (within b a)
    else Err NotImplementedError.
Proof.
  intros Ha Hb. unfold subset, intersect. rewrite intersect_fuel_S.
  destruct (Interval_is_comparable a b) eqn:Hc.
  - destruct (Interval_intersect_Ok
                (intersect_fuel sym_lt (intersect_measure (Interval a)
                                          (Interval b))) a b Hc) as [r Hr].
    rewrite Hr. cbn [mbind result_bind]. f_equal.
    destruct (within b a) eqn:Hw.
    + rewrite (within_intersect _ a b Ha Hb Hc Hw) in Hr.
      injection Hr as <-. simpl. by rewrite bool_decide_eq_true_2.
    + destruct (set_eqb r (Interval b)) eqn:Heq; [|done].
      assert (r = Interval b) as ->.
      { destruct r; try discriminate Heq. simpl in Heq.
        by apply bool_decide_eq_true in Heq as ->. }
      rewrite (intersect_within _ a b Ha Hb Hc Hr) in Hw. discriminate.
  - unfold Interval_intersect. cbn [as_interval]. by rewrite Hc.
Qed.

Lemma subset_Interval_exact_witness :
  subset unordered (Interval (iv 0 5 false true))
    (PSet (Interval (iv 0 5 true true))) = Ok true
  ∧ subset unordered (Interval (iv 0 5 true true))
      (PSet (Interval (iv 0 5 false true))) = Ok false
  ∧ subset unordered (Interval (iv 0 5 true true))
      (PSet (Interval (mkInterval (Int 0) (Symbol "a" true) false false)))
    = Err NotImplementedError.
Proof.
  split; [|split].
  - apply (subset_Interval_exact unordered (iv 0 5 false true)
             (iv 0 5 true true)); reflexivity.
  - apply (subset_Interval_exact unordered (iv 0 5 true true)
             (iv 0 5 false true)); reflexivity.
  - apply (subset_Interval_exact unordered (iv 0 5 true true)
             (mkInterval (Int 0) (Symbol "a" true) false false));
      reflexivity.
Defined.

(** X24.  On two finite sets, [f.subset(g)] with [g] not empty is [True]
    exactly when every element of [g] is an element of [f]; the classes of
    the two, FiniteSet or SingletonSet, do not matter. *)
Theorem subset_finite_exact (sym_lt : value → value → bool)
  (f g : SetV) (X Y : gset value) :
  as_finite f = Some X → as_finite g = Some Y → Y ≠ ∅ →
  subset sym_lt f (PSet g) = Ok (bool_decide (Y ⊆ X)).
Proof.
  intros HX HY Hne. unfold subset.
  rewrite (intersect_finite_left _ _ _ X HX). unfold FiniteSet_intersect.
  rewrite HY. cbn [mbind result_bind]. f_equal.
  destruct (decide (Y ⊆ X)) as [Hsub|Hsub].
  - rewrite (bool_decide_eq_true_2 (Y ⊆ X)) by done.
    assert (X ∩ Y = Y) as -> by set_solver.
    pose proof (as_finite_FiniteSet_new Y Hne) as Hf.
    destruct (FiniteSet_new (elements Y)), g; try discriminate;
      cbn [set_eqb]; rewrite Hf, HY; by apply bool_decide_eq_true.
  - rewrite (bool_decide_eq_false_2 (Y ⊆ X)) by done.
    destruct (decide (X ∩ Y = ∅)) as [He|He].
    + rewrite He, elements_empty. simpl. by destruct g.
    + pose proof (as_finite_FiniteSet_new (X ∩ Y) He) as Hf.
      destruct (FiniteSet_new (elements (X ∩ Y))), g; try discriminate;
        cbn [set_eqb]; rewrite Hf, HY; apply bool_decide_eq_false;
        intros [= Heq]; apply Hsub; set_solver.
Qed.

Lemma subset_finite_exact_witness :
  subset unordered (FiniteSet {[ Int 1; Int 2 ]}) (PSet (SingletonSet (Int 2)))
  = Ok (bool_decide (({[ Int 2 ]} : gset value) ⊆ {[ Int 1; Int 2 ]})).
Proof.
  apply (subset_finite_exact unordered (FiniteSet {[ Int 1; Int 2 ]})
           (SingletonSet (Int 2))).
  - reflexivity.
  - reflexivity.
  - apply (bool_decide_unpack _). vm_compute. exact I.
Defined.

(** ** The complement of an interval, and back *)

Lemma Interval_new_same s lo ro :
  is_real s = true → lo || ro = true →
  Interval_new s s lo ro = Ok EmptySet.
Proof.
  intros Hs Hf. unfold Interval_new. rewrite Hs. simpl.
  rewrite num_ltb_irrefl, andb_false_r, bool_decide_eq_true_2 by done.
  by rewrite Hf.
Qed.

Lemma Union_new_single sym_lt i :
  Union_new sym_lt [PSet (Interval i)] = Ok (Interval i).
Proof. done. Qed.

Lemma Union_new_nothing sym_lt :
  Union_new sym_lt [PSet EmptySet; PSet EmptySet] = Ok EmptySet.
Proof. done. Qed.

Lemma Union_new_skip_l sym_lt s :
  Union_new sym_lt [PSet EmptySet; PSet s] = Union_new sym_lt [PSet s].
Proof. apply (Union_new_skip sym_lt [] [PSet s]). Qed.

Lemma Union_new_skip_r sym_lt s :
  Union_new sym_lt [PSet s; PSet EmptySet] = Union_new sym_lt [PSet s].
Proof. apply (Union_new_skip sym_lt [PSet s] []). Qed.

Lemma wf_below b :
  wf_interval b → concrete b = true → start b ≠ NegativeInfinity →
  wf_interval (mkInterval NegativeInfinity (start b) true
                 (negb (left_open b))).
Proof.
  intros Hb [Hs He]%andb_true_iff Hne. apply wf_interval_spec. simpl.
  rewrite (comparable_real _ Hs), Hs, num_ltb_NegativeInfinity.
  split_and!; try done.
  intros Heq. pose proof (wf_interval_lt b Hb) as Hlt.
  rewrite Heq, num_ltb_Infinity in Hlt. unfold concrete in Hlt.
  rewrite Heq, He in Hlt. by specialize (Hlt eq_refl).
Qed.

Lemma wf_above b :
  wf_interval b → concrete b = true → end_ b ≠ Infinity →
  wf_interval (mkInterval (end_ b) Infinity (negb (right_open b)) true).
Proof.
  intros Hb [Hs He]%andb_true_iff Hne. apply wf_interval_spec. simpl.
  rewrite (comparable_real _ He), He, num_ltb_Infinity.
  split_and!; try done.
  intros Heq. pose proof (wf_interval_lt b Hb) as Hlt.
  rewrite Heq, num_ltb_NegativeInfinity in Hlt. unfold concrete in Hlt.
  rewrite Heq, Hs in Hlt. by specialize (Hlt eq_refl).
Qed.

Lemma Interval_complement_parts sym_lt b :
  wf_interval b → concrete b = true →
  complement sym_lt (Interval b) = Ok (complement_parts b).
Proof.
  intros Hb Hc. cbn [complement]. unfold Interval_complement, complement_parts.
  pose proof (wf_interval_lt b Hb Hc) as Hlt.
  pose proof Hc as [Hs He]%andb_true_iff.
  destruct (decide (start b = NegativeInfinity)) as [Hsb|Hsb];
    destruct (decide (end_ b = Infinity)) as [Heb|Heb].
  - rewrite !bool_decide_eq_true_2 by done. rewrite Hsb, Heb.
    rewrite (Interval_new_same NegativeInfinity true) by done.
    rewrite (Interval_new_same Infinity _ true); [done..|apply orb_true_r].
  - rewrite bool_decide_eq_true_2, (bool_decide_eq_false_2 (end_ b = Infinity))
      by done.
    rewrite Hsb, Interval_new_same by done. cbn [mbind result_bind].
    rewrite (Interval_new_wf _ _ _ _ (wf_above b Hb Hc Heb)).
    cbn [mbind result_bind].
    by rewrite Union_new_skip_l.
  - rewrite (bool_decide_eq_false_2 (start b = NegativeInfinity)),
      bool_decide_eq_true_2 by done.
    rewrite (Interval_new_wf _ _ _ _ (wf_below b Hb Hc Hsb)).
    cbn [mbind result_bind].
    rewrite Heb, (Interval_new_same Infinity _ true);
      [|done|apply orb_true_r].
    cbn [mbind result_bind].
    by rewrite Union_new_skip_r.
  - rewrite (bool_decide_eq_false_2 (start b = NegativeInfinity)),
      (bool_decide_eq_false_2 (end_ b = Infinity)) by done.
    rewrite (Interval_new_wf _ _ _ _ (wf_below b Hb Hc Hsb)).
    cbn [mbind result_bind].
    rewrite (Interval_new_wf _ _ _ _ (wf_above b Hb Hc Heb)).
    cbn [mbind result_bind].
    rewrite Union_two_intervals. cbn [start end_].
    rewrite key_lt_concrete, num_ltb_NegativeInfinity by done.
    unfold should_merge, Interval_is_comparable. cbn [start end_].
    rewrite Hs, He. simpl.
    assert (num_ltb (end_ b) (start b) = false) as -> by num_solve.
    rewrite bool_decide_eq_false_2; [done|].
    intros Heq. rewrite Heq, num_ltb_irrefl in Hlt. discriminate.
Qed.

Lemma complement_Union2 sym_lt s1 s2 :
  complement sym_lt (Union [s1; s2])
  = (c1 ← complement sym_lt s1;
     c2 ← complement sym_lt s2;
     intersect sym_lt c1 c2).
Proof.
  cbn [complement]. destruct (complement sym_lt s1) as [c1|]; [|done].
  cbn [mbind result_bind].
  destruct (complement sym_lt s2) as [c2|]; [|done].
  cbn [mbind result_bind]. by destruct (intersect sym_lt c1 c2).
Qed.

Lemma num_ltb_NegativeInfinity_l v :
  is_comparable v = true → v ≠ NegativeInfinity →
  num_ltb NegativeInfinity v = true.
Proof. by destruct v. Qed.

Lemma num_ltb_Infinity_r v :
  is_comparable v = true → v ≠ Infinity → num_ltb v Infinity = true.
Proof. by destruct v. Qed.

(** X25.  The complement of the complement of an Interval object with
    concrete end points is the interval itself. *)
Theorem double_complement_Interval (sym_lt : value → value → bool)
  (b : interval) :
  wf_interval b → concrete b = true →
  complement sym_lt (Interval b) ≫= complement sym_lt = Ok (Interval b).
Proof.
  intros Hb Hc. rewrite (Interval_complement_parts sym_lt b Hb Hc).
  cbn [mbind result_bind]. unfold complement_parts.
  pose proof (wf_interval_lt b Hb Hc) as Hlt.
  pose proof Hc as [Hs He]%andb_true_iff.
  pose proof Hb as (_ & _ & _ & _ & Hlo & Hro)%wf_interval_spec.
  assert (start b ≠ Infinity) as Hsi.
  { intros Heq. rewrite Heq, num_ltb_Infinity in Hlt. discriminate. }
  assert (end_ b ≠ NegativeInfinity) as Hei.
  { intros Heq. rewrite Heq, num_ltb_NegativeInfinity in Hlt. discriminate. }
  destruct (decide (start b = NegativeInfinity)) as [Hsb|Hsb];
    destruct (decide (end_ b = Infinity)) as [Heb|Heb].
  - rewrite !bool_decide_eq_true_2 by done.
    destruct b as [s e lo ro]; simpl in *. subst s e.
    by rewrite Hlo, Hro.
  - rewrite bool_decide_eq_true_2, (bool_decide_eq_false_2 (end_ b = Infinity))
      by done.
    rewrite (Interval_complement_parts sym_lt _ (wf_above b Hb Hc Heb))
      by (unfold concrete; simpl; by rewrite He).
    unfold complement_parts. cbn [start end_ left_open right_open].
    rewrite (bool_decide_eq_false_2 (end_ b = NegativeInfinity)),
      bool_decide_eq_true_2 by done.
    rewrite negb_involutive.
    destruct b as [s e lo ro]; simpl in *. subst s. by rewrite Hlo.
  - rewrite (bool_decide_eq_false_2 (start b = NegativeInfinity)),
      bool_decide_eq_true_2 by done.
    rewrite (Interval_complement_parts sym_lt _ (wf_below b Hb Hc Hsb))
      by (unfold concrete; simpl; by rewrite Hs).
    unfold complement_parts. cbn [start end_ left_open right_open].
    rewrite bool_decide_eq_true_2,
      (bool_decide_eq_false_2 (start b = Infinity)) by done.
    rewrite negb_involutive.
    destruct b as [s e lo ro]; simpl in *. subst e. by rewrite Hro.
  - rewrite (bool_decide_eq_false_2 (start b = NegativeInfinity)),
      (bool_decide_eq_false_2 (end_ b = Infinity)) by done.
    rewrite complement_Union2.
    rewrite (Interval_complement_parts sym_lt _ (wf_below b Hb Hc Hsb))
      by (unfold concrete; simpl; by rewrite Hs).
    rewrite (Interval_complement_parts sym_lt _ (wf_above b Hb Hc Heb))
      by (unfold concrete; simpl; by rewrite He).
    cbn [mbind result_bind]. unfold complement_parts.
    cbn [start end_ left_open right_open].
    rewrite bool_decide_eq_true_2,
      (bool_decide_eq_false_2 (start b = Infinity)),
      (bool_decide_eq_false_2 (end_ b = NegativeInfinity)),
      bool_decide_eq_true_2 by done.
    rewrite !negb_involutive.
    unfold intersect. rewrite intersect_fuel_S.
    unfold Interval_intersect, Interval_is_comparable.
    cbn [as_interval start end_ left_open right_open].
    rewrite Hs, He. simpl.
    unfold intersect_left, intersect_right.
    cbn [start end_ left_open right_open].
    rewrite num_ltb_NegativeInfinity, num_ltb_Infinity.
    rewrite num_ltb_NegativeInfinity_l, num_ltb_Infinity_r by done.
    assert (num_leb (start b) (end_ b) = true) as -> by num_solve.
    cbn [andb num_leb num_ltb rank mag negb Z.ltb Z.eqb Z.compare orb].
    destruct (diff_is_zero (end_ b) (start b)) eqn:Hz.
    { apply diff_is_zero_eq in Hz. rewrite Hz, num_ltb_irrefl in Hlt.
      discriminate. }
    simpl. exact Hb.
Qed.

Lemma double_complement_Interval_witness :
  complement unordered (Interval (iv 0 1 false true))
  ≫= complement unordered = Ok (Interval (iv 0 1 false true)).
Proof.
  apply (double_complement_Interval unordered (iv 0 1 false true));
    reflexivity.
Defined.

(** ** The difference of two intervals *)

Lemma outside_parts b z :
  concrete b = true →
  inside (mkInterval NegativeInfinity (start b) true (negb (left_open b)))
    (Int z)
  ∨ inside (mkInterval (end_ b) Infinity (negb (right_open b)) true) (Int z)
  ↔ ¬ inside b (Int z).
Proof.
  unfold concrete, inside. destruct b as [s e lo ro]. cbn [start end_
    left_open right_open].
  destruct s, e; try discriminate; intros _; destruct lo, ro;
    unfold num_leb, num_ltb; simpl;
    rewrite ?negb_true_iff, ?Z.ltb_lt, ?Z.ltb_ge;
    intuition (try discriminate; try lia).
Qed.

Lemma Interval_intersect_piece rec a b r :
  wf_interval a → wf_interval b → Interval_is_comparable a b = true →
  Interval_intersect rec a (Interval b) = Ok r →
  plain_arg r
  ∧ bounded_by (start a) (end_ a) r ∧ bounded_by (start b) (end_ b) r
  ∧ ∀ x, mem x r ↔ inside a x ∧ inside b x.
Proof.
  intros Ha Hb Hc Hr.
  assert (∀ x, mem x r ↔ inside a x ∧ inside b x) as Hmem.
  { intros x. split.
    - by apply (Interval_intersect_sound rec a (Interval b) b r x).
    - intros [? ?]. by apply (Interval_intersect_complete rec a b r x). }
  split_and!; [..|exact Hmem].
  all: revert Hr; unfold Interval_intersect; cbn [as_interval];
    rewrite Hc; simpl.
  all: pose proof Hc as (Hsa & Hea & Hsb & Heb)%Interval_is_comparable_true.
  all: assert (num_ltb (start a) (end_ a) = true) as Hlta
    by (apply wf_interval_lt; [done|]; unfold concrete; by rewrite Hsa, Hea).
  all: assert (num_ltb (start b) (end_ b) = true) as Hltb
    by (apply wf_interval_lt; [done|]; unfold concrete; by rewrite Hsb, Heb).
  all: destruct (num_leb (start a) (end_ b) && num_leb (start b) (end_ a))
    eqn:Hov; [|intros [= <-]; try done; left; by left].
  all: apply andb_true_iff in Hov as [Hov1 Hov2].
  all: destruct (intersect_left a b) as [s lo] eqn:Hl.
  all: destruct (intersect_right a b) as [e ro] eqn:Hr.
  all: destruct (diff_is_zero e s && (lo || ro));
    [intros [= <-]; try done; left; by left|].
  all: assert (is_comparable s = true ∧ num_leb (start a) s = true
               ∧ num_leb (start b) s = true
               ∧ num_leb s (end_ a) = true ∧ num_leb s (end_ b) = true)
    as (Hs & Hs1 & Hs2 & Hs3 & Hs4)
    by (unfold intersect_left in Hl;
        destruct (num_ltb (start a) (start b)) eqn:?;
          [|destruct (num_ltb (start b) (start a)) eqn:?];
          injection Hl as <- <-; repeat split; try done; num_solve).
  all: assert (is_comparable e = true ∧ num_leb e (end_ a) = true
               ∧ num_leb e (end_ b) = true
               ∧ num_leb (start a) e = true ∧ num_leb (start b) e = true)
    as (He & He1 & He2 & He3 & He4)
    by (unfold intersect_right in Hr;
        destruct (num_ltb (end_ a) (end_ b)) eqn:?;
          [|destruct (num_ltb (end_ b) (end_ a)) eqn:?];
          injection Hr as <- <-; repeat split; try done; num_solve).
  all: intros Hnew;
    destruct (Interval_new_cases _ _ _ _ _ Hnew)
      as [->|[->|(j & -> & Hj & Hsj & Hej)]].
  - left. by left.
  - right. exists {[ e ]}. split; [done|]. apply non_empty_singleton_L.
  - left. right. exists j. split; [done|]. split; [done|].
    unfold concrete. by rewrite Hsj, Hej, Hs, He.
  - done.
  - done.
  - simpl. by rewrite Hsj, Hej.
  - done.
  - done.
  - simpl. by rewrite Hsj, Hej.
Qed.

Lemma pieces_off_boundaries rA rB hiA loB :
  is_comparable hiA = true → is_comparable loB = true →
  num_ltb hiA loB = true →
  plain_arg rA → plain_arg rB →
  (∃ lo, bounded_by lo hiA rA) → (∃ hi, bounded_by loB hi rB) →
  (∀ v, mem v rA → is_comparable v = true) →
  (∀ v, mem v rB → is_comparable v = true) →
  off_boundaries [rA; rB].
Proof.
  intros HhA HlB Hsep HpA HpB [lo HbA] [hi HbB] HcA HcB i f X Hi Hf HX.
  assert (∀ r, plain_arg r → r = Interval i →
               wf_interval i ∧ concrete i = true) as Hint.
  { intros r [[->|(j & -> & ? & ?)]|(Y & HY & _)];
      [discriminate|by intros [= ->]|by intros ->]. }
  apply elem_of_cons in Hi as [Hi|Hi%list_elem_of_singleton];
    apply elem_of_cons in Hf as [Hf|Hf%list_elem_of_singleton];
    subst.
  - discriminate HX.
  - destruct (Hint _ HpA eq_refl) as [Hwi Hci].
    pose proof (wf_interval_lt i Hwi Hci) as Hlti.
    apply andb_true_iff in Hci as [Hsi Hei].
    destruct rB as [ | | Y | v | | ]; try discriminate HX; [done|].
    injection HX as <-. simpl in HbA, HbB. destruct HbA as [_ HbA].
    destruct HbB as [HbB _].
    assert (is_comparable v = true) as Hv.
    { apply HcB. rewrite (mem_finite _ {[ v ]}) by done. set_solver. }
    split; intros Heq%elem_of_singleton; num_solve.
  - destruct (Hint _ HpB eq_refl) as [Hwi Hci].
    pose proof (wf_interval_lt i Hwi Hci) as Hlti.
    apply andb_true_iff in Hci as [Hsi Hei].
    destruct rA as [ | | Y | v | | ]; try discriminate HX; [done|].
    injection HX as <-. simpl in HbA, HbB. destruct HbA as [_ HbA].
    destruct HbB as [HbB _].
    assert (is_comparable v = true) as Hv.
    { apply HcA. rewrite (mem_finite _ {[ v ]}) by done. set_solver. }
    split; intros Heq%elem_of_singleton; num_solve.
  - discriminate HX.
Qed.

Lemma intersect_Interval_Union2 sym_lt a A B :
  wf_interval a → wf_interval A → wf_interval B →
  concrete a = true → concrete A = true → concrete B = true →
  num_ltb (end_ A) (start B) = true →
  ∃ r, intersect sym_lt (Interval a) (Union [Interval A; Interval B]) = Ok r
       ∧ ∀ x, mem x r ↔ inside a x ∧ (inside A x ∨ inside B x).
Proof.
  intros Ha HA HB Hca HcA HcB Hsep.
  assert (Interval_is_comparable A a = true) as HAa.
  { unfold Interval_is_comparable, concrete in *.
    apply andb_true_iff in Hca as [-> ->]. by rewrite HcA. }
  assert (Interval_is_comparable B a = true) as HBa.
  { unfold Interval_is_comparable, concrete in *.
    apply andb_true_iff in Hca as [-> ->]. by rewrite HcB. }
  unfold intersect. rewrite intersect_fuel_S.
  unfold Interval_intersect. cbn [as_interval].
  change (intersect_measure (Interval a) (Union [Interval A; Interval B]))
    with 14%nat.
  rewrite intersect_fuel_S.
  unfold Union_intersect. cbn [as_interval mapM].
  rewrite !intersect_fuel_S.
  destruct (Interval_intersect_Ok (intersect_fuel sym_lt 12) A a HAa)
    as [rA HrA].
  destruct (Interval_intersect_Ok (intersect_fuel sym_lt 12) B a HBa)
    as [rB HrB].
  rewrite HrA. cbn [mbind result_bind]. rewrite HrB.
  cbn [mbind result_bind mret result_ret].
  destruct (Interval_intersect_piece _ A a rA HA Ha HAa HrA)
    as (HpA & HbA & _ & HmA).
  destruct (Interval_intersect_piece _ B a rB HB Ha HBa HrB)
    as (HpB & HbB & _ & HmB).
  apply andb_true_iff in HcA as [HsA HeA].
  apply andb_true_iff in HcB as [HsB HeB].
  destruct (Union_new_plain_args sym_lt [rA; rB]) as (r & Hr & Hmem).
  { constructor; [done|]. constructor; [done|]. constructor. }
  { apply (pieces_off_boundaries rA rB (end_ A) (start B)); eauto.
    - intros v [(Hv & _) _]%HmA. done.
    - intros v [(Hv & _) _]%HmB. done. }
  exists r. split; [exact Hr|]. intros x. rewrite Hmem. split.
  - intros (s & [->|Hs]%elem_of_cons & Hm).
    + apply HmA in Hm as [? ?]. auto.
    + apply list_elem_of_singleton in Hs as ->.
      apply HmB in Hm as [? ?]. auto.
  - intros [Hxa [HxA|HxB]].
    + exists rA. split; [left|]. by apply HmA.
    + exists rB. split; [right; left|]. by apply HmB.
Qed.

(** X26.  The difference [a - b] of two Interval objects with concrete end
    points is computed, and the integers in it are exactly the integers of
    [a] that are not in [b]. *)
Theorem sub_Interval_exact (sym_lt : value → value → bool)
  (a b : interval) :
  wf_interval a → wf_interval b → Interval_is_comparable a b = true →
  ∃ r, sub sym_lt (Interval a) (Interval b) = Ok r
       ∧ ∀ z, mem (Int z) r
              ↔ mem (Int z) (Interval a) ∧ ¬ mem (Int z) (Interval b).
Proof.
  intros Ha Hb Hc.
  pose proof Hc as (Hsa & Hea & Hsb & Heb)%Interval_is_comparable_true.
  assert (concrete a = true) as Hca by (unfold concrete; by rewrite Hsa, Hea).
  assert (concrete b = true) as Hcb by (unfold concrete; by rewrite Hsb, Heb).
  pose proof (wf_interval_lt b Hb Hcb) as Hlt.
  unfold sub. cbn [as_finite].
  rewrite (Interval_complement_parts sym_lt b Hb Hcb).
  cbn [mbind result_bind].
  pose proof (outside_parts b) as Hout.
  unfold complement_parts.
  destruct (decide (start b = NegativeInfinity)) as [Hs|Hs];
    destruct (decide (end_ b = Infinity)) as [He|He].
  - rewrite !bool_decide_eq_true_2 by done.
    rewrite intersect_EmptySet_r by done. exists EmptySet. split; [done|].
    intros z. rewrite !mem_Interval, <- (Hout z Hcb), Hs, He.
    unfold inside at 2 3. simpl. split; [done|].
    intros [_ [(_ & _ & _ & _ & H)|(_ & _ & _ & H & _)]];
      [by destruct (left_open b)|by destruct (right_open b)].
  - rewrite bool_decide_eq_true_2, (bool_decide_eq_false_2 (end_ b = Infinity))
      by done.
    pose proof (wf_above b Hb Hcb He) as Hw.
    assert (Interval_is_comparable a
              (mkInterval (end_ b) Infinity (negb (right_open b)) true)
            = true) as Hc'.
    { unfold Interval_is_comparable. simpl. by rewrite Hsa, Hea, Heb. }
    unfold intersect. rewrite intersect_fuel_S.
    destruct (Interval_intersect_Ok
                (intersect_fuel sym_lt (intersect_measure (Interval a)
                   (Interval (mkInterval (end_ b) Infinity
                                (negb (right_open b)) true))))
                a _ Hc') as [r Hr].
    exists r. split; [exact Hr|]. intros z. rewrite !mem_Interval.
    destruct (Interval_intersect_piece _ a _ r Ha Hw Hc' Hr)
      as (_ & _ & _ & ->).
    rewrite <- (Hout z Hcb), Hs.
    assert (¬ inside (mkInterval NegativeInfinity NegativeInfinity true
                        (negb (left_open b))) (Int z)) as Hno.
    { intros (_ & _ & _ & _ & H). simpl in H. by destruct (left_open b). }
    tauto.
  - rewrite (bool_decide_eq_false_2 (start b = NegativeInfinity)),
      bool_decide_eq_true_2 by done.
    pose proof (wf_below b Hb Hcb Hs) as Hw.
    assert (Interval_is_comparable a
              (mkInterval NegativeInfinity (start b) true
                 (negb (left_open b)))
            = true) as Hc'.
    { unfold Interval_is_comparable. simpl. by rewrite Hsa, Hea, Hsb. }
    unfold intersect. rewrite intersect_fuel_S.
    destruct (Interval_intersect_Ok
                (intersect_fuel sym_lt (intersect_measure (Interval a)
                   (Interval (mkInterval NegativeInfinity (start b) true
                                (negb (left_open b))))))
                a _ Hc') as [r Hr].
    exists r. split; [exact Hr|]. intros z. rewrite !mem_Interval.
    destruct (Interval_intersect_piece _ a _ r Ha Hw Hc' Hr)
      as (_ & _ & _ & ->).
    rewrite <- (Hout z Hcb), He.
    assert (¬ inside (mkInterval Infinity Infinity (negb (right_open b))
                        true) (Int z)) as Hno.
    { intros (_ & _ & _ & H & _). simpl in H. by destruct (right_open b). }
    tauto.
  - rewrite (bool_decide_eq_false_2 (start b = NegativeInfinity)),
      (bool_decide_eq_false_2 (end_ b = Infinity)) by done.
    destruct (intersect_Interval_Union2 sym_lt a _ _ Ha
                (wf_below b Hb Hcb Hs) (wf_above b Hb Hcb He))
      as (r & Hr & Hmem); [done|by (unfold concrete; simpl; rewrite Hsb)
                           |by (unfold concrete; simpl; rewrite Heb)|done|].
    exists r. split; [exact Hr|]. intros z.
    by rewrite !mem_Interval, Hmem, (Hout z Hcb).
Qed.

Lemma sub_Interval_exact_witness :
  ∃ r, sub unordered (Interval (iv 0 10 false false))
         (Interval (iv 3 5 false true)) = Ok r
       ∧ ∀ z, mem (Int z) r
              ↔ mem (Int z) (Interval (iv 0 10 false false))
                ∧ ¬ mem (Int z) (Interval (iv 3 5 false true)).
Proof.
  apply (sub_Interval_exact unordered (iv 0 10 false false)
           (iv 3 5 false true)); reflexivity.
Defined.
